(** * Customer-survey cleaning script: a shallow embedding

    This development embeds [src/data_cleaning_project1.py], a linear
    pandas script, and states the properties of its cleaning pipeline.

    Modelling conventions (pandas 2.x semantics):
    - an [int64] cell is a [Z]; a [float64] cell is an [option Qc], an exact
      rational in canonical form, with [None] for NaN; decimal literals such
      as 299.99 are read as the rationals they denote. The pipeline computes
      its medians exactly; [median_with] is the median with the rounding of
      floating point, for the statements that depend on it;
    - an [object] (text) cell is an [option string], [None] for a missing
      value; the text of the pipeline is ASCII, and [Text] embeds
      [str.strip], [str.title] and [str.lower] on the ASCII range. Module
      [Unicode] gives the same methods on the code points of a Python
      [str]; the two agree on ASCII text ([UnicodeFacts]);
    - a [datetime64] cell is an [option Date], [None] for NaT;
    - a Python exception is [None] in the [option] monad of the step that
      raises it. *)

From Stdlib Require Import ZArith QArith Qcanon Qround Lia Lqa Bool List Sorted Permutation.
From Stdlib Require Import Ascii String.
Import ListNotations.

Open Scope string_scope.
Open Scope Z_scope.

(** ** Text methods of [Series.str] *)

Module Text.

(** [str.isspace] on ASCII: TAB, LF, VT, FF, CR, FS, GS, RS, US and the
    space. *)
Definition is_space (c : ascii) : bool :=
  let n := N_of_ascii c in
  ((9 <=? n) && (n <=? 13) || (28 <=? n) && (n <=? 32))%N.

Definition is_upper (c : ascii) : bool :=
  let n := N_of_ascii c in ((65 <=? n) && (n <=? 90))%N.

Definition is_lower (c : ascii) : bool :=
  let n := N_of_ascii c in ((97 <=? n) && (n <=? 122))%N.

Definition to_lower (c : ascii) : ascii :=
  if is_upper c then ascii_of_N (N_of_ascii c + 32) else c.

Definition to_upper (c : ascii) : ascii :=
  if is_lower c then ascii_of_N (N_of_ascii c - 32) else c.

Definition is_empty (s : string) : bool :=
  match s with EmptyString => true | String _ _ => false end.

Fixpoint lstrip (s : string) : string :=
  match s with
  | EmptyString => EmptyString
  | String c s' => if is_space c then lstrip s' else s
  end.

Fixpoint rstrip (s : string) : string :=
  match s with
  | EmptyString => EmptyString
  | String c s' =>
      let r := rstrip s' in
      if is_space c && is_empty r then EmptyString else String c r
  end.

(** [str.strip()] with no argument. *)
Definition strip (s : string) : string := rstrip (lstrip s).

(** [str.lower()]. *)
Fixpoint lower (s : string) : string :=
  match s with
  | EmptyString => EmptyString
  | String c s' => String (to_lower c) (lower s')
  end.

(** [str.title()]: the flag is CPython's [previous_is_cased]. A lower-case
    letter is capitalised when the previous character is not cased, an
    upper-case letter is lowered when it is, and any other character
    resets the flag. *)
Fixpoint title_from (previous_is_cased : bool) (s : string) : string :=
  match s with
  | EmptyString => EmptyString
  | String c s' =>
      if is_lower c then
        String (if previous_is_cased then c else to_upper c) (title_from true s')
      else if is_upper c then
        String (if previous_is_cased then to_lower c else c) (title_from true s')
      else String c (title_from false s')
  end.

Definition title (s : string) : string := title_from false s.

End Text.

(** ** Data model *)

(** One row of the survey frame. [A] is the cell type of the [age] column
    and [D] the cell type of the [survey_date] column: both columns change
    dtype during cleaning. *)
Record SurveyRecord (A D : Type) : Type := mkRecord {
  customer_id : Z;
  name : option string;
  age : A;
  email : option string;
  survey_date : D;
  satisfaction_rating : Z;
  product_category : option string;
  purchase_amount : option Qc;
  would_recommend : option string;
  comments : option string
}.

Arguments mkRecord {A D}.
Arguments customer_id {A D}.
Arguments name {A D}.
Arguments age {A D}.
Arguments email {A D}.
Arguments survey_date {A D}.
Arguments satisfaction_rating {A D}.
Arguments product_category {A D}.
Arguments purchase_amount {A D}.
Arguments would_recommend {A D}.
Arguments comments {A D}.

Record Date : Type := mkDate { year : Z; month : Z; day : Z }.

(** The frame as built from the literal: integer ages, textual dates. *)
Definition RawRecord : Type := SurveyRecord Z (option string).
(** After the age repair the column holds floats. *)
Definition AgedRecord : Type := SurveyRecord (option Qc) (option string).
(** After [pd.to_datetime] the date column holds timestamps. *)
Definition CleanRecord : Type := SurveyRecord (option Qc) (option Date).

(** A float literal. *)
Definition float (q : Q) : option Qc := Some (Q2Qc q).

(** The literal [data] of the script, lines 11-18. *)
Definition data : list RawRecord := [
  mkRecord 1 (Some "John Smith") 25 (Some "john@email.com") (Some "2024-01-15") 5
           (Some "electronics") (float 299.99) (Some "Yes") (Some "Great product!");
  mkRecord 2 (Some " jane doe ") 150 (Some "JANE@EMAIL.COM") (Some "01/16/2024") 4
           (Some "CLOTHING") (float 89.50) (Some "yes") (Some "  Good quality  ");
  mkRecord 1 (Some "John Smith") 25 (Some "john@email.com") (Some "2024-01-15") 5
           (Some "Electronics") (float 299.99) (Some "Yes") (Some "Great product!");
  mkRecord 3 (Some "Bob Johnson") 30 (Some "") (Some "2024-01-17") 3
           (Some "Books") (float 25.00) (Some "Maybe") (Some "");
  mkRecord 4 (Some "Alice Brown") (-5) (Some "alice@email.com") (Some "17-01-2024") 6
           (Some "home & garden") (float 450.00) (Some "NO") (Some "Poor delivery");
  mkRecord 5 (Some "") 35 (Some "test@email.com") (Some "2024/01/18") 2
           (Some "Clothing") None (Some "Yes") (Some "")
].

(** ** Cell and row equality, as [DataFrame.duplicated] compares them *)

Definition Qc_eqb (a b : Qc) : bool := Qeq_bool a b.

Definition option_eqb {T : Type} (eqb : T -> T -> bool) (a b : option T) : bool :=
  match a, b with
  | Some x, Some y => eqb x y
  | None, None => true
  | _, _ => false
  end.

(** Two missing cells count as equal, as in pandas. *)
Definition row_eqb (r1 r2 : RawRecord) : bool :=
  (customer_id r1 =? customer_id r2)
  && option_eqb String.eqb (name r1) (name r2)
  && (age r1 =? age r2)
  && option_eqb String.eqb (email r1) (email r2)
  && option_eqb String.eqb (survey_date r1) (survey_date r2)
  && (satisfaction_rating r1 =? satisfaction_rating r2)
  && option_eqb String.eqb (product_category r1) (product_category r2)
  && option_eqb Qc_eqb (purchase_amount r1) (purchase_amount r2)
  && option_eqb String.eqb (would_recommend r1) (would_recommend r2)
  && option_eqb String.eqb (comments r1) (comments r2).

(** ** Step 1: [drop_duplicates()] ([keep='first']) *)

(** [seen] holds the rows met so far; a row equal to one of them is
    dropped. *)
Fixpoint drop_duplicates_from (seen rows : list RawRecord) : list RawRecord :=
  match rows with
  | [] => []
  | r :: rest =>
      if existsb (row_eqb r) seen then drop_duplicates_from seen rest
      else r :: drop_duplicates_from (r :: seen) rest
  end.

Definition drop_duplicates (rows : list RawRecord) : list RawRecord :=
  drop_duplicates_from [] rows.

(** [df.duplicated().sum()]. *)
Definition duplicated_count (rows : list RawRecord) : nat :=
  (List.length rows - List.length (drop_duplicates rows))%nat.

(** ** [Series.median()] *)

Definition Qc_leb (a b : Qc) : bool := Qle_bool a b.

Fixpoint insert_sorted (x : Qc) (l : list Qc) : list Qc :=
  match l with
  | [] => [x]
  | y :: l' => if Qc_leb x y then x :: l else y :: insert_sorted x l'
  end.

Definition sort_values (l : list Qc) : list Qc := fold_right insert_sorted [] l.

Definition mean2 (a b : Qc) : Qc := ((a + b) / Q2Qc 2)%Qc.

Definition middle (s : list Qc) : option Qc :=
  let n := List.length s in
  if Nat.odd n then nth_error s (n / 2)
  else match nth_error s (n / 2 - 1), nth_error s (n / 2) with
       | Some a, Some b => Some (mean2 a b)
       | _, _ => None
       end.

(** The median of the non-missing values; NaN when there is none. *)
Definition dropna {T : Type} (col : list (option T)) : list T :=
  flat_map (fun c => match c with Some x => [x] | None => [] end) col.

Definition median_values (l : list Qc) : option Qc := middle (sort_values l).

Definition median (col : list (option Qc)) : option Qc := median_values (dropna col).

(** ** Column assignment *)

Section Setters.
Context {A D : Type}.

Definition set_name (r : SurveyRecord A D) (v : option string) : SurveyRecord A D :=
  mkRecord (customer_id r) v (age r) (email r) (survey_date r)
           (satisfaction_rating r) (product_category r) (purchase_amount r)
           (would_recommend r) (comments r).

Definition set_email (r : SurveyRecord A D) (v : option string) : SurveyRecord A D :=
  mkRecord (customer_id r) (name r) (age r) v (survey_date r)
           (satisfaction_rating r) (product_category r) (purchase_amount r)
           (would_recommend r) (comments r).

Definition set_satisfaction_rating (r : SurveyRecord A D) (v : Z) : SurveyRecord A D :=
  mkRecord (customer_id r) (name r) (age r) (email r) (survey_date r)
           v (product_category r) (purchase_amount r)
           (would_recommend r) (comments r).

Definition set_product_category (r : SurveyRecord A D) (v : option string) : SurveyRecord A D :=
  mkRecord (customer_id r) (name r) (age r) (email r) (survey_date r)
           (satisfaction_rating r) v (purchase_amount r)
           (would_recommend r) (comments r).

Definition set_purchase_amount (r : SurveyRecord A D) (v : option Qc) : SurveyRecord A D :=
  mkRecord (customer_id r) (name r) (age r) (email r) (survey_date r)
           (satisfaction_rating r) (product_category r) v
           (would_recommend r) (comments r).

Definition set_would_recommend (r : SurveyRecord A D) (v : option string) : SurveyRecord A D :=
  mkRecord (customer_id r) (name r) (age r) (email r) (survey_date r)
           (satisfaction_rating r) (product_category r) (purchase_amount r)
           v (comments r).

Definition set_comments (r : SurveyRecord A D) (v : option string) : SurveyRecord A D :=
  mkRecord (customer_id r) (name r) (age r) (email r) (survey_date r)
           (satisfaction_rating r) (product_category r) (purchase_amount r)
           (would_recommend r) v.
End Setters.

Definition set_age {A B D : Type} (r : SurveyRecord A D) (v : B) : SurveyRecord B D :=
  mkRecord (customer_id r) (name r) v (email r) (survey_date r)
           (satisfaction_rating r) (product_category r) (purchase_amount r)
           (would_recommend r) (comments r).

Definition set_survey_date {A D E : Type} (r : SurveyRecord A D) (v : E) : SurveyRecord A E :=
  mkRecord (customer_id r) (name r) (age r) (email r) v
           (satisfaction_rating r) (product_category r) (purchase_amount r)
           (would_recommend r) (comments r).

(** [Series.fillna(value)]. *)
Definition fillna {T : Type} (value : option T) (c : option T) : option T :=
  match c with Some _ => c | None => value end.

(** ** Step 2: missing values (lines 71-77) *)

Definition median_amount {A D : Type} (rows : list (SurveyRecord A D)) : option Qc :=
  median (map purchase_amount rows).

Definition fill_purchase_amount {A D : Type} (rows : list (SurveyRecord A D))
  : list (SurveyRecord A D) :=
  let m := median_amount rows in
  map (fun r => set_purchase_amount r (fillna m (purchase_amount r))) rows.

Definition fill_name {A D : Type} (rows : list (SurveyRecord A D)) : list (SurveyRecord A D) :=
  map (fun r => set_name r (fillna (Some "Unknown Customer") (name r))) rows.

Definition fill_email {A D : Type} (rows : list (SurveyRecord A D)) : list (SurveyRecord A D) :=
  map (fun r => set_email r (fillna (Some "no_email@unknown.com") (email r))) rows.

Definition handle_missing {A D : Type} (rows : list (SurveyRecord A D))
  : list (SurveyRecord A D) :=
  fill_email (fill_name (fill_purchase_amount rows)).

(** ** Step 3: invalid ages (lines 87-91) *)

Definition of_int (z : Z) : Qc := Q2Qc (inject_Z z).

Definition valid_ages {D : Type} (rows : list (SurveyRecord Z D)) : list Z :=
  map age (filter (fun r => (0 <=? age r) && (age r <=? 120)) rows).

Definition median_age {D : Type} (rows : list (SurveyRecord Z D)) : option Qc :=
  median_values (map of_int (valid_ages rows)).

(** A comparison with NaN is false. *)
Definition float_gt (c : option Qc) (bound : Z) : bool :=
  match c with
  | Some q => negb (Qc_leb q (of_int bound))
  | None => false
  end.

(** Line 90: the assignment of a float to the selected rows upcasts the
    whole column. *)
Definition replace_negative_ages {D : Type} (m : option Qc)
    (rows : list (SurveyRecord Z D)) : list (SurveyRecord (option Qc) D) :=
  map (fun r => set_age r (if age r <? 0 then m else Some (of_int (age r)))) rows.

(** Line 91, on the column as line 90 left it. *)
Definition replace_large_ages {D : Type} (m : option Qc)
    (rows : list (SurveyRecord (option Qc) D)) : list (SurveyRecord (option Qc) D) :=
  map (fun r => set_age r (if float_gt (age r) 120 then m else age r)) rows.

Definition repair_ages {D : Type} (rows : list (SurveyRecord Z D))
  : list (SurveyRecord (option Qc) D) :=
  let m := median_age rows in
  replace_large_ages m (replace_negative_ages m rows).

(** ** Step 4: ratings (lines 100-101) *)

Definition clamp_ratings {A D : Type} (rows : list (SurveyRecord A D))
  : list (SurveyRecord A D) :=
  let low := map (fun r => if satisfaction_rating r <? 1
                           then set_satisfaction_rating r 1 else r) rows in
  map (fun r => if 5 <? satisfaction_rating r
                then set_satisfaction_rating r 5 else r) low.

(** ** Step 5: text (lines 109-127) *)

(** A [Series.str] method leaves a missing cell missing. *)
Definition str (f : string -> string) (c : option string) : option string :=
  option_map f c.

Definition strip_title (c : option string) : option string :=
  str Text.title (str Text.strip c).

Definition strip_lower (c : option string) : option string :=
  str Text.lower (str Text.strip c).

(** Line 123: [.loc[would_recommend == 'Maybe', 'would_recommend'] = 'No']. *)
Definition maybe_to_no (c : option string) : option string :=
  if option_eqb String.eqb c (Some "Maybe") then Some "No" else c.

Definition normalize_text {A D : Type} (rows : list (SurveyRecord A D))
  : list (SurveyRecord A D) :=
  let rows := map (fun r => set_name r (strip_title (name r))) rows in
  let rows := map (fun r => set_email r (strip_lower (email r))) rows in
  let rows := map (fun r => set_product_category r (strip_title (product_category r))) rows in
  let rows := map (fun r => set_would_recommend r (strip_title (would_recommend r))) rows in
  let rows := map (fun r => set_would_recommend r (maybe_to_no (would_recommend r))) rows in
  map (fun r => set_comments r (str Text.strip (comments r))) rows.

(** Steps 1 to 5, before the dates are parsed. *)
Definition clean_before_dates (rows : list RawRecord) : list AgedRecord :=
  normalize_text (clamp_ratings (repair_ages (handle_missing (drop_duplicates rows)))).

(** ** Step 6: [pd.to_datetime(col, errors='coerce')] (line 134) *)

Module Dates.

Definition is_digit (c : ascii) : bool :=
  let n := N_of_ascii c in ((48 <=? n) && (n <=? 57))%N.

Definition digit_value (c : ascii) : Z := Z.of_N (N_of_ascii c) - 48.

Definition is_leap (y : Z) : bool :=
  (y mod 4 =? 0) && (negb (y mod 100 =? 0) || (y mod 400 =? 0)).

Definition days_in_month (y m : Z) : Z :=
  if m =? 2 then (if is_leap y then 29 else 28)
  else if (m =? 4) || (m =? 6) || (m =? 9) || (m =? 11) then 30
  else 31.

(** [datetime(y, m, d)] does not raise. *)
Definition valid_date (y m d : Z) : bool :=
  (1 <=? y) && (y <=? 9999) && (1 <=? m) && (m <=? 12)
  && (1 <=? d) && (d <=? days_in_month y m).

Definition date_leb (a b : Date) : bool :=
  (year a <? year b)
  || (year a =? year b)
     && ((month a <? month b) || (month a =? month b) && (day a <=? day b)).

(** The midnights that a nanosecond [Timestamp] can hold:
    [Timestamp.min] is 1677-09-21 00:12:43.1 and [Timestamp.max] is
    2262-04-11 23:47:16.8. *)
Definition in_bounds (t : Date) : bool :=
  date_leb (mkDate 1677 9 22) t && date_leb t (mkDate 2262 4 11).

(** A timestamp from three fields; [None] for the [ValueError] of an
    impossible date and for [OutOfBoundsDatetime]. *)
Definition make_timestamp (y m d : Z) : option Date :=
  if valid_date y m d && in_bounds (mkDate y m d) then Some (mkDate y m d) else None.

(** *** Formats *)

Inductive Sep : Type := Dash | Slash.

Definition sep_char (s : Sep) : ascii :=
  match s with Dash => "-"%char | Slash => "/"%char end.

(** The order of the three directives: [%Y?%m?%d], [%m?%d?%Y], [%d?%m?%Y]. *)
Inductive Layout : Type := YMD | MDY | DMY.

Record NumericFormat : Type := mkFormat { layout : Layout; sep : Sep }.

(** *** The regular expressions of [strptime]

    Each matcher returns its alternatives in the order in which the regex
    engine tries them, each with the rest of the input. *)

Definition Alternatives (T : Type) : Type := list (T * string).

(** [%Y] is [\d\d\d\d]. *)
Definition match_Y (s : string) : Alternatives Z :=
  match s with
  | String a (String b (String c (String d rest))) =>
      if is_digit a && is_digit b && is_digit c && is_digit d
      then [(1000 * digit_value a + 100 * digit_value b
             + 10 * digit_value c + digit_value d, rest)]
      else []
  | _ => []
  end.

Definition two_digits (ok : Z -> Z -> bool) (s : string) : Alternatives Z :=
  match s with
  | String a (String b rest) =>
      if is_digit a && is_digit b && ok (digit_value a) (digit_value b)
      then [(10 * digit_value a + digit_value b, rest)] else []
  | _ => []
  end.

(** [[1-9]]. *)
Definition one_digit (s : string) : Alternatives Z :=
  match s with
  | String a rest =>
      if is_digit a && (1 <=? digit_value a) then [(digit_value a, rest)] else []
  | _ => []
  end.

(** [%m] is [1[0-2]|0[1-9]|[1-9]]. *)
Definition match_m (s : string) : Alternatives Z :=
  (two_digits (fun a b => (a =? 1) && (b <=? 2)) s
   ++ two_digits (fun a b => (a =? 0) && (1 <=? b)) s
   ++ one_digit s)%list.

(** [%d] is [3[0-1]|[1-2]\d|0[1-9]|[1-9]| [1-9]]. *)
Definition match_d (s : string) : Alternatives Z :=
  (two_digits (fun a b => (a =? 3) && (b <=? 1)) s
   ++ two_digits (fun a b => (1 <=? a) && (a <=? 2)) s
   ++ two_digits (fun a b => (a =? 0) && (1 <=? b)) s
   ++ one_digit s
   ++ match s with
      | String " " rest => one_digit rest
      | _ => []
      end)%list.

Definition match_sep (c : Sep) (s : string) : Alternatives unit :=
  match s with
  | String a rest => if Ascii.eqb a (sep_char c) then [(tt, rest)] else []
  | EmptyString => []
  end.

Definition and_then {T U : Type} (p : Alternatives T) (k : T -> string -> Alternatives U)
  : Alternatives U :=
  flat_map (fun '(v, rest) => k v rest) p.

(** The pattern of a format, matched at the start of the input: the
    fields as (year, month, day). *)
Definition regex_match (f : NumericFormat) (s : string) : Alternatives (Z * Z * Z) :=
  let c := sep f in
  match layout f with
  | YMD =>
      and_then (match_Y s) (fun y s =>
      and_then (match_sep c s) (fun _ s =>
      and_then (match_m s) (fun m s =>
      and_then (match_sep c s) (fun _ s =>
      and_then (match_d s) (fun d s => [((y, m, d), s)])))))
  | MDY =>
      and_then (match_m s) (fun m s =>
      and_then (match_sep c s) (fun _ s =>
      and_then (match_d s) (fun d s =>
      and_then (match_sep c s) (fun _ s =>
      and_then (match_Y s) (fun y s => [((y, m, d), s)])))))
  | DMY =>
      and_then (match_d s) (fun d s =>
      and_then (match_sep c s) (fun _ s =>
      and_then (match_m s) (fun m s =>
      and_then (match_sep c s) (fun _ s =>
      and_then (match_Y s) (fun y s => [((y, m, d), s)])))))
  end.

(** Exact matching: the first match wins and must reach the end of the
    input ("unconverted data remains" otherwise). *)
Definition strptime (f : NumericFormat) (s : string) : option Date :=
  match regex_match f s with
  | ((y, m, d), EmptyString) :: _ => make_timestamp y m d
  | _ => None
  end.

(** *** Numeric dates as the [dateutil] lexer splits them *)

Fixpoint span_digits (s : string) : string * string :=
  match s with
  | EmptyString => (EmptyString, EmptyString)
  | String c s' =>
      if is_digit c then let '(g, rest) := span_digits s' in (String c g, rest)
      else (EmptyString, s)
  end.

Fixpoint number (acc : Z) (s : string) : Z :=
  match s with
  | EmptyString => acc
  | String c s' => number (10 * acc + digit_value c) s'
  end.

Definition sep_of (c : ascii) : option Sep :=
  if Ascii.eqb c "-" then Some Dash
  else if Ascii.eqb c "/" then Some Slash else None.

Definition sep_eqb (a b : Sep) : bool :=
  match a, b with Dash, Dash | Slash, Slash => true | _, _ => false end.

(** Three groups of digits with the same separator twice. *)
Definition split_numeric (s : string) : option (Sep * string * string * string) :=
  let '(g1, r1) := span_digits s in
  match r1 with
  | String c1 r1' =>
      let '(g2, r2) := span_digits r1' in
      match r2 with
      | String c2 r2' =>
          let '(g3, r3) := span_digits r2' in
          match sep_of c1, sep_of c2, r3 with
          | Some p, Some q, EmptyString => if sep_eqb p q then Some (p, g1, g2, g3) else None
          | _, _, _ => None
          end
      | EmptyString => None
      end
  | EmptyString => None
  end.

(** The shapes this development describes: a four-digit year first or
    last, the other two groups of one or two digits. *)
Inductive NumericDate : Type :=
| YearFirst (p : Sep) (y m d : Z)
| YearLast (p : Sep) (a b y : Z).

Definition short (g : string) : bool :=
  let n := String.length g in Nat.leb 1 n && Nat.leb n 2.

Definition numeric_date (s : string) : option NumericDate :=
  match split_numeric s with
  | Some (p, g1, g2, g3) =>
      if Nat.eqb (String.length g1) 4 && short g2 && short g3
      then Some (YearFirst p (number 0 g1) (number 0 g2) (number 0 g3))
      else if short g1 && short g2 && Nat.eqb (String.length g3) 4
      then Some (YearLast p (number 0 g1) (number 0 g2) (number 0 g3))
      else None
  | None => None
  end.

(** How [dateutil] (with [dayfirst=False], [yearfirst=False]) reads a
    numeric date: a leading four-digit group is the year; otherwise the
    first group is the month unless it exceeds 12, in which case it is the
    day. The result is (layout, year, month, day). *)
Definition resolve_ymd (n : NumericDate) : Layout * Z * Z * Z :=
  match n with
  | YearFirst _ y m d => (YMD, y, m, d)
  | YearLast _ a b y => if 12 <? a then (DMY, y, b, a) else (MDY, y, a, b)
  end.

Definition sep_used (n : NumericDate) : Sep :=
  match n with YearFirst p _ _ _ | YearLast p _ _ _ => p end.

Definition parse_numeric (n : NumericDate) : option Date :=
  let '(_, y, m, d) := resolve_ymd n in make_timestamp y m d.

(** [guess_datetime_format] on a numeric date: the format that reproduces
    the string from what [dateutil] parsed; none when the date is
    impossible or out of bounds. *)
Definition guess_numeric (n : NumericDate) : option NumericFormat :=
  let '(l, y, m, d) := resolve_ymd n in
  match make_timestamp y m d with
  | Some _ => Some (mkFormat l (sep_used n))
  | None => None
  end.

(** *** Strings outside the numeric shapes

    Month names, times, two-digit years, compact dates and the like are
    parsed by pandas and [dateutil] too. Their treatment is left open: the
    three functions below stand for what the library does with them. *)
Record Library : Type := mkLibrary {
  other_format : Type;
  (** [guess_datetime_format] on a string that is not a numeric date *)
  guess_other : string -> option other_format;
  (** [strptime] under such a format *)
  strptime_other : other_format -> string -> option Date;
  (** the per-element parser on a string that is not a numeric date, and
      ["now"] and ["today"] under any format *)
  parse_other : string -> option Date
}.

Inductive Format (lib : Library) : Type :=
| Numeric (f : NumericFormat)
| Other (f : other_format lib).
Arguments Numeric {lib}.
Arguments Other {lib}.

(** The outcome for one cell. *)
Inductive Outcome : Type :=
| Stamp (t : Date)
| NaT
| Error.

Definition outcome_of (o : option Date) : Outcome :=
  match o with Some t => Stamp t | None => Error end.

Definition mem_string (s : string) (l : list string) : bool :=
  existsb (String.eqb s) l.

Definition nat_strings : list string := ["NaT"; "nat"; "NAT"; "nan"; "NaN"; "NAN"].

(** Cells that every path turns into NaT without an error. *)
Definition is_null (c : option string) : bool :=
  match c with
  | None => true
  | Some s => Text.is_empty s || mem_string s nat_strings
  end.

Definition is_now_today (s : string) : bool := mem_string s ["now"; "today"].

(** [tslib.first_non_null]: the first cell that is neither null nor
    ["now"]/["today"]. *)
Fixpoint first_non_null (col : list (option string)) : option string :=
  match col with
  | [] => None
  | c :: rest =>
      match c with
      | Some s => if is_null c || is_now_today s then first_non_null rest else Some s
      | None => first_non_null rest
      end
  end.

Section Parsing.
Variable lib : Library.

Definition guess_datetime_format (s : string) : option (Format lib) :=
  match numeric_date s with
  | Some n => option_map Numeric (guess_numeric n)
  | None => option_map Other (guess_other lib s)
  end.

(** [array_strptime] on one cell. *)
Definition parse_with_format (f : Format lib) (c : option string) : Outcome :=
  match c with
  | None => NaT
  | Some s =>
      if is_null c then NaT
      else if is_now_today s then outcome_of (parse_other lib s)
      else match f with
           | Numeric nf => outcome_of (strptime nf s)
           | Other f' => outcome_of (strptime_other lib f' s)
           end
  end.

(** The per-element parser used when no format could be guessed. *)
Definition parse_single (c : option string) : Outcome :=
  match c with
  | None => NaT
  | Some s =>
      if is_null c then NaT
      else match numeric_date s with
           | Some n => outcome_of (parse_numeric n)
           | None => outcome_of (parse_other lib s)
           end
  end.

(** The format is guessed from the first non-null cell and applied to
    every cell; with no guess, each cell is parsed on its own. *)
Definition parse_column (col : list (option string)) : list Outcome :=
  match first_non_null col with
  | Some s =>
      match guess_datetime_format s with
      | Some f => map (parse_with_format f) col
      | None => map parse_single col
      end
  | None => map parse_single col
  end.
End Parsing.

Inductive ErrorPolicy : Type := Raise | Coerce.

(** [errors='raise'] propagates the first error; [errors='coerce'] turns
    every error into NaT. *)
Fixpoint apply_policy (errors : ErrorPolicy) (outcomes : list Outcome)
  : option (list (option Date)) :=
  match outcomes with
  | [] => Some []
  | o :: rest =>
      match o, errors with
      | Error, Raise => None
      | _, _ =>
          match apply_policy errors rest with
          | Some cells =>
              Some (match o with Stamp t => Some t | _ => None end :: cells)
          | None => None
          end
      end
  end.

Definition to_datetime (lib : Library) (errors : ErrorPolicy) (col : list (option string))
  : option (list (option Date)) :=
  apply_policy errors (parse_column lib col).

(** *** Writing a timestamp, as [strftime] and [to_csv] do *)

Definition digit_char (n : Z) : ascii := ascii_of_N (Z.to_N (n mod 10) + 48).

Definition pad2 (n : Z) : string :=
  String (digit_char (n / 10)) (String (digit_char n) EmptyString).

Definition pad4 (n : Z) : string :=
  String (digit_char (n / 1000)) (String (digit_char (n / 100)) (pad2 n)).

(** A date written in a numeric format, zero-padded. *)
Definition strftime (f : NumericFormat) (t : Date) : string :=
  let c := String (sep_char (sep f)) EmptyString in
  (match layout f with
   | YMD => pad4 (year t) ++ c ++ pad2 (month t) ++ c ++ pad2 (day t)
   | MDY => pad2 (month t) ++ c ++ pad2 (day t) ++ c ++ pad4 (year t)
   | DMY => pad2 (day t) ++ c ++ pad2 (month t) ++ c ++ pad4 (year t)
   end)%string.

(** The four formats of the survey dates: [YYYY-MM-DD], [MM/DD/YYYY],
    [YYYY/MM/DD] and [DD-MM-YYYY]. *)
Definition ISO : NumericFormat := mkFormat YMD Dash.
Definition US_slash : NumericFormat := mkFormat MDY Slash.
Definition slash_YMD : NumericFormat := mkFormat YMD Slash.
Definition dash_DMY : NumericFormat := mkFormat DMY Dash.

Definition supported_formats : list NumericFormat := [ISO; US_slash; slash_YMD; dash_DMY].

Definition isoformat (t : Date) : string := strftime ISO t.

(** NaT is written as the empty field. *)
Definition to_csv_field (c : option Date) : string :=
  match c with Some t => isoformat t | None => EmptyString end.

(** A calendar date that a timestamp can hold. *)
Definition is_timestamp (t : Date) : bool :=
  valid_date (year t) (month t) (day t) && in_bounds t.

(** *** Notions used in the proofs *)

(** The input ends, or goes on with something that is not a digit. *)
Definition stops (s : string) : bool :=
  match s with
  | EmptyString => true
  | String c _ => negb (is_digit c)
  end.

Definition digit_led (s : string) : Prop :=
  exists a r, s = String a r /\ is_digit a = true.

Fixpoint range_from (start : Z) (n : nat) : list Z :=
  match n with
  | O => []
  | S k => start :: range_from (start + 1) k
  end.

End Dates.

(** ** The cleaning pipeline, lines 59-134 *)

Fixpoint assign_dates {A D E : Type} (rows : list (SurveyRecord A D)) (col : list E)
  : list (SurveyRecord A E) :=
  match rows, col with
  | r :: rows', c :: col' => set_survey_date r c :: assign_dates rows' col'
  | _, _ => []
  end.

Definition normalize_dates (lib : Dates.Library) (rows : list AgedRecord)
  : option (list CleanRecord) :=
  match Dates.to_datetime lib Dates.Coerce (map survey_date rows) with
  | Some col => Some (assign_dates rows col)
  | None => None
  end.

Definition cleaning_pipeline (lib : Dates.Library) (rows : list RawRecord)
  : option (list CleanRecord) :=
  normalize_dates lib (clean_before_dates rows).

(** ** Diagnostics (lines 37-48) and the summary (lines 140-145) *)

Definition count {T : Type} (p : T -> bool) (l : list T) : Z :=
  Z.of_nat (List.length (filter p l)).

Definition isnull {T : Type} (c : option T) : bool :=
  match c with None => true | Some _ => false end.

(** [df.isnull().sum()], in column order. The integer columns hold no
    missing value. *)
Definition isnull_sum {D : Type} (rows : list (SurveyRecord Z (option D))) : list Z :=
  [ 0;
    count (fun r => isnull (name r)) rows;
    0;
    count (fun r => isnull (email r)) rows;
    count (fun r => isnull (survey_date r)) rows;
    0;
    count (fun r => isnull (product_category r)) rows;
    count (fun r => isnull (purchase_amount r)) rows;
    count (fun r => isnull (would_recommend r)) rows;
    count (fun r => isnull (comments r)) rows ].

Definition sum (l : list Z) : Z := fold_right Z.add 0 l.

Definition negative_ages (rows : list RawRecord) : Z :=
  count (fun r => age r <? 0) rows.

Definition unrealistic_ages (rows : list RawRecord) : Z :=
  count (fun r => 120 <? age r) rows.

Definition invalid_ages (rows : list RawRecord) : Z :=
  count (fun r => (age r <? 0) || (120 <? age r)) rows.

Definition invalid_ratings {A D : Type} (rows : list (SurveyRecord A D)) : Z :=
  count (fun r => (satisfaction_rating r <? 1) || (5 <? satisfaction_rating r)) rows.

(** [Series.unique()]: the distinct values in order of appearance. *)
Fixpoint unique_from (seen col : list (option string)) : list (option string) :=
  match col with
  | [] => []
  | c :: rest =>
      if existsb (option_eqb String.eqb c) seen then unique_from seen rest
      else c :: unique_from (c :: seen) rest
  end.

Definition unique (col : list (option string)) : list (option string) :=
  unique_from [] col.

Record Assessment : Type := mkAssessment {
  missing_per_column : list Z;
  duplicate_rows : Z;
  ages_negative : Z;
  ages_over_120 : Z;
  ratings_invalid : Z;
  category_variants : list (option string)
}.

Definition assess (rows : list RawRecord) : Assessment :=
  mkAssessment (isnull_sum rows) (Z.of_nat (duplicated_count rows))
               (negative_ages rows) (unrealistic_ages rows) (invalid_ratings rows)
               (unique (map product_category rows)).

(** What lines 140-145 print. *)
Record Summary : Type := mkSummary {
  original_rows : Z;
  cleaned_rows : Z;
  fixed_missing : Z;
  corrected_ages : Z;
  fixed_ratings : Z
}.

(** ** The script as a program over a store of frames

    A DataFrame is an object: [df] and [df_clean] are names bound to
    references, [df.copy()] and [drop_duplicates()] allocate a new object,
    and a column assignment updates the object in place. *)

Inductive DataFrame : Type :=
| RawFrame (rows : list RawRecord)
| AgedFrame (rows : list AgedRecord)
| CleanFrame (rows : list CleanRecord).

Definition Ref : Type := nat.

(** The objects allocated so far; a reference is a position. *)
Definition Store : Type := list DataFrame.

Definition Script (T : Type) : Type := Store -> option (T * Store).

Definition ret {T : Type} (v : T) : Script T := fun st => Some (v, st).

Definition bind {T U : Type} (m : Script T) (k : T -> Script U) : Script U :=
  fun st => match m st with
            | Some (v, st') => k v st'
            | None => None
            end.

Declare Scope script_scope.
Delimit Scope script_scope with script.
Notation "x <- m ;; k" := (bind m (fun x => k))
  (at level 61, m at next level, right associativity) : script_scope.
Notation "m ;;; k" := (bind m (fun _ => k))
  (at level 61, right associativity) : script_scope.

Definition raise {T : Type} : Script T := fun _ => None.

Definition new_frame (f : DataFrame) : Script Ref :=
  fun st => Some (List.length st, (st ++ [f])%list).

Definition read (r : Ref) : Script DataFrame :=
  fun st => match nth_error st r with
            | Some f => Some (f, st)
            | None => None
            end.

Fixpoint update (st : Store) (r : Ref) (f : DataFrame) : Store :=
  match st, r with
  | [], _ => []
  | _ :: st', O => f :: st'
  | g :: st', S r' => g :: update st' r' f
  end.

(** In-place update of the object behind [r]; the step may raise. *)
Definition modify (r : Ref) (step : DataFrame -> option DataFrame) : Script unit :=
  fun st => match nth_error st r with
            | Some f => match step f with
                        | Some f' => Some (tt, update st r f')
                        | None => None
                        end
            | None => None
            end.

Definition on_raw (step : list RawRecord -> list RawRecord) (f : DataFrame)
  : option DataFrame :=
  match f with RawFrame rows => Some (RawFrame (step rows)) | _ => None end.

Definition on_aged (step : list AgedRecord -> list AgedRecord) (f : DataFrame)
  : option DataFrame :=
  match f with AgedFrame rows => Some (AgedFrame (step rows)) | _ => None end.

Definition raw_rows (r : Ref) : Script (list RawRecord) :=
  bind (read r) (fun f => match f with RawFrame rows => ret rows | _ => raise end).

Definition clean_rows (r : Ref) : Script (list CleanRecord) :=
  bind (read r) (fun f => match f with CleanFrame rows => ret rows | _ => raise end).

Record Run : Type := mkRun {
  df : Ref;
  df_clean : Ref;
  assessment : Assessment;
  removed_duplicates : Z;
  summary : Summary
}.

Open Scope script_scope.

(** The script, statement by statement. *)
Definition script (lib : Dates.Library) (records : list RawRecord) : Script Run :=
  (* 24 *) df <- new_frame (RawFrame records) ;;
  (* 37-48 *) raw <- raw_rows df ;;
  let assessment := assess raw in
  (* 59 *) original <- read df ;;
  df_clean <- new_frame original ;;
  (* 63 *) rows <- raw_rows df_clean ;;
  let initial_rows := Z.of_nat (List.length rows) in
  (* 64 *) df_clean <- new_frame (RawFrame (drop_duplicates rows)) ;;
  (* 65 *) rows <- raw_rows df_clean ;;
  let removed_duplicates := initial_rows - Z.of_nat (List.length rows) in
  (* 71-72 *) modify df_clean (on_raw fill_purchase_amount) ;;;
  (* 76 *) modify df_clean (on_raw fill_name) ;;;
  (* 77 *) modify df_clean (on_raw fill_email) ;;;
  (* 87-91 *) modify df_clean (fun f => match f with
                                | RawFrame rows => Some (AgedFrame (repair_ages rows))
                                | _ => None
                                end) ;;;
  (* 100-101 *) modify df_clean (on_aged clamp_ratings) ;;;
  (* 109-127 *) modify df_clean (on_aged normalize_text) ;;;
  (* 134 *) modify df_clean (fun f => match f with
                              | AgedFrame rows => option_map CleanFrame (normalize_dates lib rows)
                              | _ => None
                              end) ;;;
  (* 140-145 *) raw <- raw_rows df ;;
  cleaned <- clean_rows df_clean ;;
  ret (mkRun df df_clean assessment removed_duplicates
             (mkSummary (Z.of_nat (List.length raw)) (Z.of_nat (List.length cleaned))
                        (sum (isnull_sum raw)) (invalid_ages raw) (invalid_ratings raw))).

Close Scope script_scope.

(** ** Vocabulary of the statements *)

(** The rational a float cell stands for. *)
Definition value (c : option Qc) : option Q := option_map this c.

(** [0 <= age <= 120]; a comparison with NaN is false. *)
Definition age_in_range (c : option Qc) : Prop :=
  match c with
  | Some q => (of_int 0 <= q)%Qc /\ (q <= of_int 120)%Qc
  | None => False
  end.

(** Step 5 read row by row. *)
Definition normalize_row {A D : Type} (r : SurveyRecord A D) : SurveyRecord A D :=
  mkRecord (customer_id r) (strip_title (name r)) (age r) (strip_lower (email r))
           (survey_date r) (satisfaction_rating r) (strip_title (product_category r))
           (purchase_amount r) (maybe_to_no (strip_title (would_recommend r)))
           (str Text.strip (comments r)).

(** Steps 2 to 5 read row by row, given the two medians. *)
Definition clean_row (amount_median age_median : option Qc) (r : RawRecord) : AgedRecord :=
  mkRecord (customer_id r)
           (strip_title (fillna (Some "Unknown Customer") (name r)))
           (if (age r <? 0) || (120 <? age r) then age_median else Some (of_int (age r)))
           (strip_lower (fillna (Some "no_email@unknown.com") (email r)))
           (survey_date r)
           (if satisfaction_rating r <? 1 then 1
            else if 5 <? satisfaction_rating r then 5 else satisfaction_rating r)
           (strip_title (product_category r))
           (fillna amount_median (purchase_amount r))
           (maybe_to_no (strip_title (would_recommend r)))
           (str Text.strip (comments r)).

(** The cell [to_datetime] leaves for an outcome under [errors='coerce']. *)
Definition coerced (o : Dates.Outcome) : option Date :=
  match o with Dates.Stamp t => Some t | _ => None end.

(** A library that knows nothing beyond the numeric dates: used where a
    statement needs one concrete instance. *)
Definition numeric_only : Dates.Library :=
  Dates.mkLibrary unit (fun _ => None) (fun _ _ => None) (fun _ => None).

(** A frame with a single row, whose age is negative. *)
Definition one_negative_age : list RawRecord := [
  mkRecord 4 (Some "Alice Brown") (-5) (Some "alice@email.com") (Some "2024-01-17") 6
           (Some "home & garden") (float 450.00) (Some "NO") (Some "Poor delivery")
].

(** ** The duplicates mask (line 40) *)

(** [df.duplicated()] ([keep='first']): the mask that is true at the rows
    equal to an earlier row (line 40). *)
Fixpoint duplicated_from (seen rows : list RawRecord) : list bool :=
  match rows with
  | [] => []
  | r :: rest =>
      if existsb (row_eqb r) seen then true :: duplicated_from seen rest
      else false :: duplicated_from (r :: seen) rest
  end.

Definition duplicated (rows : list RawRecord) : list bool := duplicated_from [] rows.

(** Boolean indexing, [df[mask]]. *)
Fixpoint select {T : Type} (mask : list bool) (rows : list T) : list T :=
  match mask, rows with
  | b :: mask', r :: rows' => if b then r :: select mask' rows' else select mask' rows'
  | _, _ => []
  end.

(** ** [value_counts().sort_index()] (line 175) *)

(** One more occurrence of [k] in a table of counts kept in ascending
    order of the value. *)
Fixpoint add_count (k : Z) (counts : list (Z * Z)) : list (Z * Z) :=
  match counts with
  | [] => [(k, 1)]
  | (k', n) :: rest =>
      if k <? k' then (k, 1) :: counts
      else if k =? k' then (k', n + 1) :: rest
      else (k', n) :: add_count k rest
  end.

(** The distinct values of a column in ascending order, each with the
    number of its occurrences. *)
Definition value_counts_sort_index (col : list Z) : list (Z * Z) :=
  fold_right add_count [] col.

Definition rating_counts {A D : Type} (rows : list (SurveyRecord A D)) : list (Z * Z) :=
  value_counts_sort_index (map satisfaction_rating rows).

(** The count recorded for [k], 0 when [k] is not in the table. *)
Fixpoint get_count (k : Z) (counts : list (Z * Z)) : Z :=
  match counts with
  | [] => 0
  | (k', n) :: rest => (if k =? k' then n else 0) + get_count k rest
  end.

(** ** Shapes of text *)

Module Shape.

Fixpoint all_space (s : string) : bool :=
  match s with
  | EmptyString => true
  | String c s' => Text.is_space c && all_space s'
  end.

Definition starts_blank (s : string) : bool :=
  match s with
  | EmptyString => false
  | String c _ => Text.is_space c
  end.

Fixpoint ends_blank (s : string) : bool :=
  match s with
  | EmptyString => false
  | String c EmptyString => Text.is_space c
  | String _ s' => ends_blank s'
  end.

(** No blank at either end. *)
Definition trimmed (s : string) : bool := negb (starts_blank s) && negb (ends_blank s).

(** Title case: a letter is upper-case exactly when it does not follow a
    letter. The flag tells whether the previous character is a letter. *)
Fixpoint titled_from (after_letter : bool) (s : string) : bool :=
  match s with
  | EmptyString => true
  | String c s' =>
      if Text.is_lower c then after_letter && titled_from true s'
      else if Text.is_upper c then negb after_letter && titled_from true s'
      else titled_from false s'
  end.

Definition titled (s : string) : bool := titled_from false s.

Fixpoint no_upper (s : string) : bool :=
  match s with
  | EmptyString => true
  | String c s' => negb (Text.is_upper c) && no_upper s'
  end.

(** A property of the text of a cell; a missing cell has it. *)
Definition cell (p : string -> bool) (c : option string) : bool :=
  match c with Some s => p s | None => true end.

End Shape.

(** ** The same methods on Unicode text

    A Python [str] is a sequence of code points, and [str.strip],
    [str.lower] and [str.title] follow the Unicode character database.
    [Text] above is their restriction to ASCII text; this module gives
    them on code points, with the properties of the code points above 127
    taken from a table. *)

Module Unicode.

Definition text : Type := list N.

(** The Unicode character database for the code points above 127:
    [Cased], [Case_Ignorable], white space, and the full lower-case and
    title-case mappings (a code point can map to up to three). *)
Record Database : Type := mkDatabase {
  cased : N -> bool;
  case_ignorable : N -> bool;
  whitespace : N -> bool;
  lower_full : N -> list N;
  title_full : N -> list N
}.

Definition is_ascii (c : N) : bool := (c <? 128)%N.

Definition is_upper (c : N) : bool := ((65 <=? c) && (c <=? 90))%N.

Definition is_lower (c : N) : bool := ((97 <=? c) && (c <=? 122))%N.

Section Methods.
Variable db : Database.

Definition is_cased (c : N) : bool :=
  if is_ascii c then is_upper c || is_lower c else cased db c.

(** On ASCII: the apostrophe, the full stop, the colon, the circumflex
    and the grave accent. *)
Definition is_case_ignorable (c : N) : bool :=
  if is_ascii c then existsb (N.eqb c) [39; 46; 58; 94; 96]%N else case_ignorable db c.

Definition is_space (c : N) : bool :=
  if is_ascii c then ((9 <=? c) && (c <=? 13) || (28 <=? c) && (c <=? 32))%N
  else whitespace db c.

Definition to_lower_full (c : N) : list N :=
  if is_ascii c then [if is_upper c then (c + 32)%N else c] else lower_full db c.

Definition to_title_full (c : N) : list N :=
  if is_ascii c then [if is_lower c then (c - 32)%N else c] else title_full db c.

Fixpoint skip_ignorable (s : text) : text :=
  match s with
  | [] => []
  | c :: s' => if is_case_ignorable c then skip_ignorable s' else s
  end.

(** CPython's [handle_capital_sigma]: a capital sigma is final when a
    cased letter comes before it and none after it, case-ignorable code
    points apart. [before] holds the code points before it, the nearest
    first. *)
Definition final_sigma (before after : text) : bool :=
  match skip_ignorable before with
  | c :: _ =>
      is_cased c
      && match skip_ignorable after with
         | [] => true
         | d :: _ => negb (is_cased d)
         end
  | [] => false
  end.

(** CPython's [lower_ucs4]: the lower-case mapping of a code point in its
    place. *)
Definition lower_at (before : text) (c : N) (after : text) : list N :=
  if (c =? 931)%N then [if final_sigma before after then 962%N else 963%N]
  else to_lower_full c.

Fixpoint lower_from (before s : text) : text :=
  match s with
  | [] => []
  | c :: s' => (lower_at before c s' ++ lower_from (c :: before) s')%list
  end.

(** [str.lower()]. *)
Definition lower (s : text) : text := lower_from [] s.

(** CPython's [do_title]. *)
Fixpoint title_from (before : text) (previous_is_cased : bool) (s : text) : text :=
  match s with
  | [] => []
  | c :: s' =>
      ((if previous_is_cased then lower_at before c s' else to_title_full c)
       ++ title_from (c :: before) (is_cased c) s')%list
  end.

(** [str.title()]. *)
Definition title (s : text) : text := title_from [] false s.

Fixpoint lstrip (s : text) : text :=
  match s with
  | [] => []
  | c :: s' => if is_space c then lstrip s' else s
  end.

Fixpoint rstrip (s : text) : text :=
  match s with
  | [] => []
  | c :: s' =>
      let r := rstrip s' in
      if is_space c && match r with [] => true | _ :: _ => false end then [] else c :: r
  end.

(** [str.strip()] with no argument. *)
Definition strip (s : text) : text := rstrip (lstrip s).

(** Lines 109, 117 and 121, and line 113, on one cell. *)
Definition strip_title (c : option text) : option text :=
  option_map (fun s => title (strip s)) c.

Definition strip_lower (c : option text) : option text :=
  option_map (fun s => lower (strip s)) c.

End Methods.

Fixpoint text_eqb (s t : text) : bool :=
  match s, t with
  | [], [] => true
  | c :: s', d :: t' => (c =? d)%N && text_eqb s' t'
  | _, _ => false
  end.

(** The code points of an ASCII string. *)
Fixpoint code_points (s : string) : text :=
  match s with
  | EmptyString => []
  | String c s' => N_of_ascii c :: code_points s'
  end.

(** Line 123 on one cell. *)
Definition maybe_to_no (c : option text) : option text :=
  match c with
  | Some s => if text_eqb s (code_points "Maybe") then Some (code_points "No") else c
  | None => None
  end.

Fixpoint ascii_only (s : string) : bool :=
  match s with
  | EmptyString => true
  | String c s' => (N_of_ascii c <? 128)%N && ascii_only s'
  end.

(** An excerpt of the database: the white space above 127 (U+0085,
    U+00A0, U+1680, U+2000 to U+200A, U+2028, U+2029, U+202F, U+205F and
    U+3000), and the case entries of U+00DF (sharp s), U+0130 (capital I
    with dot above) and U+0307 (combining dot above); the other code
    points are left uncased here. *)
Definition excerpt : Database :=
  mkDatabase
    (fun c => (c =? 223)%N || (c =? 304)%N)
    (fun c => (c =? 775)%N)
    (fun c => existsb (N.eqb c) [133; 160; 5760; 8232; 8233; 8239; 8287; 12288]%N
              || ((8192 <=? c) && (c <=? 8202))%N)
    (fun c => if (c =? 304)%N then [105; 775]%N else [c])
    (fun c => if (c =? 223)%N then [83; 115]%N else [c]).

End Unicode.

(** A text cell as Python holds it, and the rows whose text is ASCII. *)
Definition code_points_of (c : option string) : option Unicode.text :=
  option_map Unicode.code_points c.

Definition ascii_cell (c : option string) : bool :=
  match c with Some s => Unicode.ascii_only s | None => true end.

Definition ascii_row {A D : Type} (r : SurveyRecord A D) : bool :=
  ascii_cell (name r) && ascii_cell (email r) && ascii_cell (product_category r)
  && ascii_cell (would_recommend r) && ascii_cell (comments r).

(** ** [Series.median()] in float64 arithmetic

    The mean of the two middle values is computed in floating point: the
    sum is rounded, and so is its half. [fl] is the rounding; the medians
    above are the case of exact arithmetic. *)

Definition mean2_with (fl : Qc -> Qc) (a b : Qc) : Qc := fl (fl (a + b) / Q2Qc 2)%Qc.

Definition middle_with (fl : Qc -> Qc) (s : list Qc) : option Qc :=
  let n := List.length s in
  if Nat.odd n then nth_error s (n / 2)
  else match nth_error s (n / 2 - 1), nth_error s (n / 2) with
       | Some a, Some b => Some (mean2_with fl a b)
       | _, _ => None
       end.

Definition median_values_with (fl : Qc -> Qc) (l : list Qc) : option Qc :=
  middle_with fl (sort_values l).

Definition median_with (fl : Qc -> Qc) (col : list (option Qc)) : option Qc :=
  median_values_with fl (dropna col).

(** What the statements need of the rounding: it is monotone, it leaves a
    representable value as it is, and the double of a representable value
    of magnitude up to [bound] is representable. For float64 with
    round-to-nearest, [bound] is [2^1023 - 2^970], half the largest finite
    value: up to there no sum of two values overflows. *)
Record Rounding (fl : Qc -> Qc) (bound : Qc) : Prop := mkRounding {
  fl_monotone : forall x y, (x <= y)%Qc -> (fl x <= fl y)%Qc;
  fl_idempotent : forall x, fl (fl x) = fl x;
  fl_double : forall x, (- bound <= x)%Qc -> (x <= bound)%Qc -> fl x = x ->
                        fl (x + x)%Qc = (x + x)%Qc
}.

(** A value the rounding leaves as it is, within the bound. *)
Definition representable (fl : Qc -> Qc) (bound q : Qc) : Prop :=
  fl q = q /\ (- bound <= q)%Qc /\ (q <= bound)%Qc.

(** Rounding to the nearest hundredth, halves upwards: a rounding on a
    grid that holds the amounts of the survey. *)
Definition round_to_cents (x : Qc) : Qc :=
  Q2Qc (inject_Z (Qfloor (x * Q2Qc 100 + Q2Qc (1 # 2))%Qc) / 100).

(** The six survey dates, all written [MM/DD/YYYY]. *)
Definition us_dated (rows : list RawRecord) : list RawRecord :=
  assign_dates rows [Some "01/15/2024"; Some "01/16/2024"; Some "01/15/2024";
                     Some "01/17/2024"; Some "01/17/2024"; Some "01/18/2024"].

(** * Properties *)

Open Scope list_scope.

(** ** Text *)

Module TextFacts.
Import Text.

Ltac each_char c := destruct c as [[] [] [] [] [] [] [] []]; try reflexivity; try discriminate.

Lemma to_lower_space c : is_space (to_lower c) = is_space c.
Proof. each_char c. Qed.

Lemma to_upper_space c : is_space (to_upper c) = is_space c.
Proof. each_char c. Qed.

Lemma to_lower_idem c : to_lower (to_lower c) = to_lower c.
Proof. each_char c. Qed.

Lemma lower_is_lower c : is_lower c = true -> is_upper c = false /\ is_upper (to_upper c) = true /\ is_lower (to_upper c) = false /\ to_lower c = c.
Proof. each_char c; intros _; repeat split. Qed.

Lemma upper_is_upper c : is_upper c = true -> is_lower c = false /\ is_lower (to_lower c) = true /\ to_upper c = c.
Proof. each_char c; intros _; repeat split. Qed.

Lemma lower_idem s : lower (lower s) = lower s.
Proof. induction s as [|c s IH]; simpl; [reflexivity|]. now rewrite to_lower_idem, IH. Qed.

Lemma title_from_idem s : forall p, title_from p (title_from p s) = title_from p s.
Proof.
  induction s as [|c s IH]; intros p; [reflexivity|].
  cbn [title_from].
  destruct (is_lower c) eqn:Hl.
  - destruct (lower_is_lower c Hl) as (Hu & Huu & Hlu & _).
    destruct p; cbn [title_from].
    + rewrite Hl, IH. reflexivity.
    + rewrite Hlu, Huu, IH. reflexivity.
  - destruct (is_upper c) eqn:Hu.
    + destruct (upper_is_upper c Hu) as (_ & Hll & _).
      destruct p; cbn [title_from].
      * rewrite Hll, IH. reflexivity.
      * rewrite Hl, Hu, IH. reflexivity.
    + cbn [title_from]. rewrite Hl, Hu, IH. reflexivity.
Qed.

Lemma lstrip_idem s : lstrip (lstrip s) = lstrip s.
Proof.
  induction s as [|c s IH]; [reflexivity|].
  cbn [lstrip]. destruct (is_space c) eqn:Hc; [exact IH|].
  cbn [lstrip]. now rewrite Hc.
Qed.

Lemma lstrip_head s :
  lstrip s = EmptyString \/ exists c t, lstrip s = String c t /\ is_space c = false.
Proof.
  induction s as [|c s IH]; [now left|].
  cbn [lstrip]. destruct (is_space c) eqn:Hc; [exact IH|].
  right. now exists c, s.
Qed.

Lemma rstrip_idem s : rstrip (rstrip s) = rstrip s.
Proof.
  induction s as [|c s IH]; [reflexivity|].
  cbn [rstrip]. destruct (is_space c && is_empty (rstrip s)) eqn:Hc; [reflexivity|].
  cbn [rstrip]. now rewrite IH, Hc.
Qed.

Lemma lstrip_rstrip_lstrip s : lstrip (rstrip (lstrip s)) = rstrip (lstrip s).
Proof.
  destruct (lstrip_head s) as [-> | (c & t & -> & Hc)]; [reflexivity|].
  cbn [rstrip]. rewrite Hc. cbn [andb lstrip]. now rewrite Hc.
Qed.

Lemma lstrip_strip s : lstrip (strip s) = strip s.
Proof. apply lstrip_rstrip_lstrip. Qed.

Lemma rstrip_strip s : rstrip (strip s) = strip s.
Proof. apply rstrip_idem. Qed.

Lemma strip_idem s : strip (strip s) = strip s.
Proof. unfold strip at 1. now rewrite lstrip_strip, rstrip_strip. Qed.

(** [str.title] and [str.lower] map blanks to blanks and the rest to the
    rest, so they commute with stripping. *)
Lemma title_from_empty p s : is_empty (title_from p s) = is_empty s.
Proof.
  destruct s as [|c s]; [reflexivity|]. cbn [title_from].
  destruct (is_lower c); [reflexivity|]. now destruct (is_upper c).
Qed.

Lemma rstrip_title_from s : forall p, rstrip (title_from p s) = title_from p (rstrip s).
Proof.
  induction s as [|c s IH]; intros p; [reflexivity|].
  cbn [title_from rstrip].
  destruct (is_lower c) eqn:Hl; [|destruct (is_upper c) eqn:Hu];
    cbn [rstrip]; rewrite IH, title_from_empty.
  - replace (is_space (if p then c else to_upper c)) with (is_space c)
      by (destruct p; [reflexivity | now rewrite to_upper_space]).
    destruct (is_space c && is_empty (rstrip s)); [reflexivity|].
    cbn [title_from]. now rewrite Hl.
  - replace (is_space (if p then to_lower c else c)) with (is_space c)
      by (destruct p; [now rewrite to_lower_space | reflexivity]).
    destruct (is_space c && is_empty (rstrip s)); [reflexivity|].
    cbn [title_from]. now rewrite Hl, Hu.
  - destruct (is_space c && is_empty (rstrip s)); [reflexivity|].
    cbn [title_from]. now rewrite Hl, Hu.
Qed.

Lemma lstrip_title_from p s : lstrip s = s -> lstrip (title_from p s) = title_from p s.
Proof.
  intros Hs. destruct (lstrip_head s) as [H | (c & t & H & Hc)]; rewrite Hs in H; subst s;
    [reflexivity|].
  cbn [title_from].
  destruct (is_lower c); [|destruct (is_upper c)]; cbn [lstrip].
  - destruct p; [now rewrite Hc | now rewrite to_upper_space, Hc].
  - destruct p; [now rewrite to_lower_space, Hc | now rewrite Hc].
  - now rewrite Hc.
Qed.

Lemma strip_title_strip s : strip (title (strip s)) = title (strip s).
Proof.
  unfold strip at 1, title.
  rewrite lstrip_title_from by apply lstrip_strip.
  now rewrite rstrip_title_from, rstrip_strip.
Qed.

Lemma lower_empty s : is_empty (lower s) = is_empty s.
Proof. now destruct s. Qed.

Lemma rstrip_lower s : rstrip (lower s) = lower (rstrip s).
Proof.
  induction s as [|c s IH]; [reflexivity|].
  cbn [lower rstrip]. rewrite IH, lower_empty, to_lower_space.
  now destruct (is_space c && is_empty (rstrip s)).
Qed.

Lemma lstrip_lower s : lstrip s = s -> lstrip (lower s) = lower s.
Proof.
  intros Hs. destruct (lstrip_head s) as [H | (c & t & H & Hc)]; rewrite Hs in H; subst s;
    [reflexivity|].
  cbn [lower lstrip]. now rewrite to_lower_space, Hc.
Qed.

Lemma strip_lower_strip s : strip (lower (strip s)) = lower (strip s).
Proof.
  unfold strip at 1.
  rewrite lstrip_lower by apply lstrip_strip.
  now rewrite rstrip_lower, rstrip_strip.
Qed.

Lemma title_idem s : title (title s) = title s.
Proof. apply title_from_idem. Qed.

End TextFacts.

(** ** Cell-level normalisation *)

Lemma strip_title_idem c : strip_title (strip_title c) = strip_title c.
Proof.
  destruct c as [s|]; [|reflexivity]. unfold strip_title, str. cbn [option_map].
  now rewrite TextFacts.strip_title_strip, TextFacts.title_idem.
Qed.

Lemma strip_lower_idem c : strip_lower (strip_lower c) = strip_lower c.
Proof.
  destruct c as [s|]; [|reflexivity]. unfold strip_lower, str. cbn [option_map].
  now rewrite TextFacts.strip_lower_strip, TextFacts.lower_idem.
Qed.

Lemma strip_idem_cell c : str Text.strip (str Text.strip c) = str Text.strip c.
Proof. destruct c as [s|]; [|reflexivity]. cbn. now rewrite TextFacts.strip_idem. Qed.

Lemma maybe_to_no_spec c :
  (c = Some "Maybe" /\ maybe_to_no c = Some "No") \/ (c <> Some "Maybe" /\ maybe_to_no c = c).
Proof.
  unfold maybe_to_no. destruct c as [s|]; cbn [option_eqb].
  - destruct (String.eqb_spec s "Maybe") as [-> | Hne]; [now left|].
    right. split; [congruence | reflexivity].
  - right. split; [discriminate | reflexivity].
Qed.

Lemma recommend_idem c :
  maybe_to_no (strip_title (maybe_to_no (strip_title c))) = maybe_to_no (strip_title c).
Proof.
  destruct (maybe_to_no_spec (strip_title c)) as [[_ H] | [_ H]]; rewrite H.
  - reflexivity.
  - rewrite strip_title_idem. exact H.
Qed.

(** ** Frames row by row *)

Lemma normalize_text_rowwise {A D : Type} (rows : list (SurveyRecord A D)) :
  normalize_text rows = map normalize_row rows.
Proof.
  unfold normalize_text. rewrite !map_map. apply map_ext. intros r. reflexivity.
Qed.

Lemma normalize_row_idem {A D : Type} (r : SurveyRecord A D) :
  normalize_row (normalize_row r) = normalize_row r.
Proof.
  unfold normalize_row. cbn.
  now rewrite !strip_title_idem, strip_lower_idem, recommend_idem, strip_idem_cell.
Qed.

(** In the embedding of text, step 5 applied to its own result changes
    nothing. *)
Lemma normalize_text_idem {A D : Type} (rows : list (SurveyRecord A D)) :
  normalize_text (normalize_text rows) = normalize_text rows.
Proof.
  rewrite !normalize_text_rowwise, map_map. apply map_ext. intros r.
  apply normalize_row_idem.
Qed.

Lemma of_int_leb a b : Qc_leb (of_int a) (of_int b) = (a <=? b).
Proof.
  unfold Qc_leb, of_int. cbn [this Q2Qc].
  apply eq_true_iff_eq. rewrite Qle_bool_iff, !Qred_correct, <- Zle_Qle.
  symmetry. apply Z.leb_le.
Qed.

Lemma float_gt_of_int a b : float_gt (Some (of_int a)) b = (b <? a).
Proof. unfold float_gt. rewrite of_int_leb. symmetry. apply Z.ltb_antisym. Qed.

Lemma valid_ages_map {D : Type} (f : SurveyRecord Z D -> SurveyRecord Z D) rows :
  (forall r, age (f r) = age r) -> valid_ages (map f rows) = valid_ages rows.
Proof.
  intros Hf. unfold valid_ages.
  induction rows as [|r rows IH]; [reflexivity|].
  cbn [map filter]. rewrite Hf.
  destruct ((0 <=? age r) && (age r <=? 120)); cbn [map]; now rewrite ?Hf, IH.
Qed.

Lemma handle_missing_ages {D : Type} (rows : list (SurveyRecord Z D)) :
  valid_ages (handle_missing rows) = valid_ages rows.
Proof.
  unfold handle_missing, fill_email, fill_name, fill_purchase_amount.
  now rewrite !valid_ages_map by reflexivity.
Qed.

Lemma handle_missing_median_amount {A D : Type} (rows : list (SurveyRecord A D)) :
  handle_missing rows
  = map (fun r => set_email (set_name (set_purchase_amount r
            (fillna (median_amount rows) (purchase_amount r)))
            (fillna (Some "Unknown Customer") (name r)))
            (fillna (Some "no_email@unknown.com") (email r))) rows.
Proof.
  unfold handle_missing, fill_email, fill_name, fill_purchase_amount.
  rewrite !map_map. apply map_ext. intros r. reflexivity.
Qed.

Lemma clean_before_dates_rowwise rows :
  let kept := drop_duplicates rows in
  clean_before_dates rows = map (clean_row (median_amount kept) (median_age kept)) kept.
Proof.
  intros kept. unfold clean_before_dates. fold kept.
  rewrite normalize_text_rowwise. unfold clamp_ratings, repair_ages.
  unfold median_age at 1 2. rewrite handle_missing_ages. fold (median_age kept).
  unfold replace_large_ages, replace_negative_ages.
  rewrite handle_missing_median_amount, !map_map. apply map_ext. intros r.
  destruct r as [cid nm ag em sd rt pc pa wr cm].
  unfold clean_row, normalize_row. cbn.
  assert (Hage : (if float_gt (if ag <? 0 then median_age kept else Some (of_int ag)) 120
                  then median_age kept
                  else if ag <? 0 then median_age kept else Some (of_int ag))
                 = (if (ag <? 0) || (120 <? ag) then median_age kept else Some (of_int ag))).
  { destruct (ag <? 0) eqn:Hneg; cbn [orb].
    - now destruct (float_gt (median_age kept) 120).
    - now rewrite float_gt_of_int. }
  destruct (rt <? 1) eqn:H1; cbn.
  - rewrite Hage. reflexivity.
  - destruct (5 <? rt) eqn:H5; cbn; rewrite Hage; reflexivity.
Qed.

(** ** [errors='coerce'] never raises *)

Lemma apply_policy_coerce outcomes :
  Dates.apply_policy Dates.Coerce outcomes = Some (map coerced outcomes).
Proof.
  induction outcomes as [|o outcomes IH]; [reflexivity|].
  cbn [Dates.apply_policy map]. rewrite IH. now destruct o.
Qed.

Lemma parse_column_length lib col :
  List.length (Dates.parse_column lib col) = List.length col.
Proof.
  unfold Dates.parse_column.
  destruct (Dates.first_non_null col) as [s|]; [|apply length_map].
  destruct (Dates.guess_datetime_format lib s); apply length_map.
Qed.

Lemma to_datetime_coerce lib col :
  Dates.to_datetime lib Dates.Coerce col = Some (map coerced (Dates.parse_column lib col)).
Proof. apply apply_policy_coerce. Qed.

Lemma assign_dates_map {A D E : Type} (f : RawRecord -> SurveyRecord A D)
    (rows : list RawRecord) : forall col : list E,
  List.length col = List.length rows ->
  Forall2 (fun r c => exists t, c = set_survey_date (f r) t)
          rows (assign_dates (map f rows) col).
Proof.
  induction rows as [|r rows IH]; intros [|t col] Hlen; try discriminate Hlen.
  - constructor.
  - cbn [map assign_dates]. constructor; [now exists t|].
    apply IH. now injection Hlen.
Qed.

(** The cleaned frame holds one row for each row kept by step 1, in the
    same order: that row cleaned by steps 2 to 5, with its date cell
    replaced by step 6. *)
Lemma pipeline_rows lib rows :
  let kept := drop_duplicates rows in
  exists out,
    cleaning_pipeline lib rows = Some out
    /\ Forall2 (fun r c => exists t,
                  c = set_survey_date (clean_row (median_amount kept) (median_age kept) r) t)
               kept out.
Proof.
  intros kept. unfold cleaning_pipeline, normalize_dates.
  rewrite to_datetime_coerce, clean_before_dates_rowwise. fold kept.
  eexists. split; [reflexivity|].
  apply assign_dates_map.
  now rewrite length_map, parse_column_length, !length_map.
Qed.

Lemma Forall2_Forall_r {T U : Type} (R : T -> U -> Prop) (P : U -> Prop) l l' :
  Forall2 R l l' -> (forall x y, R x y -> P y) -> Forall P l'.
Proof. induction 1; intros HP; constructor; eauto. Qed.

(** ** Row equality is equality of all ten fields *)

Lemma Qc_eqb_eq (a b : Qc) : Qc_eqb a b = true <-> a = b.
Proof.
  unfold Qc_eqb. rewrite Qeq_bool_iff. split.
  - apply Qc_is_canon.
  - now intros ->.
Qed.

Lemma option_eqb_eq {T : Type} (eqb : T -> T -> bool) :
  (forall x y, eqb x y = true <-> x = y) ->
  forall a b, option_eqb eqb a b = true <-> a = b.
Proof.
  intros H [x|] [y|]; cbn; try (split; [discriminate | discriminate]); try tauto.
  rewrite H. split; [now intros -> | now intros [= ->]].
Qed.

Lemma row_eqb_eq (r1 r2 : RawRecord) : row_eqb r1 r2 = true <-> r1 = r2.
Proof.
  destruct r1, r2. unfold row_eqb. cbn.
  rewrite !andb_true_iff, !Z.eqb_eq, !(option_eqb_eq String.eqb String.eqb_eq),
    (option_eqb_eq Qc_eqb Qc_eqb_eq).
  split.
  - intros (((((((((-> & ->) & ->) & ->) & ->) & ->) & ->) & ->) & ->) & ->). reflexivity.
  - intros [= -> -> -> -> -> -> -> -> -> ->]. tauto.
Qed.

Lemma seen_In r seen : existsb (row_eqb r) seen = true <-> In r seen.
Proof.
  rewrite existsb_exists. split.
  - intros (x & Hx & He). apply row_eqb_eq in He. now subst.
  - intros H. exists r. split; [exact H | now apply row_eqb_eq].
Qed.

Lemma seen_not_In r seen : existsb (row_eqb r) seen = false <-> ~ In r seen.
Proof. rewrite <- seen_In. now destruct (existsb (row_eqb r) seen). Qed.

(** ** [drop_duplicates] *)

Lemma drop_from_In rows : forall seen x,
  In x (drop_duplicates_from seen rows) <-> In x rows /\ ~ In x seen.
Proof.
  induction rows as [|r rows IH]; intros seen x; cbn [drop_duplicates_from].
  - cbn. tauto.
  - destruct (existsb (row_eqb r) seen) eqn:Hs.
    + apply seen_In in Hs. rewrite IH. cbn. intuition (subst; tauto).
    + apply seen_not_In in Hs. cbn [In]. rewrite IH. cbn.
      destruct (row_eqb r x) eqn:He.
      * apply row_eqb_eq in He. subst x. tauto.
      * assert (r <> x) by (intros E; apply row_eqb_eq in E; congruence). tauto.
Qed.

Lemma drop_from_NoDup rows : forall seen, NoDup (drop_duplicates_from seen rows).
Proof.
  induction rows as [|r rows IH]; intros seen; cbn [drop_duplicates_from].
  - constructor.
  - destruct (existsb (row_eqb r) seen); [apply IH|].
    constructor; [|apply IH].
    rewrite drop_from_In. cbn. tauto.
Qed.

Lemma drop_from_same_seen rows : forall s1 s2,
  (forall x, In x s1 <-> In x s2) ->
  drop_duplicates_from s1 rows = drop_duplicates_from s2 rows.
Proof.
  induction rows as [|r rows IH]; intros s1 s2 H; [reflexivity|].
  cbn [drop_duplicates_from].
  assert (He : existsb (row_eqb r) s1 = existsb (row_eqb r) s2).
  { apply eq_true_iff_eq. rewrite !seen_In. apply H. }
  rewrite He. destruct (existsb (row_eqb r) s2).
  - now apply IH.
  - f_equal. apply IH. intros x. cbn. now rewrite H.
Qed.

Lemma drop_from_app l1 : forall seen l2,
  drop_duplicates_from seen (l1 ++ l2)
  = drop_duplicates_from seen l1 ++ drop_duplicates_from (l1 ++ seen) l2.
Proof.
  induction l1 as [|r l1 IH]; intros seen l2; [reflexivity|].
  cbn [app drop_duplicates_from].
  destruct (existsb (row_eqb r) seen) eqn:Hs.
  - rewrite IH. f_equal. apply drop_from_same_seen. intros x.
    apply seen_In in Hs. rewrite !in_app_iff. cbn. rewrite in_app_iff.
    intuition (subst; tauto).
  - rewrite IH. cbn [app]. do 2 f_equal. apply drop_from_same_seen. intros x.
    rewrite !in_app_iff. cbn. rewrite in_app_iff. tauto.
Qed.

Lemma filter_twice {T : Type} (f g : T -> bool) l :
  filter f (filter g l) = filter (fun x => g x && f x) l.
Proof.
  induction l as [|x l IH]; [reflexivity|].
  cbn [filter]. destruct (g x); cbn [filter andb]; [|exact IH].
  destruct (f x); now rewrite IH.
Qed.

Lemma drop_from_filter rows : forall seen,
  drop_duplicates_from seen rows
  = filter (fun x => negb (existsb (row_eqb x) seen)) (drop_duplicates rows).
Proof.
  unfold drop_duplicates.
  induction rows as [|r rows IH]; intros seen; [reflexivity|].
  cbn [drop_duplicates_from existsb filter].
  rewrite (IH [r]), (IH seen), (IH (r :: seen)).
  destruct (existsb (row_eqb r) seen) eqn:Hs; cbn [negb].
  - rewrite filter_twice. apply filter_ext. intros x.
    cbn [existsb]. rewrite orb_false_r.
    destruct (row_eqb x r) eqn:Hx; cbn; [|reflexivity].
    apply row_eqb_eq in Hx. subst x. now rewrite Hs.
  - f_equal. rewrite filter_twice. apply filter_ext. intros x.
    cbn [existsb]. rewrite orb_false_r, negb_orb. reflexivity.
Qed.

Lemma first_occurrence_kept before r after :
  ~ In r before ->
  drop_duplicates (before ++ r :: after)
  = drop_duplicates before
    ++ r :: filter (fun x => negb (existsb (row_eqb x) (r :: before)))
                   (drop_duplicates after).
Proof.
  intros Hr. unfold drop_duplicates at 1. rewrite drop_from_app, app_nil_r.
  fold (drop_duplicates before). f_equal.
  cbn [drop_duplicates_from].
  apply seen_not_In in Hr. rewrite Hr. f_equal. apply drop_from_filter.
Qed.

Lemma later_duplicate_dropped before r after :
  In r before ->
  drop_duplicates (before ++ r :: after) = drop_duplicates (before ++ after).
Proof.
  intros Hr. unfold drop_duplicates. rewrite !drop_from_app. f_equal.
  cbn [drop_duplicates_from]. rewrite app_nil_r.
  apply seen_In in Hr. now rewrite Hr.
Qed.

Lemma NoDup_one_match r l :
  NoDup l -> In r l -> List.length (filter (row_eqb r) l) = 1%nat.
Proof.
  induction 1 as [|x l Hx Hl IH]; intros Hin; [contradiction|].
  cbn [filter]. destruct Hin as [-> | Hin].
  - replace (row_eqb r r) with true by (symmetry; now apply row_eqb_eq).
    cbn [List.length]. f_equal.
    rewrite (proj2 (List.length_zero_iff_nil _)); [reflexivity|].
    destruct (filter (row_eqb r) l) as [|y ys] eqn:Hf; [reflexivity|].
    assert (Hy : In y (filter (row_eqb r) l)) by (rewrite Hf; now left).
    apply filter_In in Hy. destruct Hy as [Hy He]. apply row_eqb_eq in He. now subst.
  - destruct (row_eqb r x) eqn:He; [|now apply IH].
    apply row_eqb_eq in He. now subst.
Qed.

(** ** The median lies among the values *)

Section MedianFacts.
Variable P : Qc -> Prop.
Hypothesis P_mean2 : forall a b, P a -> P b -> P (mean2 a b).

Lemma insert_sorted_length x l :
  List.length (insert_sorted x l) = S (List.length l).
Proof.
  induction l as [|y l IH]; [reflexivity|].
  cbn [insert_sorted]. destruct (Qc_leb x y); cbn [List.length]; now rewrite ?IH.
Qed.

Lemma sort_values_length l : List.length (sort_values l) = List.length l.
Proof.
  induction l as [|x l IH]; [reflexivity|].
  cbn [sort_values fold_right]. fold (sort_values l).
  now rewrite insert_sorted_length, IH.
Qed.

Lemma insert_sorted_Forall x l : P x -> Forall P l -> Forall P (insert_sorted x l).
Proof.
  intros Hx. induction 1 as [|y l Hy Hl IH]; cbn [insert_sorted].
  - now constructor.
  - destruct (Qc_leb x y); repeat constructor; assumption.
Qed.

Lemma sort_values_Forall l : Forall P l -> Forall P (sort_values l).
Proof.
  induction 1 as [|x l Hx Hl IH]; [constructor|].
  cbn [sort_values fold_right]. now apply insert_sorted_Forall.
Qed.

Lemma nth_error_Forall (l : list Qc) n :
  (n < List.length l)%nat -> Forall P l -> exists x, nth_error l n = Some x /\ P x.
Proof.
  intros Hn Hl. destruct (nth_error l n) as [x|] eqn:Hx.
  - exists x. split; [reflexivity|].
    rewrite Forall_forall in Hl. apply Hl. eapply nth_error_In; eassumption.
  - apply nth_error_None in Hx. lia.
Qed.

Lemma middle_Forall s :
  s <> [] -> Forall P s -> exists m, middle s = Some m /\ P m.
Proof.
  intros Hne Hs. unfold middle.
  assert (Hlen : (0 < List.length s)%nat) by (destruct s; [congruence | cbn; lia]).
  destruct (Nat.odd (List.length s)) eqn:Hodd.
  - apply nth_error_Forall; [|exact Hs]. apply Nat.div_lt; lia.
  - assert (H2 : (2 <= List.length s)%nat).
    { destruct (List.length s) as [|[|n]]; [lia | discriminate Hodd | lia]. }
    destruct (nth_error_Forall s (List.length s / 2 - 1)) as (a & -> & Ha);
      [pose proof (Nat.div_lt (List.length s) 2); lia | exact Hs |].
    destruct (nth_error_Forall s (List.length s / 2)) as (b & -> & Hb);
      [apply Nat.div_lt; lia | exact Hs |].
    eauto.
Qed.

Lemma median_values_Forall l :
  l <> [] -> Forall P l -> exists m, median_values l = Some m /\ P m.
Proof.
  intros Hne Hl. unfold median_values. apply middle_Forall.
  - intros E. apply (f_equal (@List.length Qc)) in E.
    rewrite sort_values_length in E. destruct l; [congruence | discriminate E].
  - now apply sort_values_Forall.
Qed.
End MedianFacts.

Lemma median_values_nil : median_values [] = None.
Proof. reflexivity. Qed.

Lemma of_int_le a b : a <= b <-> (of_int a <= of_int b)%Qc.
Proof.
  unfold Qcle, of_int. cbn [this Q2Qc]. rewrite !Qred_correct, <- Zle_Qle. reflexivity.
Qed.

Lemma mean2_between (lo hi a b : Qc) :
  (lo <= a <= hi)%Qc -> (lo <= b <= hi)%Qc -> (lo <= mean2 a b <= hi)%Qc.
Proof.
  unfold Qcle, mean2, Qcdiv, Qcmult, Qcplus, Qcinv. cbn [this Q2Qc].
  rewrite !Qred_correct.
  intros [Ha1 Ha2] [Hb1 Hb2].
  setoid_replace (/ Qred 2)%Q with (1 # 2)%Q by reflexivity.
  split; lra.
Qed.

(** ** Dates *)

Module DateFacts.
Import Dates.

Ltac each_digit k :=
  let H := fresh in
  assert (H : k = 0 \/ k = 1 \/ k = 2 \/ k = 3 \/ k = 4 \/ k = 5 \/ k = 6 \/ k = 7
              \/ k = 8 \/ k = 9) by lia;
  repeat (destruct H as [H | H]; [subst k |]); [.. | subst k].

Lemma digit_char_spec n :
  is_digit (digit_char n) = true /\ digit_value (digit_char n) = n mod 10.
Proof.
  unfold digit_char. pose proof (Z.mod_pos_bound n 10 eq_refl) as Hk.
  remember (n mod 10) as k eqn:Ek. clear Ek.
  each_digit k; split; reflexivity.
Qed.

Lemma digit_char_digit n : is_digit (digit_char n) = true.
Proof. apply digit_char_spec. Qed.

Lemma digit_char_value n : digit_value (digit_char n) = n mod 10.
Proof. apply digit_char_spec. Qed.

Lemma span_digits_stops s : stops s = true -> span_digits s = (EmptyString, s).
Proof.
  destruct s as [|c s]; [reflexivity|]. cbn [stops span_digits].
  now destruct (is_digit c).
Qed.

Lemma four_digits y :
  0 <= y <= 9999 ->
  1000 * ((y / 1000) mod 10) + 100 * ((y / 100) mod 10) + 10 * ((y / 10) mod 10) + y mod 10
  = y.
Proof. intros Hy. Z.div_mod_to_equations. lia. Qed.

Lemma two_digits_value n : 0 <= n <= 99 -> 10 * ((n / 10) mod 10) + n mod 10 = n.
Proof. intros Hn. Z.div_mod_to_equations. lia. Qed.

Lemma match_Y_pad4 y rest :
  0 <= y <= 9999 -> match_Y (pad4 y ++ rest)%string = [(y, rest)].
Proof.
  intros Hy. unfold pad4, pad2. cbn [append match_Y].
  rewrite !digit_char_digit, !digit_char_value. cbn [andb].
  now rewrite four_digits.
Qed.

Lemma span_digits_pad4 y rest :
  stops rest = true -> span_digits (pad4 y ++ rest)%string = (pad4 y, rest).
Proof.
  intros Hs. unfold pad4, pad2. cbn [append span_digits].
  now rewrite !digit_char_digit, (span_digits_stops rest Hs).
Qed.

Lemma span_digits_pad2 n rest :
  stops rest = true -> span_digits (pad2 n ++ rest)%string = (pad2 n, rest).
Proof.
  intros Hs. unfold pad2. cbn [append span_digits].
  now rewrite !digit_char_digit, (span_digits_stops rest Hs).
Qed.

Lemma number_pad4 y : 0 <= y <= 9999 -> number 0 (pad4 y) = y.
Proof.
  intros Hy. unfold pad4, pad2. cbn [number]. rewrite !digit_char_value.
  rewrite <- (four_digits y Hy) at 5. ring.
Qed.

Lemma number_pad2 n : 0 <= n <= 99 -> number 0 (pad2 n) = n.
Proof.
  intros Hn. unfold pad2. cbn [number]. rewrite !digit_char_value.
  rewrite <- (two_digits_value n Hn) at 3. ring.
Qed.


Lemma range_from_cases (P : Z -> Prop) n : forall lo,
  Forall P (range_from lo n) -> forall x, lo <= x < lo + Z.of_nat n -> P x.
Proof.
  induction n as [|n IH]; intros lo HP x Hx; [lia|].
  cbn [range_from] in HP. inversion HP as [|y l Hy Hl]; subst.
  destruct (Z.eq_dec x lo) as [-> | Hne]; [exact Hy|].
  apply (IH (lo + 1)); [exact Hl | lia].
Qed.

(** A month, or a day, followed by a separator: the only alternative that
    goes through is the one reading both digits. *)
Lemma match_m_then_sep {T : Type} m :
  1 <= m <= 12 ->
  forall c s (k : Z -> unit -> string -> Alternatives T),
    and_then (match_m (pad2 m ++ s)%string)
             (fun v s' => and_then (match_sep c s') (k v))
    = and_then (match_sep c s) (k m).
Proof.
  intros Hm. pattern m. apply (range_from_cases _ 12 1); [|cbn; lia].
  repeat constructor; intros c s k; destruct c; cbn; now rewrite app_nil_r.
Qed.

Lemma match_d_then_sep {T : Type} d :
  1 <= d <= 31 ->
  forall c s (k : Z -> unit -> string -> Alternatives T),
    and_then (match_d (pad2 d ++ s)%string)
             (fun v s' => and_then (match_sep c s') (k v))
    = and_then (match_sep c s) (k d).
Proof.
  intros Hd. pattern d. apply (range_from_cases _ 31 1); [|cbn; lia].
  repeat constructor; intros c s k; destruct c; cbn; now rewrite ?app_nil_r.
Qed.

Lemma match_d_last d :
  1 <= d <= 31 -> exists others, match_d (pad2 d) = (d, EmptyString) :: others.
Proof.
  intros Hd. pattern d. apply (range_from_cases _ 31 1); [|cbn; lia].
  repeat constructor; eexists; reflexivity.
Qed.

Lemma match_sep_char {T : Type} c s (k : unit -> string -> Alternatives T) :
  and_then (match_sep c (String (sep_char c) s)) k = (k tt s ++ [])%list.
Proof. destruct c; reflexivity. Qed.


Lemma append_empty (s : string) : (s ++ "")%string = s.
Proof. induction s as [|c s IH]; cbn; [reflexivity | now rewrite IH]. Qed.

Lemma and_then_one {T U : Type} (v : T) (s : string) (k : T -> string -> Alternatives U) :
  and_then [(v, s)] k = (k v s ++ [])%list.
Proof. reflexivity. Qed.

(** A date written in a format reads back in that format, field by field. *)
Lemma strptime_strftime l c y m d :
  0 <= y <= 9999 -> 1 <= m <= 12 -> 1 <= d <= 31 ->
  strptime (mkFormat l c) (strftime (mkFormat l c) (mkDate y m d)) = make_timestamp y m d.
Proof.
  intros Hy Hm Hd. unfold strptime, strftime, regex_match.
  cbn [layout sep year month day]. destruct l.
  - rewrite match_Y_pad4, and_then_one by exact Hy. cbn [append].
    rewrite match_sep_char.
    rewrite (match_m_then_sep m Hm c _
               (fun m _ s => and_then (match_d s) (fun d s => [((y, m, d), s)]))).
    rewrite match_sep_char.
    destruct (match_d_last d Hd) as (others & ->). reflexivity.
  - rewrite (match_m_then_sep m Hm c _
               (fun m _ s => and_then (match_d s) (fun d s =>
                 and_then (match_sep c s) (fun _ s =>
                 and_then (match_Y s) (fun y s => [((y, m, d), s)]))))).
    cbn [append]. rewrite match_sep_char.
    rewrite (match_d_then_sep d Hd c _
               (fun d _ s => and_then (match_Y s) (fun y s => [((y, m, d), s)]))).
    rewrite match_sep_char.
    rewrite <- (append_empty (pad4 y)).
    rewrite match_Y_pad4 by exact Hy. reflexivity.
  - rewrite (match_d_then_sep d Hd c _
               (fun d _ s => and_then (match_m s) (fun m s =>
                 and_then (match_sep c s) (fun _ s =>
                 and_then (match_Y s) (fun y s => [((y, m, d), s)]))))).
    cbn [append]. rewrite match_sep_char.
    rewrite (match_m_then_sep m Hm c _
               (fun m _ s => and_then (match_Y s) (fun y s => [((y, m, d), s)]))).
    rewrite match_sep_char.
    rewrite <- (append_empty (pad4 y)).
    rewrite match_Y_pad4 by exact Hy. reflexivity.
Qed.


Lemma stops_sep c s : stops (String (sep_char c) s) = true.
Proof. now destruct c. Qed.

Lemma sep_of_char c : sep_of (sep_char c) = Some c.
Proof. now destruct c. Qed.

Lemma sep_eqb_refl c : sep_eqb c c = true.
Proof. now destruct c. Qed.

Lemma length_pad4 y : String.length (pad4 y) = 4%nat.
Proof. reflexivity. Qed.

Lemma length_pad2 n : String.length (pad2 n) = 2%nat.
Proof. reflexivity. Qed.

(** How the lexer reads a date written in a numeric format. *)
Lemma numeric_date_strftime l c y m d :
  0 <= y <= 9999 -> 0 <= m <= 99 -> 0 <= d <= 99 ->
  numeric_date (strftime (mkFormat l c) (mkDate y m d))
  = Some (match l with
          | YMD => YearFirst c y m d
          | MDY => YearLast c m d y
          | DMY => YearLast c d m y
          end).
Proof.
  intros Hy Hm Hd. unfold numeric_date, split_numeric, strftime.
  cbn [layout sep year month day]. destruct l; cbn [append].
  - rewrite span_digits_pad4 by apply stops_sep.
    rewrite span_digits_pad2 by apply stops_sep.
    rewrite <- (append_empty (pad2 d)), span_digits_pad2 by reflexivity.
    rewrite ?append_empty, sep_of_char, sep_eqb_refl.
    unfold short. rewrite !length_pad4, !length_pad2. cbn [Nat.eqb Nat.leb andb].
    now rewrite number_pad4, !number_pad2.
  - rewrite !span_digits_pad2 by apply stops_sep.
    rewrite <- (append_empty (pad4 y)), span_digits_pad4 by reflexivity.
    rewrite ?append_empty, sep_of_char, sep_eqb_refl.
    unfold short. rewrite !length_pad4, !length_pad2. cbn [Nat.eqb Nat.leb andb].
    now rewrite number_pad4, !number_pad2.
  - rewrite !span_digits_pad2 by apply stops_sep.
    rewrite <- (append_empty (pad4 y)), span_digits_pad4 by reflexivity.
    rewrite ?append_empty, sep_of_char, sep_eqb_refl.
    unfold short. rewrite !length_pad4, !length_pad2. cbn [Nat.eqb Nat.leb andb].
    now rewrite number_pad4, !number_pad2.
Qed.

Lemma is_timestamp_fields t :
  is_timestamp t = true ->
  1 <= year t <= 9999 /\ 1 <= month t <= 12 /\ 1 <= day t <= 31
  /\ make_timestamp (year t) (month t) (day t) = Some t.
Proof.
  destruct t as [y m d]. unfold is_timestamp, make_timestamp. cbn [year month day].
  intros H. rewrite H. apply andb_true_iff in H. destruct H as [Hv _].
  unfold valid_date in Hv. rewrite !andb_true_iff, !Z.leb_le in Hv.
  assert (days_in_month y m <= 31).
  { unfold days_in_month. destruct (m =? 2); [destruct (is_leap y); lia|].
    destruct ((m =? 4) || (m =? 6) || (m =? 9) || (m =? 11)); lia. }
  repeat split; try lia.
Qed.

(** A date written with its year first, or with its month first, or with
    a day above 12 first, is guessed in the format it was written in. *)
Lemma guess_numeric_strftime f t :
  is_timestamp t = true ->
  (layout f = DMY -> 12 < day t) ->
  exists n, numeric_date (strftime f t) = Some n /\ guess_numeric n = Some f.
Proof.
  intros Ht Hday. destruct (is_timestamp_fields t Ht) as (Hy & Hm & Hd & Hts).
  destruct t as [y m d], f as [l c]. cbn [year month day layout] in *.
  rewrite numeric_date_strftime by lia. eexists. split; [reflexivity|].
  unfold guess_numeric. destruct l; cbn [resolve_ymd sep_used].
  - now rewrite Hts.
  - destruct (Z.ltb_spec 12 m); [lia|]. now rewrite Hts.
  - destruct (Z.ltb_spec 12 d); [|specialize (Hday eq_refl); lia]. now rewrite Hts.
Qed.

Lemma first_char_digit f t :
  exists c s, strftime f t = String c s /\ is_digit c = true.
Proof.
  destruct f as [[] c]; unfold strftime, pad4, pad2; cbn [layout append];
    eexists _, _; (split; [reflexivity | apply digit_char_digit]).
Qed.

Lemma digit_led_plain c s :
  is_digit c = true -> is_null (Some (String c s)) = false /\ is_now_today (String c s) = false.
Proof.
  destruct c as [[] [] [] [] [] [] [] []]; try discriminate; intros _; split; reflexivity.
Qed.

Lemma strftime_plain f t :
  is_null (Some (strftime f t)) = false /\ is_now_today (strftime f t) = false.
Proof.
  destruct (first_char_digit f t) as (c & s & -> & Hc). now apply digit_led_plain.
Qed.

(** *** A date written in one format, read in another *)

Lemma match_sep_digit c s : digit_led s -> match_sep c s = [].
Proof.
  intros (a & r & -> & Ha). unfold match_sep.
  destruct (Ascii.eqb_spec a (sep_char c)) as [-> | _]; [|reflexivity].
  now destruct c.
Qed.

Lemma and_then_digit_led {T U : Type} c (alts : Alternatives T)
    (k : T -> unit -> string -> Alternatives U) :
  Forall (fun '(_, r) => digit_led r) alts ->
  and_then alts (fun v s' => and_then (match_sep c s') (k v)) = [].
Proof.
  induction 1 as [|[v r] alts Hr _ IH]; [reflexivity|].
  unfold and_then in *. cbn [flat_map]. rewrite IH, (match_sep_digit c r Hr). reflexivity.
Qed.

Lemma two_digits_digit_led ok a b s :
  digit_led s -> Forall (fun '(_, r) => digit_led r) (two_digits ok (String a (String b s))).
Proof.
  intros Hs. unfold two_digits.
  destruct (is_digit a && is_digit b && ok (digit_value a) (digit_value b));
    repeat constructor; exact Hs.
Qed.

Lemma one_digit_digit_led a s :
  digit_led s -> Forall (fun '(_, r) => digit_led r) (one_digit (String a s)).
Proof.
  intros Hs. unfold one_digit.
  destruct (is_digit a && (1 <=? digit_value a)); repeat constructor; exact Hs.
Qed.

Lemma match_m_three_digits a b c s :
  is_digit b = true -> is_digit c = true ->
  Forall (fun '(_, r) => digit_led r) (match_m (String a (String b (String c s)))).
Proof.
  intros Hb Hc. unfold match_m.
  assert (H3 : digit_led (String c s)) by now exists c, s.
  assert (H2 : digit_led (String b (String c s))) by now exists b, (String c s).
  apply Forall_app. split; [now apply two_digits_digit_led|].
  apply Forall_app. split; [now apply two_digits_digit_led|].
  now apply one_digit_digit_led.
Qed.

Lemma match_d_three_digits a b c s :
  is_digit a = true -> is_digit b = true -> is_digit c = true ->
  Forall (fun '(_, r) => digit_led r) (match_d (String a (String b (String c s)))).
Proof.
  intros Ha Hb Hc. unfold match_d.
  assert (H3 : digit_led (String c s)) by now exists c, s.
  assert (H2 : digit_led (String b (String c s))) by now exists b, (String c s).
  apply Forall_app. split; [now apply two_digits_digit_led|].
  apply Forall_app. split; [now apply two_digits_digit_led|].
  apply Forall_app. split; [now apply two_digits_digit_led|].
  apply Forall_app. split; [now apply one_digit_digit_led|].
  destruct a as [[] [] [] [] [] [] [] []]; try discriminate Ha; constructor.
Qed.

Lemma is_digit_sep c : is_digit (sep_char c) = false.
Proof. now destruct c. Qed.

Lemma year_first_rejects_short c l c' t :
  l <> YMD -> regex_match (mkFormat YMD c) (strftime (mkFormat l c') t) = [].
Proof.
  intros Hl. unfold regex_match, strftime, pad2. cbn [layout sep].
  destruct l; [congruence | |]; cbn [append match_Y];
    rewrite is_digit_sep, !andb_false_r; reflexivity.
Qed.

Lemma year_first_rejects_other_sep c c' t :
  c <> c' -> 0 <= year t <= 9999 ->
  regex_match (mkFormat YMD c) (strftime (mkFormat YMD c') t) = [].
Proof.
  intros Hc Hy. unfold regex_match, strftime. cbn [layout sep].
  rewrite match_Y_pad4 by exact Hy. cbn [append].
  destruct c, c'; try congruence; reflexivity.
Qed.

Lemma short_first_rejects_year_first l c c' t :
  l <> YMD -> regex_match (mkFormat l c) (strftime (mkFormat YMD c') t) = [].
Proof.
  intros Hl. unfold regex_match, strftime, pad4, pad2. cbn [layout sep append].
  destruct l; [congruence | |].
  - apply (and_then_digit_led c _
             (fun m _ s => and_then (match_d s) (fun d s =>
                and_then (match_sep c s) (fun _ s =>
                and_then (match_Y s) (fun y s => [((y, m, d), s)]))))).
    apply match_m_three_digits; apply digit_char_digit.
  - apply (and_then_digit_led c _
             (fun d _ s => and_then (match_m s) (fun m s =>
                and_then (match_sep c s) (fun _ s =>
                and_then (match_Y s) (fun y s => [((y, m, d), s)]))))).
    apply match_d_three_digits; apply digit_char_digit.
Qed.

Lemma match_m_other_sep {T : Type} a :
  1 <= a <= 31 ->
  forall c c' s (k : Z -> unit -> string -> Alternatives T),
    c <> c' ->
    and_then (match_m (pad2 a ++ String (sep_char c') s)%string)
             (fun v s' => and_then (match_sep c s') (k v)) = [].
Proof.
  intros Ha. pattern a. apply (range_from_cases _ 31 1); [|cbn; lia].
  repeat constructor; intros c c' s k Hc; destruct c, c'; try congruence; reflexivity.
Qed.

Lemma match_d_other_sep {T : Type} a :
  1 <= a <= 31 ->
  forall c c' s (k : Z -> unit -> string -> Alternatives T),
    c <> c' ->
    and_then (match_d (pad2 a ++ String (sep_char c') s)%string)
             (fun v s' => and_then (match_sep c s') (k v)) = [].
Proof.
  intros Ha. pattern a. apply (range_from_cases _ 31 1); [|cbn; lia].
  repeat constructor; intros c c' s k Hc; destruct c, c'; try congruence; reflexivity.
Qed.

Lemma short_first_rejects_other_sep l l' c c' t :
  l <> YMD -> l' <> YMD -> c <> c' -> 1 <= month t <= 12 -> 1 <= day t <= 31 ->
  regex_match (mkFormat l c) (strftime (mkFormat l' c') t) = [].
Proof.
  intros Hl Hl' Hc Hm Hd. unfold regex_match, strftime. cbn [layout sep].
  destruct l; [congruence | |]; (destruct l'; [congruence | |]); cbn [append].
  - apply (match_m_other_sep (month t)); [lia | exact Hc].
  - apply (match_m_other_sep (day t)); [lia | exact Hc].
  - apply (match_d_other_sep (month t)); [lia | exact Hc].
  - apply (match_d_other_sep (day t)); [lia | exact Hc].
Qed.

Lemma strptime_no_match f s : regex_match f s = [] -> strptime f s = None.
Proof. unfold strptime. now intros ->. Qed.

(** Of the four formats of the survey dates, none reads a date written in
    another. *)
Lemma other_format_fails f g u :
  In f supported_formats -> In g supported_formats -> f <> g ->
  is_timestamp u = true ->
  strptime f (strftime g u) = None.
Proof.
  intros Hf Hg Hne Hu. destruct (is_timestamp_fields u Hu) as (Hy & Hm & Hd & _).
  apply strptime_no_match.
  assert (Hcases : forall h, In h supported_formats ->
            h = ISO \/ h = US_slash \/ h = slash_YMD \/ h = dash_DMY).
  { intros h Hh. unfold supported_formats in Hh. cbn [In] in Hh.
    destruct Hh as [<- | [<- | [<- | [<- | []]]]]; tauto. }
  destruct (Hcases f Hf) as [-> | [-> | [-> | ->]]];
    destruct (Hcases g Hg) as [-> | [-> | [-> | ->]]];
    try (exfalso; apply Hne; reflexivity);
    unfold ISO, US_slash, slash_YMD, dash_DMY.
  - apply year_first_rejects_short; discriminate.
  - apply year_first_rejects_other_sep; [discriminate | lia].
  - apply year_first_rejects_short; discriminate.
  - apply short_first_rejects_year_first; discriminate.
  - apply short_first_rejects_year_first; discriminate.
  - apply short_first_rejects_other_sep; try discriminate; lia.
  - apply year_first_rejects_other_sep; [discriminate | lia].
  - apply year_first_rejects_short; discriminate.
  - apply year_first_rejects_short; discriminate.
  - apply short_first_rejects_year_first; discriminate.
  - apply short_first_rejects_other_sep; try discriminate; lia.
  - apply short_first_rejects_year_first; discriminate.
Qed.

Lemma parse_own_format lib f t :
  is_timestamp t = true ->
  parse_with_format lib (Numeric f) (Some (strftime f t)) = Stamp t.
Proof.
  intros Ht. destruct (is_timestamp_fields t Ht) as (Hy & Hm & Hd & Hts).
  unfold parse_with_format. destruct (strftime_plain f t) as [-> ->].
  destruct f as [l c], t as [y m d]. cbn [year month day] in *.
  rewrite strptime_strftime by lia. now rewrite Hts.
Qed.

Lemma parse_other_format lib f g u :
  In f supported_formats -> In g supported_formats -> f <> g ->
  is_timestamp u = true ->
  parse_with_format lib (Numeric f) (Some (strftime g u)) = Error.
Proof.
  intros Hf Hg Hne Hu. unfold parse_with_format.
  destruct (strftime_plain g u) as [-> ->].
  now rewrite other_format_fails.
Qed.

(** The first date fixes the format of the column. *)
Lemma first_format_is_applied lib f t rest :
  is_timestamp t = true ->
  (layout f = DMY -> 12 < day t) ->
  parse_column lib (Some (strftime f t) :: rest)
  = Stamp t :: map (parse_with_format lib (Numeric f)) rest.
Proof.
  intros Ht Hday. unfold parse_column. cbn [first_non_null].
  destruct (strftime_plain f t) as [Hnull Hnow]. rewrite Hnull, Hnow. cbn [orb].
  unfold guess_datetime_format.
  destruct (guess_numeric_strftime f t Ht Hday) as (n & -> & ->).
  cbn [option_map map]. now rewrite parse_own_format.
Qed.

(** In a column that mixes two of the four formats, the dates written in
    the format of the first value are kept and the others become NaT. *)
Theorem mixed_column_loses_dates lib f g t u :
  In f supported_formats -> In g supported_formats -> f <> g ->
  is_timestamp t = true -> is_timestamp u = true ->
  (layout f = DMY -> 12 < day t) ->
  to_datetime lib Coerce [Some (strftime f t); Some (strftime g u)] = Some [Some t; None].
Proof.
  intros Hf Hg Hne Ht Hu Hday. rewrite to_datetime_coerce.
  rewrite first_format_is_applied by assumption.
  cbn [map]. now rewrite parse_other_format.
Qed.

(** A column written throughout in one format is read back as written,
    provided a day-first column starts with a day above 12. *)
Theorem single_format_column lib f t ts :
  is_timestamp t = true -> Forall (fun u => is_timestamp u = true) ts ->
  (layout f = DMY -> 12 < day t) ->
  to_datetime lib Coerce (map (fun u => Some (strftime f u)) (t :: ts))
  = Some (map Some (t :: ts)).
Proof.
  intros Ht Hts Hday. rewrite to_datetime_coerce. cbn [map].
  rewrite first_format_is_applied by assumption.
  cbn [map coerced]. do 2 f_equal.
  induction Hts as [|u ts Hu _ IH]; [reflexivity|].
  cbn [map]. now rewrite parse_own_format, IH.
Qed.

(** A lone DD-MM-YYYY date with a day up to 12 is read month first: the
    day and the month change places (and the result is NaT if that date
    leaves the range of a timestamp). *)
Theorem day_first_is_read_month_first lib t :
  is_timestamp t = true -> day t <= 12 ->
  to_datetime lib Coerce [Some (strftime dash_DMY t)]
  = Some [make_timestamp (year t) (day t) (month t)].
Proof.
  intros Ht Hday. destruct (is_timestamp_fields t Ht) as (Hy & Hm & Hd & _).
  rewrite to_datetime_coerce. unfold parse_column. cbn [first_non_null].
  destruct (strftime_plain dash_DMY t) as [Hnull Hnow]. rewrite Hnull, Hnow. cbn [orb].
  unfold guess_datetime_format.
  destruct t as [y m d]. cbn [year month day] in *. unfold dash_DMY in *.
  rewrite numeric_date_strftime by lia.
  unfold guess_numeric. cbn [resolve_ymd option_map sep_used].
  destruct (Z.ltb_spec 12 d); [lia|].
  destruct (make_timestamp y d m) as [t'|] eqn:Hts; cbn [option_map map].
  - unfold parse_with_format. rewrite Hnull, Hnow.
    change (strftime (mkFormat DMY Dash) (mkDate y m d))
      with (strftime (mkFormat MDY Dash) (mkDate y d m)).
    rewrite strptime_strftime by lia. now rewrite Hts.
  - unfold parse_single. rewrite Hnull, numeric_date_strftime by lia.
    unfold parse_numeric. cbn [resolve_ymd].
    destruct (Z.ltb_spec 12 d); [lia|]. now rewrite Hts.
Qed.

End DateFacts.

(** ** The claims *)

(** C3. Step 1 keeps each distinct row once, at the place of its first
    occurrence, and drops every later row equal to an earlier one; the
    cleaned frame holds exactly one row for each row kept. Row equality is
    equality of all ten fields. *)
Theorem deduplication_keeps_first lib rows :
  (forall r1 r2, row_eqb r1 r2 = true <-> r1 = r2)
  /\ NoDup (drop_duplicates rows)
  /\ (forall r, In r (drop_duplicates rows) <-> In r rows)
  /\ (forall r, In r rows ->
        List.length (filter (row_eqb r) (drop_duplicates rows)) = 1%nat)
  /\ (forall before r after,
        rows = before ++ r :: after -> ~ In r before ->
        drop_duplicates rows
        = drop_duplicates before
          ++ r :: filter (fun x => negb (existsb (row_eqb x) (r :: before)))
                         (drop_duplicates after))
  /\ (forall before r after,
        rows = before ++ r :: after -> In r before ->
        drop_duplicates rows = drop_duplicates (before ++ after))
  /\ exists out,
       cleaning_pipeline lib rows = Some out
       /\ List.length out = List.length (drop_duplicates rows)
       /\ Forall2 (fun r c => customer_id c = customer_id r) (drop_duplicates rows) out.
Proof.
  split; [exact row_eqb_eq|].
  split; [apply drop_from_NoDup|].
  split; [intros r; unfold drop_duplicates; rewrite drop_from_In; cbn; tauto|].
  split.
  { intros r Hr. apply NoDup_one_match; [apply drop_from_NoDup|].
    unfold drop_duplicates. rewrite drop_from_In. cbn. tauto. }
  split; [intros before r after ->; apply first_occurrence_kept|].
  split; [intros before r after ->; apply later_duplicate_dropped|].
  destruct (pipeline_rows lib rows) as (out & Hout & Hrows).
  exists out. split; [exact Hout|]. split.
  - symmetry. eapply Forall2_length; eassumption.
  - eapply Forall2_impl; [|exact Hrows].
    intros r c (t & ->). reflexivity.
Qed.

(** C6. No cleaned row recommends "Maybe": a row whose answer, trimmed
    and title-cased, is "Maybe" ends as "No", and any other row ends with
    its trimmed, title-cased answer. *)
Theorem recommendation_mapping lib rows :
  exists out,
    cleaning_pipeline lib rows = Some out
    /\ Forall (fun c => would_recommend c <> Some "Maybe") out
    /\ Forall2 (fun r c =>
         (strip_title (would_recommend r) = Some "Maybe" ->
          would_recommend c = Some "No")
         /\ (strip_title (would_recommend r) <> Some "Maybe" ->
             would_recommend c = strip_title (would_recommend r)))
       (drop_duplicates rows) out.
Proof.
  destruct (pipeline_rows lib rows) as (out & Hout & Hrows).
  exists out. split; [exact Hout|]. split.
  - eapply Forall2_Forall_r; [exact Hrows|].
    intros r c (t & ->). cbn.
    destruct (maybe_to_no_spec (strip_title (would_recommend r))) as [[_ ->] | [Hne ->]];
      [discriminate | exact Hne].
  - eapply Forall2_impl; [|exact Hrows].
    intros r c (t & ->). cbn.
    destruct (maybe_to_no_spec (strip_title (would_recommend r))) as [[He ->] | [Hne ->]];
      split; intros H; try reflexivity; contradiction.
Qed.

(** C9. A rating below 1 becomes 1, a rating above 5 becomes 5, a rating
    within 1..5 is kept, and every cleaned rating lies within 1..5. *)
Theorem rating_clamp lib rows :
  exists out,
    cleaning_pipeline lib rows = Some out
    /\ Forall (fun c => 1 <= satisfaction_rating c <= 5) out
    /\ Forall2 (fun r c =>
         (satisfaction_rating r < 1 -> satisfaction_rating c = 1)
         /\ (5 < satisfaction_rating r -> satisfaction_rating c = 5)
         /\ (1 <= satisfaction_rating r <= 5 ->
             satisfaction_rating c = satisfaction_rating r))
       (drop_duplicates rows) out.
Proof.
  destruct (pipeline_rows lib rows) as (out & Hout & Hrows).
  exists out. split; [exact Hout|]. split.
  - eapply Forall2_Forall_r; [exact Hrows|].
    intros r c (t & ->). cbn.
    destruct (Z.ltb_spec (satisfaction_rating r) 1); [lia|].
    destruct (Z.ltb_spec 5 (satisfaction_rating r)); lia.
  - eapply Forall2_impl; [|exact Hrows].
    intros r c (t & ->). cbn.
    destruct (Z.ltb_spec (satisfaction_rating r) 1); [lia|].
    destruct (Z.ltb_spec 5 (satisfaction_rating r)); lia.
Qed.

(** C4, as the code has it. The median is taken over the ages within
    0..120 of the deduplicated, imputed frame and replaces every age below
    0 or above 120; when at least one deduplicated row has an age within
    0..120, that median exists and lies within 0..120, and so does every
    cleaned age. *)
Theorem age_repair lib rows :
  valid_ages (drop_duplicates rows) <> [] ->
  exists out m,
    cleaning_pipeline lib rows = Some out
    /\ median_age (handle_missing (drop_duplicates rows)) = Some m
    /\ age_in_range (Some m)
    /\ Forall2 (fun r c =>
         (age r < 0 \/ 120 < age r -> age c = Some m)
         /\ (0 <= age r <= 120 -> age c = Some (of_int (age r))))
       (drop_duplicates rows) out
    /\ Forall (fun c => age_in_range (age c)) out.
Proof.
  intros Hvalid.
  destruct (pipeline_rows lib rows) as (out & Hout & Hrows).
  set (kept := drop_duplicates rows) in *.
  assert (Hm : exists m, median_age kept = Some m /\ age_in_range (Some m)).
  { unfold median_age.
    apply (median_values_Forall (fun q => age_in_range (Some q))).
    - intros a b. unfold age_in_range. apply mean2_between.
    - intros E. apply Hvalid. now apply map_eq_nil in E.
    - apply Forall_forall. intros q Hq. apply in_map_iff in Hq.
      destruct Hq as (a & <- & Ha). unfold valid_ages in Ha.
      apply in_map_iff in Ha. destruct Ha as (r & <- & Hr).
      apply filter_In in Hr. destruct Hr as [_ Hr].
      apply andb_true_iff in Hr. destruct Hr as [H0 H120].
      apply Z.leb_le in H0, H120. unfold age_in_range. split; now apply (proj1 (of_int_le _ _)). }
  destruct Hm as (m & Hm & Hrange).
  exists out, m. split; [exact Hout|].
  split; [unfold median_age; rewrite handle_missing_ages; exact Hm|].
  split; [exact Hrange|].
  rewrite Hm in Hrows. split.
  - eapply Forall2_impl; [|exact Hrows].
    intros r c (t & ->). cbn.
    destruct (Z.ltb_spec (age r) 0); cbn [orb]; [split; [reflexivity | lia]|].
    destruct (Z.ltb_spec 120 (age r)); split; intros; try reflexivity; lia.
  - eapply Forall2_Forall_r; [exact Hrows|].
    intros r c (t & ->). cbn [age set_survey_date clean_row].
    destruct (Z.ltb_spec (age r) 0); cbn [orb]; [exact Hrange|].
    destruct (Z.ltb_spec 120 (age r)); [exact Hrange|].
    unfold age_in_range. split; apply (proj1 (of_int_le _ _)); lia.
Qed.

Lemma age_repair_witness :
  valid_ages (drop_duplicates data) <> []
  /\ exists out m,
       cleaning_pipeline numeric_only data = Some out
       /\ median_age (handle_missing (drop_duplicates data)) = Some m
       /\ age_in_range (Some m)
       /\ Forall2 (fun r c =>
            (age r < 0 \/ 120 < age r -> age c = Some m)
            /\ (0 <= age r <= 120 -> age c = Some (of_int (age r))))
          (drop_duplicates data) out
       /\ Forall (fun c => age_in_range (age c)) out.
Proof.
  split; [vm_compute; discriminate | apply (age_repair numeric_only data); vm_compute; discriminate].
Defined.

(** C4 as stated fails: with no age within 0..120 the median is NaN, the
    invalid age becomes NaN, and NaN is not within 0..120. *)
Lemma age_repair_without_valid_age :
  exists out,
    cleaning_pipeline numeric_only one_negative_age = Some out
    /\ map age out = [None]
    /\ ~ Forall (fun c => age_in_range (age c)) out.
Proof.
  eexists. split; [vm_compute; reflexivity|]. split; [reflexivity|].
  intros H. inversion H as [|c l Hc Hl]. exact Hc.
Qed.

(** C10. Only a missing name or email receives the placeholder; a name or
    email that is present, the empty string included, is trimmed and
    re-cased, so the empty string stays empty. On the literal data no
    cleaned row carries a placeholder, and customers 3 and 5 keep their
    empty email and name. *)
Theorem empty_text_is_not_missing lib :
  (forall rows, exists out,
      cleaning_pipeline lib rows = Some out
      /\ Forall2 (fun r c =>
           (name r = None -> name c = Some "Unknown Customer")
           /\ (email r = None -> email c = Some "no_email@unknown.com")
           /\ (forall s, name r = Some s -> name c = Some (Text.title (Text.strip s)))
           /\ (forall s, email r = Some s -> email c = Some (Text.lower (Text.strip s)))
           /\ (name r = Some "" -> name c = Some "")
           /\ (email r = Some "" -> email c = Some ""))
         (drop_duplicates rows) out)
  /\ exists out,
       cleaning_pipeline lib data = Some out
       /\ map (fun c => (customer_id c, name c, email c)) out
          = [ (1, Some "John Smith", Some "john@email.com");
              (2, Some "Jane Doe", Some "jane@email.com");
              (1, Some "John Smith", Some "john@email.com");
              (3, Some "Bob Johnson", Some "");
              (4, Some "Alice Brown", Some "alice@email.com");
              (5, Some "", Some "test@email.com") ]
       /\ Forall (fun c => name c <> Some "Unknown Customer"
                           /\ email c <> Some "no_email@unknown.com") out.
Proof.
  split.
  - intros rows. destruct (pipeline_rows lib rows) as (out & Hout & Hrows).
    exists out. split; [exact Hout|].
    eapply Forall2_impl; [|exact Hrows].
    intros r c (t & ->). cbn [name email set_survey_date clean_row].
    repeat split; intros; subst;
      repeat match goal with H : _ = _ |- _ => rewrite H end; reflexivity.
  - eexists. split; [vm_compute; reflexivity|].
    split; [reflexivity|].
    repeat constructor; cbn; discriminate.
Qed.

(** C1, as the code has it. On the literal data no row is an exact
    duplicate (rows 1 and 3 differ in the case of the category), so the
    cleaned frame has 6 rows; the ages 150 and -5 become 27.5, the median
    of 25, 25, 30, 35; the rating 6 becomes 5 and the others are kept; the
    missing amount becomes 299.99, the median of the five amounts present;
    and each category has one casing. *)
Theorem end_to_end_literal lib :
  exists out,
    cleaning_pipeline lib data = Some out
    /\ drop_duplicates data = data
    /\ List.length out = 6%nat
    /\ valid_ages (handle_missing (drop_duplicates data)) = [25; 25; 30; 35]
    /\ value (median_age (handle_missing (drop_duplicates data))) = Some (55 # 2)%Q
    /\ map age data = [25; 150; 25; 30; -5; 35]
    /\ map (fun c => value (age c)) out
       = [Some 25%Q; Some (55 # 2)%Q; Some 25%Q; Some 30%Q; Some (55 # 2)%Q; Some 35%Q]
    /\ map satisfaction_rating data = [5; 4; 5; 3; 6; 2]
    /\ map satisfaction_rating out = [5; 4; 5; 3; 5; 2]
    /\ map this (dropna (map purchase_amount (drop_duplicates data)))
       = [299.99%Q; (179 # 2)%Q; 299.99%Q; 25%Q; 450%Q]
    /\ value (median_amount (drop_duplicates data)) = Some 299.99%Q
    /\ map (fun c => value (purchase_amount c)) out
       = [Some 299.99%Q; Some (179 # 2)%Q; Some 299.99%Q; Some 25%Q; Some 450%Q;
          Some 299.99%Q]
    /\ map product_category out
       = [Some "Electronics"; Some "Clothing"; Some "Electronics"; Some "Books";
          Some "Home & Garden"; Some "Clothing"].
Proof.
  eexists. split; [vm_compute; reflexivity|].
  repeat split; vm_compute; reflexivity.
Qed.

(** C1 as stated fails: the cleaned frame has 6 rows, not 5; the age of
    customer 4 is 27.5, not 30; and the amount of customer 5 is 299.99,
    not 194.745, the median of the four distinct amounts. *)
Lemma end_to_end_as_stated_refuted :
  exists out,
    cleaning_pipeline numeric_only data = Some out
    /\ List.length out <> 5%nat
    /\ Forall (fun c => customer_id c = 4 -> value (age c) <> Some 30%Q) out
    /\ value (median_values (dropna [float 299.99; float 89.50; float 25.00; float 450.00]))
       = Some (38949 # 200)%Q
    /\ Forall (fun c => customer_id c = 5 ->
                        value (purchase_amount c) <> Some (38949 # 200)%Q) out.
Proof.
  eexists. split; [vm_compute; reflexivity|].
  split; [cbn; lia|].
  split; [repeat constructor; cbn; intros; (lia || discriminate)|].
  split; [vm_compute; reflexivity|].
  repeat constructor; cbn; intros; (lia || discriminate).
Qed.

(** C2, on the code. The format is inferred from the first date and
    applied to the column: on the literal data that is [%Y-%m-%d], and
    the dates written 01/16/2024, 17-01-2024 and 2024/01/18 become NaT.
    A lone DD-MM-YYYY date with a day up to 12 is read month first. *)
Theorem mixed_date_formats_are_lost lib :
  (exists out,
     cleaning_pipeline lib data = Some out
     /\ map survey_date data
        = [Some "2024-01-15"; Some "01/16/2024"; Some "2024-01-15";
           Some "2024-01-17"; Some "17-01-2024"; Some "2024/01/18"]
     /\ map (fun c => Dates.to_csv_field (survey_date c)) out
        = ["2024-01-15"; ""; "2024-01-15"; "2024-01-17"; ""; ""])
  /\ Dates.to_datetime lib Dates.Coerce [Some "2024-01-05"]
     = Some [Some (mkDate 2024 1 5)]
  /\ Dates.to_datetime lib Dates.Coerce [Some "05-01-2024"]
     = Some [Some (mkDate 2024 5 1)].
Proof.
  split; [eexists; split; [vm_compute; reflexivity|]; split; reflexivity|].
  split; vm_compute; reflexivity.
Qed.

(** ** Running the script *)

Lemma normalize_dates_total lib rows :
  normalize_dates lib rows
  = Some (assign_dates rows (map coerced (Dates.parse_column lib (map survey_date rows)))).
Proof. unfold normalize_dates. now rewrite to_datetime_coerce. Qed.

Lemma script_run lib rows :
  exists out,
    cleaning_pipeline lib rows = Some out
    /\ script lib rows []
       = Some (mkRun 0%nat 2%nat (assess rows)
                 (Z.of_nat (List.length rows)
                  - Z.of_nat (List.length (drop_duplicates rows)))
                 (mkSummary (Z.of_nat (List.length rows)) (Z.of_nat (List.length out))
                            (sum (isnull_sum rows)) (invalid_ages rows)
                            (invalid_ratings rows)),
               [RawFrame rows; RawFrame rows; CleanFrame out]).
Proof.
  unfold cleaning_pipeline, clean_before_dates, handle_missing.
  rewrite normalize_dates_total. eexists. split; [reflexivity|].
  cbv [script bind new_frame raw_rows clean_rows read modify ret raise on_raw on_aged
       List.length app nth_error update].
  rewrite normalize_dates_total. reflexivity.
Qed.

Lemma count_or {T : Type} (p q : T -> bool) l :
  (forall x, p x && q x = false) ->
  count (fun x => p x || q x) l = count p l + count q l.
Proof.
  intros Hpq. unfold count.
  induction l as [|x l IH]; [reflexivity|].
  cbn [filter]. specialize (Hpq x).
  destruct (p x), (q x); cbn [orb List.length]; try discriminate Hpq; lia.
Qed.

(** C5. The script never changes the object bound to [df]: the cleaning
    works on other objects, and [df] still holds the raw rows at the end.
    The three counts of the final summary are therefore the defect counts
    of the raw rows, the same that the assessment found before cleaning. *)
Theorem summary_counts_come_from_raw lib rows :
  exists run st out,
    script lib rows [] = Some (run, st)
    /\ df run <> df_clean run
    /\ nth_error st (df run) = Some (RawFrame rows)
    /\ cleaning_pipeline lib rows = Some out
    /\ nth_error st (df_clean run) = Some (CleanFrame out)
    /\ assessment run = assess rows
    /\ fixed_missing (summary run) = sum (isnull_sum rows)
    /\ fixed_missing (summary run) = sum (missing_per_column (assessment run))
    /\ corrected_ages (summary run) = invalid_ages rows
    /\ corrected_ages (summary run)
       = ages_negative (assessment run) + ages_over_120 (assessment run)
    /\ fixed_ratings (summary run) = invalid_ratings rows
    /\ fixed_ratings (summary run) = ratings_invalid (assessment run).
Proof.
  destruct (script_run lib rows) as (out & Hout & Hrun).
  eexists _, _, out. split; [exact Hrun|]. cbn.
  repeat split; try assumption; try discriminate.
  unfold invalid_ages, negative_ages, unrealistic_ages.
  apply count_or. intros r. destruct (Z.ltb_spec (age r) 0), (Z.ltb_spec 120 (age r)); cbn; lia.
Qed.

(** The counts are not a before/after difference: two copies of a row with
    the rating 6 are reported as two fixed ratings, although the cleaned
    frame has one row. *)
Example summary_counts_are_not_a_difference :
  let rows := one_negative_age ++ one_negative_age in
  exists run st,
    script numeric_only rows [] = Some (run, st)
    /\ fixed_ratings (summary run) = 2
    /\ cleaned_rows (summary run) = 1.
Proof. eexists _, _. split; [vm_compute; reflexivity|]. split; reflexivity. Qed.

(** C8. No input makes the pipeline raise: the cleaned frame always
    exists, with one row for each row kept by step 1, and the script runs
    to its summary. Under [errors='coerce'] a date that fails to parse
    becomes NaT, whatever the column. *)
Theorem pipeline_never_aborts lib rows :
  (exists out,
     cleaning_pipeline lib rows = Some out
     /\ List.length out = List.length (drop_duplicates rows))
  /\ (exists run st, script lib rows [] = Some (run, st))
  /\ (forall col, exists cells,
        Dates.to_datetime lib Dates.Coerce col = Some cells
        /\ Forall2 (fun o c => match o with
                               | Dates.Stamp t => c = Some t
                               | Dates.NaT | Dates.Error => c = None
                               end)
                   (Dates.parse_column lib col) cells
        /\ List.length cells = List.length col).
Proof.
  split.
  { destruct (pipeline_rows lib rows) as (out & Hout & Hrows).
    exists out. split; [exact Hout|].
    symmetry. eapply Forall2_length; eassumption. }
  split.
  { destruct (script_run lib rows) as (out & _ & Hrun). eauto. }
  intros col. exists (map coerced (Dates.parse_column lib col)).
  split; [apply to_datetime_coerce|]. split.
  - induction (Dates.parse_column lib col) as [|o l IH]; constructor; [now destruct o | exact IH].
  - now rewrite length_map, parse_column_length.
Qed.

(** With [errors='raise'] the same column would stop the script. *)
Example errors_raise_would_abort :
  Dates.to_datetime numeric_only Dates.Raise (map survey_date data) = None.
Proof. reflexivity. Qed.

(** * Further properties of the script *)

(** ** Duplicates *)

Lemma duplicated_from_select rows : forall seen,
  drop_duplicates_from seen rows = select (map negb (duplicated_from seen rows)) rows.
Proof.
  induction rows as [|r rows IH]; intros seen; [reflexivity|].
  cbn [drop_duplicates_from duplicated_from].
  destruct (existsb (row_eqb r) seen); cbn [map negb select]; now rewrite IH.
Qed.

Lemma duplicated_from_length rows : forall seen,
  List.length (duplicated_from seen rows) = List.length rows.
Proof.
  induction rows as [|r rows IH]; intros seen; [reflexivity|].
  cbn [duplicated_from]. destruct (existsb (row_eqb r) seen); cbn [List.length]; now rewrite IH.
Qed.

Lemma duplicated_from_count rows : forall seen,
  (List.length (filter (fun b => b) (duplicated_from seen rows))
   + List.length (drop_duplicates_from seen rows) = List.length rows)%nat.
Proof.
  induction rows as [|r rows IH]; intros seen; [reflexivity|].
  cbn [drop_duplicates_from duplicated_from].
  destruct (existsb (row_eqb r) seen); cbn [filter List.length].
  - now rewrite <- (IH seen).
  - rewrite <- (IH (r :: seen)). lia.
Qed.

Lemma duplicated_from_nth rows : forall seen i r,
  nth_error rows i = Some r ->
  exists b, nth_error (duplicated_from seen rows) i = Some b
            /\ (b = true <-> In r seen \/ In r (firstn i rows)).
Proof.
  induction rows as [|x rows IH]; intros seen i r Hi; [now destruct i|].
  cbn [duplicated_from]. destruct i as [|i].
  - cbn in Hi. injection Hi as ->. cbn [firstn In].
    destruct (existsb (row_eqb r) seen) eqn:Hs; eexists; (split; [reflexivity|]).
    + apply seen_In in Hs. tauto.
    + apply seen_not_In in Hs. split; [discriminate | tauto].
  - cbn [nth_error] in Hi. cbn [firstn In].
    destruct (existsb (row_eqb x) seen) eqn:Hs; cbn [nth_error].
    + apply seen_In in Hs. destruct (IH seen i r Hi) as (b & Hb & Hiff).
      exists b. split; [exact Hb|]. rewrite Hiff. intuition (subst; tauto).
    + destruct (IH (x :: seen) i r Hi) as (b & Hb & Hiff).
      exists b. split; [exact Hb|]. rewrite Hiff. cbn [In]. tauto.
Qed.

(** The mask of [duplicated()] is true exactly at the rows that repeat an
    earlier row; [drop_duplicates()] keeps the rows where it is false; and
    the number of true entries is the number of rows removed. *)
Theorem duplicated_mask rows :
  List.length (duplicated rows) = List.length rows
  /\ (forall i r, nth_error rows i = Some r ->
        exists b, nth_error (duplicated rows) i = Some b
                  /\ (b = true <-> In r (firstn i rows)))
  /\ drop_duplicates rows = select (map negb (duplicated rows)) rows
  /\ List.length (filter (fun b => b) (duplicated rows)) = duplicated_count rows.
Proof.
  split; [apply duplicated_from_length|]. split.
  { intros i r Hi. destruct (duplicated_from_nth rows [] i r Hi) as (b & Hb & Hiff).
    exists b. split; [exact Hb|]. rewrite Hiff. cbn. tauto. }
  split; [apply duplicated_from_select|].
  unfold duplicated_count, duplicated, drop_duplicates.
  pose proof (duplicated_from_count rows []). lia.
Qed.

Lemma drop_from_NoDup_id rows : forall seen,
  NoDup rows -> (forall r, In r rows -> ~ In r seen) ->
  drop_duplicates_from seen rows = rows.
Proof.
  induction rows as [|r rows IH]; intros seen Hnd Hseen; [reflexivity|].
  cbn [drop_duplicates_from]. inversion Hnd as [|x l Hr Hrows]; subst.
  rewrite (proj2 (seen_not_In r seen)) by (apply Hseen; now left).
  f_equal. apply IH; [exact Hrows|].
  intros x Hx [-> | Hin]; [contradiction|]. apply (Hseen x); [now right | exact Hin].
Qed.

Lemma drop_from_length_le rows seen :
  (List.length (drop_duplicates_from seen rows) <= List.length rows)%nat.
Proof. pose proof (duplicated_from_count rows seen). lia. Qed.

Lemma drop_from_same_length rows : forall seen,
  List.length (drop_duplicates_from seen rows) = List.length rows ->
  drop_duplicates_from seen rows = rows.
Proof.
  induction rows as [|r rows IH]; intros seen Hlen; [reflexivity|].
  cbn [drop_duplicates_from] in *.
  destruct (existsb (row_eqb r) seen).
  - pose proof (drop_from_length_le rows seen). cbn [List.length] in Hlen. lia.
  - f_equal. apply IH. cbn [List.length] in Hlen. lia.
Qed.

Lemma drop_duplicates_NoDup rows : NoDup rows -> drop_duplicates rows = rows.
Proof. intros Hl. apply drop_from_NoDup_id; [exact Hl | intros r _ []]. Qed.

Lemma drop_duplicates_twice rows :
  drop_duplicates (drop_duplicates rows) = drop_duplicates rows.
Proof. apply drop_duplicates_NoDup, drop_from_NoDup. Qed.

(** Deduplication changes a frame exactly when some row repeats, and a
    second pass changes nothing. *)
Theorem drop_duplicates_idempotent rows :
  drop_duplicates (drop_duplicates rows) = drop_duplicates rows
  /\ (drop_duplicates rows = rows <-> NoDup rows)
  /\ (duplicated_count rows = 0%nat <-> NoDup rows)
  /\ (List.length (drop_duplicates rows) <= List.length rows)%nat.
Proof.
  assert (Hiff : drop_duplicates rows = rows <-> NoDup rows).
  { split; [intros <-; apply drop_from_NoDup | apply drop_duplicates_NoDup]. }
  split; [apply drop_duplicates_twice|]. split; [exact Hiff|].
  split; [|apply drop_from_length_le].
  rewrite <- Hiff. unfold duplicated_count. split.
  - intros H0. apply drop_from_same_length.
    pose proof (drop_from_length_le rows []). unfold drop_duplicates in H0. lia.
  - intros ->. lia.
Qed.

(** A later copy of a row already present does not change the cleaned
    frame, the medians included. *)
Theorem later_copy_is_ignored lib before r after :
  In r before ->
  cleaning_pipeline lib (before ++ r :: after) = cleaning_pipeline lib (before ++ after).
Proof.
  intros Hr. unfold cleaning_pipeline, clean_before_dates.
  now rewrite later_duplicate_dropped.
Qed.

Lemma later_copy_is_ignored_witness :
  In (mkRecord 4 (Some "Alice Brown") (-5) (Some "alice@email.com") (Some "2024-01-17") 6
               (Some "home & garden") (float 450.00) (Some "NO") (Some "Poor delivery"))
     one_negative_age
  /\ cleaning_pipeline numeric_only
       (one_negative_age
        ++ mkRecord 4 (Some "Alice Brown") (-5) (Some "alice@email.com") (Some "2024-01-17") 6
                    (Some "home & garden") (float 450.00) (Some "NO") (Some "Poor delivery")
           :: data)
     = cleaning_pipeline numeric_only (one_negative_age ++ data).
Proof.
  split; [now left | apply (later_copy_is_ignored numeric_only); now left].
Defined.

(** Cleaning an already deduplicated frame gives the same result. *)
Theorem pipeline_after_deduplication lib rows :
  cleaning_pipeline lib (drop_duplicates rows) = cleaning_pipeline lib rows.
Proof.
  unfold cleaning_pipeline, clean_before_dates.
  now rewrite drop_duplicates_twice.
Qed.

(** ** The counts the script prints *)

(** The script reports as removed (line 66) the number of duplicates it
    found at the start (line 40), and the cleaned frame has the original
    rows less the removed ones (lines 140-141). *)
Theorem reported_row_counts lib rows :
  exists run st,
    script lib rows [] = Some (run, st)
    /\ removed_duplicates run = duplicate_rows (assessment run)
    /\ removed_duplicates run
       = Z.of_nat (List.length (filter (fun b => b) (duplicated rows)))
    /\ 0 <= removed_duplicates run <= original_rows (summary run)
    /\ cleaned_rows (summary run) = original_rows (summary run) - removed_duplicates run.
Proof.
  destruct (script_run lib rows) as (out & Hout & Hrun).
  destruct (pipeline_rows lib rows) as (out' & Hout' & Hrows).
  rewrite Hout in Hout'. injection Hout' as <-.
  apply Forall2_length in Hrows.
  pose proof (duplicated_from_count rows []) as Hc.
  fold (duplicated rows) in Hc. fold (drop_duplicates rows) in Hc.
  eexists _, _. split; [exact Hrun|].
  cbn [removed_duplicates assessment summary original_rows cleaned_rows].
  unfold assess. cbn [duplicate_rows]. unfold duplicated_count.
  unfold RawRecord, CleanRecord in *. repeat split; lia.
Qed.

(** ** Step 2 *)

Lemma count_map {T U : Type} (f : T -> U) (p : U -> bool) l :
  count p (map f l) = count (fun x => p (f x)) l.
Proof.
  unfold count. f_equal.
  induction l as [|x l IH]; [reflexivity|].
  cbn [map filter]. destruct (p (f x)); cbn [List.length]; now rewrite IH.
Qed.

Lemma count_false {T : Type} (p : T -> bool) l :
  (forall x, In x l -> p x = false) -> count p l = 0.
Proof.
  intros Hp. unfold count.
  induction l as [|x l IH]; [reflexivity|].
  cbn [filter]. rewrite (Hp x) by now left. apply IH. intros y Hy. apply Hp. now right.
Qed.

Lemma Forall2_map_self {T U : Type} (R : T -> U -> Prop) (f : T -> U) l :
  (forall x, R x (f x)) -> Forall2 R l (map f l).
Proof. intros H. induction l; constructor; auto. Qed.

Lemma median_values_defined l : l <> [] -> exists m, median_values l = Some m.
Proof.
  intros Hl. destruct (median_values_Forall (fun _ => True) (fun _ _ _ _ => I) l Hl)
    as (m & Hm & _); [now apply Forall_forall | now exists m].
Qed.

(** After step 2 no name and no email is missing. An amount that was
    present is unchanged. If at least one amount was present, none is
    missing afterwards, and the missing values that remain (line 80) are
    those of the date, category, answer and comment columns; if no amount
    was present, the amounts stay missing. *)
Theorem missing_values_after_step_2 {D : Type} (rows : list (SurveyRecord Z (option D))) :
  let out := handle_missing rows in
  count (fun r => isnull (name r)) out = 0
  /\ count (fun r => isnull (email r)) out = 0
  /\ Forall2 (fun r c => forall q, purchase_amount r = Some q -> purchase_amount c = Some q)
             rows out
  /\ (dropna (map purchase_amount rows) <> [] ->
      count (fun r => isnull (purchase_amount r)) out = 0
      /\ sum (isnull_sum out)
         = count (fun r => isnull (survey_date r)) rows
           + count (fun r => isnull (product_category r)) rows
           + count (fun r => isnull (would_recommend r)) rows
           + count (fun r => isnull (comments r)) rows)
  /\ (dropna (map purchase_amount rows) = [] ->
      map purchase_amount out = map purchase_amount rows).
Proof.
  intros out. subst out. rewrite handle_missing_median_amount.
  assert (Hname : count (fun r : SurveyRecord Z (option D) => isnull (name r))
            (map (fun r => set_email (set_name (set_purchase_amount r
               (fillna (median_amount rows) (purchase_amount r)))
               (fillna (Some "Unknown Customer") (name r)))
               (fillna (Some "no_email@unknown.com") (email r))) rows) = 0).
  { rewrite count_map. apply count_false. intros r _. cbn. now destruct (name r). }
  assert (Hemail : count (fun r : SurveyRecord Z (option D) => isnull (email r))
            (map (fun r => set_email (set_name (set_purchase_amount r
               (fillna (median_amount rows) (purchase_amount r)))
               (fillna (Some "Unknown Customer") (name r)))
               (fillna (Some "no_email@unknown.com") (email r))) rows) = 0).
  { rewrite count_map. apply count_false. intros r _. cbn. now destruct (email r). }
  split; [exact Hname|]. split; [exact Hemail|]. split.
  { apply Forall2_map_self. intros r q Hq. cbn. now rewrite Hq. }
  split.
  - intros Hsome. destruct (median_values_defined _ Hsome) as (m & Hm).
    assert (Hamount : count (fun r : SurveyRecord Z (option D) => isnull (purchase_amount r))
              (map (fun r => set_email (set_name (set_purchase_amount r
                 (fillna (median_amount rows) (purchase_amount r)))
                 (fillna (Some "Unknown Customer") (name r)))
                 (fillna (Some "no_email@unknown.com") (email r))) rows) = 0).
    { rewrite count_map. apply count_false. intros r _. cbn.
      unfold median_amount, median. rewrite Hm. now destruct (purchase_amount r). }
    split; [exact Hamount|].
    unfold isnull_sum, sum. cbn [fold_right]. rewrite Hname, Hemail, Hamount.
    rewrite !count_map. cbn. lia.
  - intros Hnone. rewrite map_map. apply map_ext. intros r. cbn.
    unfold median_amount, median. rewrite Hnone. cbn. now destruct (purchase_amount r).
Qed.

(** ** The median *)

Lemma Qc_leb_le a b : Qc_leb a b = true <-> (a <= b)%Qc.
Proof. unfold Qc_leb, Qcle. apply Qle_bool_iff. Qed.

Lemma Qc_leb_gt a b : Qc_leb a b = false -> (b <= a)%Qc.
Proof.
  intros H. destruct (Qclt_le_dec a b) as [Hlt | Hle]; [|exact Hle].
  apply Qclt_le_weak in Hlt. apply Qc_leb_le in Hlt. congruence.
Qed.

Lemma insert_sorted_perm x l : Permutation (insert_sorted x l) (x :: l).
Proof.
  induction l as [|y l IH]; [reflexivity|].
  cbn [insert_sorted]. destruct (Qc_leb x y); [reflexivity|].
  rewrite IH. apply perm_swap.
Qed.

Lemma sort_values_perm l : Permutation (sort_values l) l.
Proof.
  induction l as [|x l IH]; [reflexivity|].
  cbn [sort_values fold_right]. fold (sort_values l).
  rewrite insert_sorted_perm. now constructor.
Qed.

Lemma insert_sorted_sorted x l :
  StronglySorted Qcle l -> StronglySorted Qcle (insert_sorted x l).
Proof.
  induction 1 as [|y l Hl IH Hy]; cbn [insert_sorted].
  - repeat constructor.
  - destruct (Qc_leb x y) eqn:Hxy.
    + apply Qc_leb_le in Hxy. constructor; [now constructor|].
      constructor; [exact Hxy|].
      eapply Forall_impl; [|exact Hy]. intros z Hz. eapply Qcle_trans; eassumption.
    + apply Qc_leb_gt in Hxy. constructor; [exact IH|].
      eapply Permutation_Forall; [symmetry; apply insert_sorted_perm|].
      now constructor.
Qed.

Lemma sort_values_sorted l : StronglySorted Qcle (sort_values l).
Proof.
  induction l as [|x l IH]; [constructor|].
  cbn [sort_values fold_right]. now apply insert_sorted_sorted.
Qed.

Lemma sorted_perm_unique l : forall l',
  StronglySorted Qcle l -> StronglySorted Qcle l' -> Permutation l l' -> l = l'.
Proof.
  induction l as [|x l IH]; intros l' Hl Hl' Hp.
  - apply Permutation_nil in Hp. now subst.
  - destruct l' as [|y l']; [now apply Permutation_sym, Permutation_nil in Hp|].
    inversion Hl as [|? ? Hs Hx]; subst. inversion Hl' as [|? ? Hs' Hy]; subst.
    assert (Hxy : x = y).
    { assert (Hin : In x (y :: l')) by (eapply Permutation_in; [exact Hp | now left]).
      assert (Hin' : In y (x :: l))
        by (eapply Permutation_in; [symmetry; exact Hp | now left]).
      destruct Hin as [-> | Hin]; [reflexivity|].
      destruct Hin' as [-> | Hin']; [reflexivity|].
      rewrite Forall_forall in Hx, Hy.
      apply Qcle_antisym; [apply Hx, Hin' | apply Hy, Hin]. }
    subst y. f_equal. apply IH; try assumption.
    eapply Permutation_cons_inv; exact Hp.
Qed.

Lemma sort_values_of_perm l l' : Permutation l l' -> sort_values l = sort_values l'.
Proof.
  intros Hp. apply sorted_perm_unique; try apply sort_values_sorted.
  now rewrite !sort_values_perm.
Qed.

Lemma dropna_perm {T : Type} (col col' : list (option T)) :
  Permutation col col' -> Permutation (dropna col) (dropna col').
Proof.
  unfold dropna. induction 1 as [| c l l' _ IH | c c' l | l l' l'' _ IH1 _ IH2];
    cbn [flat_map].
  - reflexivity.
  - now apply Permutation_app_head.
  - rewrite !app_assoc. apply Permutation_app_tail, Permutation_app_comm.
  - now rewrite IH1.
Qed.

Lemma filter_perm {T : Type} (p : T -> bool) l l' :
  Permutation l l' -> Permutation (filter p l) (filter p l').
Proof.
  induction 1 as [| x l l' _ IH | x y l | l l' l'' _ IH1 _ IH2]; cbn [filter].
  - reflexivity.
  - destruct (p x); [now constructor | exact IH].
  - destruct (p x), (p y); try reflexivity. apply perm_swap.
  - now rewrite IH1.
Qed.

(** The medians of steps 2 and 3 do not depend on the order of the rows. *)
Theorem medians_ignore_row_order {D : Type} (rows rows' : list (SurveyRecord Z D)) :
  Permutation rows rows' ->
  median_amount rows = median_amount rows' /\ median_age rows = median_age rows'.
Proof.
  intros Hp. split.
  - unfold median_amount, median, median_values. f_equal.
    apply sort_values_of_perm, dropna_perm, Permutation_map, Hp.
  - unfold median_age, median_values, valid_ages. f_equal.
    apply sort_values_of_perm. do 2 apply Permutation_map. now apply filter_perm.
Qed.

Lemma medians_ignore_row_order_witness :
  Permutation data (rev data)
  /\ median_amount data = median_amount (rev data)
  /\ median_age data = median_age (rev data).
Proof.
  split; [apply Permutation_rev | apply medians_ignore_row_order, Permutation_rev].
Defined.

(** The median is missing exactly when every value is. *)
Lemma median_none col : median col = None <-> dropna col = [].
Proof.
  split.
  - intros Hn. destruct (dropna col) as [|q l] eqn:Hd; [reflexivity|].
    destruct (median_values_defined (q :: l)) as (m & Hm); [discriminate|].
    unfold median in Hn. rewrite Hd in Hn. congruence.
  - intros Hd. unfold median. now rewrite Hd.
Qed.

(** ** The shape of stripped, title-cased and lower-cased text *)

Module ShapeFacts.
Import Text Shape TextFacts.

Ltac chars c := destruct c as [[] [] [] [] [] [] [] []]; try reflexivity; try discriminate.

Lemma lstrip_split s :
  exists l, all_space l = true /\ s = (l ++ lstrip s)%string
            /\ starts_blank (lstrip s) = false.
Proof.
  induction s as [|c s (l & Hl & Hs & Hb)].
  - now exists EmptyString.
  - cbn [lstrip]. destruct (is_space c) eqn:Hc.
    + exists (String c l). cbn [all_space append]. rewrite Hc, Hl. now rewrite <- Hs.
    + exists EmptyString. cbn. now rewrite Hc.
Qed.

Lemma rstrip_split s :
  exists r, all_space r = true /\ s = (rstrip s ++ r)%string
            /\ ends_blank (rstrip s) = false.
Proof.
  induction s as [|c s (r & Hr & Hs & Hb)].
  - now exists EmptyString.
  - cbn [rstrip]. destruct (is_space c && is_empty (rstrip s)) eqn:Hc.
    + apply andb_true_iff in Hc. destruct Hc as [Hc He].
      destruct (rstrip s); [|discriminate He]. cbn [append] in Hs. subst r.
      exists (String c s). cbn [all_space append]. now rewrite Hc, Hr.
    + exists r. split; [exact Hr|]. split; [cbn [append]; now rewrite <- Hs|].
      cbn [ends_blank]. destruct (rstrip s) eqn:Hrs; [|exact Hb].
      cbn in Hc. now rewrite andb_true_r in Hc.
Qed.

Lemma rstrip_starts s : starts_blank s = false -> starts_blank (rstrip s) = false.
Proof.
  destruct s as [|c s]; [reflexivity|]. cbn [starts_blank rstrip]. intros Hc.
  rewrite Hc. cbn [andb starts_blank]. exact Hc.
Qed.

(** [strip] removes blanks at both ends and nothing else. *)
Lemma strip_split s :
  exists l r, all_space l = true /\ all_space r = true
              /\ s = (l ++ strip s ++ r)%string /\ trimmed (strip s) = true.
Proof.
  destruct (lstrip_split s) as (l & Hl & Hs & Hb).
  destruct (rstrip_split (lstrip s)) as (r & Hr & Hs' & He).
  exists l, r. split; [exact Hl|]. split; [exact Hr|]. unfold strip, trimmed.
  split; [now rewrite <- Hs', <- Hs|].
  now rewrite (rstrip_starts _ Hb), He.
Qed.

Lemma char_cases c :
  (is_lower c = true /\ is_upper c = false /\ is_space c = false
   /\ to_lower c = c /\ is_upper (to_upper c) = true /\ is_lower (to_upper c) = false
   /\ to_lower (to_upper c) = c)
  \/ (is_upper c = true /\ is_lower c = false /\ is_space c = false
      /\ to_upper c = c /\ is_lower (to_lower c) = true /\ is_upper (to_lower c) = false
      /\ to_upper (to_lower c) = c)
  \/ (is_lower c = false /\ is_upper c = false /\ to_lower c = c /\ to_upper c = c).
Proof. chars c; tauto. Qed.

(** Title-casing changes only the case of letters. *)
Lemma lower_title_from s : forall p, lower (title_from p s) = lower s.
Proof.
  induction s as [|c s IH]; intros p; [reflexivity|].
  cbn [title_from lower].
  destruct (char_cases c) as [(Hl & Hu & _ & Hlc & _ & _ & Hlu)
                             | [(Hu & Hl & _ & _ & _ & _ & _) | (Hl & Hu & _ & _)]];
    rewrite Hl, ?Hu; cbn [lower]; rewrite IH; f_equal.
  - destruct p; [reflexivity | now rewrite Hlu, Hlc].
  - destruct p; [apply to_lower_idem | reflexivity].
Qed.

(** The result depends on the letters only up to their case. *)
Lemma title_from_lower s : forall p, title_from p (lower s) = title_from p s.
Proof.
  induction s as [|c s IH]; intros p; [reflexivity|].
  cbn [title_from lower].
  destruct (char_cases c) as [(Hl & Hu & _ & Hlc & _)
                             | [(Hu & Hl & _ & _ & Hll & Hul & Hutl) | (Hl & Hu & Hlc & _)]].
  - now rewrite Hlc, Hl, IH.
  - rewrite Hll, Hl, Hu, IH. destruct p; [reflexivity | now rewrite Hutl].
  - now rewrite Hlc, Hl, Hu, IH.
Qed.

Lemma title_from_titled s : forall p, titled_from p (title_from p s) = true.
Proof.
  induction s as [|c s IH]; intros p; [reflexivity|].
  cbn [title_from].
  destruct (char_cases c) as [(Hl & Hu & _ & _ & Huu & Hlu & _)
                             | [(Hu & Hl & _ & _ & Hll & Hul & _) | (Hl & Hu & _)]];
    rewrite Hl, ?Hu; cbn [titled_from].
  - destruct p; [now rewrite Hl, IH | now rewrite Hlu, Huu, IH].
  - destruct p; [now rewrite Hll, IH | now rewrite Hl, Hu, IH].
  - now rewrite Hl, Hu, IH.
Qed.

Lemma to_lower_letter a b :
  to_lower a = to_lower b ->
  (is_lower a || is_upper a) = (is_lower b || is_upper b).
Proof.
  intros H.
  assert (Ha : (is_lower a || is_upper a) = is_lower (to_lower a)) by (chars a).
  assert (Hb : (is_lower b || is_upper b) = is_lower (to_lower b)) by (chars b).
  now rewrite Ha, Hb, H.
Qed.

Lemma upper_of_lower a : is_upper a = true -> a = to_upper (to_lower a).
Proof. chars a. Qed.

Lemma lower_of_lower a : is_lower a = true -> a = to_lower a.
Proof. chars a. Qed.

Lemma other_of_lower a : is_lower a = false -> is_upper a = false -> a = to_lower a.
Proof. chars a. Qed.

(** Title case and the letters up to case determine the string. *)
Lemma titled_unique s : forall t p,
  lower t = lower s -> titled_from p t = true -> t = title_from p s.
Proof.
  induction s as [|c s IH]; intros [|d t] p Hlow Ht; try discriminate Hlow; [reflexivity|].
  cbn [lower] in Hlow. injection Hlow as Hd Hlow.
  pose proof (to_lower_letter d c Hd) as Hletter.
  cbn [titled_from] in Ht. cbn [title_from].
  destruct (is_lower d) eqn:Hld.
  - apply andb_true_iff in Ht. destruct Ht as [-> Ht].
    rewrite (lower_of_lower d Hld), Hd.
    destruct (char_cases c) as [(Hl & Hu & _ & Hlc & _)
                               | [(Hu & Hl & _) | (Hl & Hu & _)]];
      rewrite Hl, ?Hu in *; cbn in Hletter; try discriminate Hletter.
    + rewrite Hlc. f_equal. now apply IH.
    + f_equal. now apply IH.
  - destruct (is_upper d) eqn:Hud.
    + apply andb_true_iff in Ht. destruct Ht as [Hp Ht].
      apply negb_true_iff in Hp. subst p.
      rewrite (upper_of_lower d Hud), Hd.
      destruct (char_cases c) as [(Hl & Hu & _ & Hlc & _)
                                 | [(Hu & Hl & _ & _ & _ & _ & Hutl) | (Hl & Hu & _)]];
        rewrite Hl, ?Hu in *; cbn in Hletter; try discriminate Hletter.
      * rewrite Hlc. f_equal. now apply IH.
      * rewrite Hutl. f_equal. now apply IH.
    + rewrite (other_of_lower d Hld Hud), Hd.
      destruct (char_cases c) as [(Hl & Hu & _)
                                 | [(Hu & Hl & _) | (Hl & Hu & Hlc & _)]];
        rewrite Hl, ?Hu in *; cbn in Hletter; try discriminate Hletter.
      rewrite Hlc. f_equal. now apply IH.
Qed.

Lemma lower_no_upper s : no_upper (lower s) = true.
Proof.
  induction s as [|c s IH]; [reflexivity|]. cbn [lower no_upper]. rewrite IH.
  replace (is_upper (to_lower c)) with false by (chars c). reflexivity.
Qed.

Lemma no_upper_lower s : no_upper s = true -> lower s = s.
Proof.
  induction s as [|c s IH]; [reflexivity|]. cbn [lower no_upper].
  intros H. apply andb_true_iff in H. destruct H as [Hc Hs].
  rewrite (IH Hs). f_equal. unfold to_lower. now destruct (is_upper c).
Qed.

End ShapeFacts.

Module ShapeFacts2.
Import Text Shape TextFacts ShapeFacts.

Lemma lstrip_all_space l u : all_space l = true -> lstrip (l ++ u)%string = lstrip u.
Proof.
  induction l as [|c l IH]; [reflexivity|]. cbn [all_space append lstrip].
  intros H. apply andb_true_iff in H. destruct H as [-> Hl]. now apply IH.
Qed.

Lemma lstrip_fixed t : starts_blank t = false -> lstrip t = t.
Proof. destruct t as [|c t]; [reflexivity|]. cbn. now intros ->. Qed.

Lemma rstrip_all_space r : all_space r = true -> rstrip r = EmptyString.
Proof.
  induction r as [|c r IH]; [reflexivity|]. cbn [all_space rstrip].
  intros H. apply andb_true_iff in H. destruct H as [-> Hr]. now rewrite IH.
Qed.

Lemma rstrip_app_space t : forall r, all_space r = true -> rstrip (t ++ r)%string = rstrip t.
Proof.
  induction t as [|c t IH]; intros r Hr; [now apply rstrip_all_space|].
  cbn [append rstrip]. now rewrite IH.
Qed.

Lemma rstrip_fixed t : ends_blank t = false -> rstrip t = t.
Proof.
  induction t as [|c t IH]; [reflexivity|]. cbn [ends_blank rstrip].
  destruct t as [|d t].
  - intros ->. reflexivity.
  - intros H. rewrite (IH H). now rewrite andb_false_r.
Qed.

Lemma strip_unique s l t r :
  all_space l = true -> all_space r = true -> trimmed t = true ->
  s = (l ++ t ++ r)%string -> t = strip s.
Proof.
  intros Hl Hr Ht ->. unfold trimmed in Ht. apply andb_true_iff in Ht.
  destruct Ht as [Hs He]. apply negb_true_iff in Hs, He.
  unfold strip. rewrite lstrip_all_space by exact Hl.
  destruct t as [|c t].
  - cbn [append]. destruct (lstrip_split r) as (l' & _ & _ & _).
    assert (Hr' : lstrip r = EmptyString).
    { clear -Hr. induction r as [|c r IH]; [reflexivity|]. cbn in *.
      apply andb_true_iff in Hr. destruct Hr as [-> Hr]. now apply IH. }
    now rewrite Hr'.
  - rewrite lstrip_fixed by (cbn in *; exact Hs).
    rewrite rstrip_app_space by exact Hr. now rewrite rstrip_fixed.
Qed.

Lemma starts_blank_title p s : starts_blank (title_from p s) = starts_blank s.
Proof.
  destruct s as [|c s]; [reflexivity|]. cbn [title_from].
  destruct (is_lower c); [|destruct (is_upper c)]; cbn [starts_blank];
    destruct p; now rewrite ?to_upper_space, ?to_lower_space.
Qed.

Lemma ends_blank_cons c u :
  ends_blank (String c u) = if is_empty u then is_space c else ends_blank u.
Proof. now destruct u. Qed.

Lemma ends_blank_title s : forall p, ends_blank (title_from p s) = ends_blank s.
Proof.
  induction s as [|c s IH]; intros p; [reflexivity|].
  rewrite (ends_blank_cons c s). cbn [title_from].
  destruct (is_lower c); [|destruct (is_upper c)];
    rewrite ends_blank_cons, title_from_empty, IH;
    destruct p; now rewrite ?to_upper_space, ?to_lower_space.
Qed.

Lemma trimmed_title s : trimmed (title s) = trimmed s.
Proof. unfold trimmed, title. now rewrite starts_blank_title, ends_blank_title. Qed.

Lemma starts_blank_lower s : starts_blank (lower s) = starts_blank s.
Proof. destruct s; [reflexivity|]. cbn. apply to_lower_space. Qed.

Lemma ends_blank_lower s : ends_blank (lower s) = ends_blank s.
Proof.
  induction s as [|c s IH]; [reflexivity|].
  destruct s as [|d s]; [cbn; apply to_lower_space|]. exact IH.
Qed.

Lemma trimmed_lower s : trimmed (lower s) = trimmed s.
Proof. unfold trimmed. now rewrite starts_blank_lower, ends_blank_lower. Qed.

Lemma trimmed_strip s : trimmed (strip s) = true.
Proof. destruct (strip_split s) as (l & r & _ & _ & _ & H). exact H. Qed.

End ShapeFacts2.


(** [str.strip()]: the result is the input with a run of blanks removed at
    each end, it has no blank at either end, and it is the only string for
    which both hold. *)
Theorem strip_removes_outer_blanks s :
  (exists l r, Shape.all_space l = true /\ Shape.all_space r = true
               /\ s = (l ++ Text.strip s ++ r)%string)
  /\ Shape.trimmed (Text.strip s) = true
  /\ (forall l t r,
        Shape.all_space l = true -> Shape.all_space r = true -> Shape.trimmed t = true ->
        s = (l ++ t ++ r)%string -> t = Text.strip s).
Proof.
  split; [|split].
  - destruct (ShapeFacts.strip_split s) as (l & r & Hl & Hr & Hs & _). now exists l, r.
  - apply ShapeFacts2.trimmed_strip.
  - intros l t r. apply ShapeFacts2.strip_unique.
Qed.

(** [str.title()]: the result has the letters of the input up to case, a
    letter of the result is upper-case exactly when it does not follow a
    letter, and it is the only such string. *)
Theorem title_case_characterised s :
  Text.lower (Text.title s) = Text.lower s
  /\ Shape.titled (Text.title s) = true
  /\ (forall t, Text.lower t = Text.lower s -> Shape.titled t = true -> t = Text.title s).
Proof.
  split; [apply ShapeFacts.lower_title_from|].
  split; [apply ShapeFacts.title_from_titled|].
  intros t. apply ShapeFacts.titled_unique.
Qed.

(** In the embedding of text, two cells receive the same trimmed,
    title-cased value exactly when they receive the same trimmed,
    lower-cased value. *)
Lemma same_title_same_lower (a b : option string) :
  strip_title a = strip_title b <-> strip_lower a = strip_lower b.
Proof.
  destruct a as [x|], b as [y|]; cbn; try (split; [discriminate | discriminate]);
    [|tauto].
  split; intros [= H]; f_equal.
  - rewrite <- (ShapeFacts.lower_title_from (Text.strip x) false).
    rewrite <- (ShapeFacts.lower_title_from (Text.strip y) false).
    now f_equal.
  - unfold Text.title.
    rewrite <- (ShapeFacts.title_from_lower (Text.strip x)).
    rewrite <- (ShapeFacts.title_from_lower (Text.strip y)).
    now f_equal.
Qed.

(** The shapes of the text of the cleaned frame, in the embedding of
    text. *)
Lemma cleaned_text_shapes lib rows :
  exists out,
    cleaning_pipeline lib rows = Some out
    /\ Forall (fun c =>
         Shape.cell (fun s => Shape.trimmed s && Shape.titled s) (name c) = true
         /\ Shape.cell (fun s => Shape.trimmed s && Shape.no_upper s) (email c) = true
         /\ Shape.cell (fun s => Shape.trimmed s && Shape.titled s) (product_category c) = true
         /\ Shape.cell (fun s => Shape.trimmed s && Shape.titled s) (would_recommend c) = true
         /\ Shape.cell Shape.trimmed (comments c) = true) out.
Proof.
  destruct (pipeline_rows lib rows) as (out & Hout & Hrows).
  exists out. split; [exact Hout|].
  eapply Forall2_Forall_r; [exact Hrows|].
  intros r c (t & ->).
  cbn [name email product_category would_recommend comments set_survey_date clean_row].
  assert (Htitle : forall x,
            Shape.cell (fun s => Shape.trimmed s && Shape.titled s) (strip_title x) = true).
  { intros [s|]; [|reflexivity]. cbn.
    rewrite ShapeFacts2.trimmed_title, ShapeFacts2.trimmed_strip.
    apply ShapeFacts.title_from_titled. }
  repeat split.
  - apply Htitle.
  - destruct (fillna _ (email r)) as [s|]; [|reflexivity]. cbn.
    now rewrite ShapeFacts2.trimmed_lower, ShapeFacts2.trimmed_strip,
      ShapeFacts.lower_no_upper.
  - apply Htitle.
  - destruct (maybe_to_no_spec (strip_title (would_recommend r))) as [[_ ->] | [_ ->]];
      [reflexivity | apply Htitle].
  - destruct (comments r) as [s|]; [|reflexivity]. cbn. apply ShapeFacts2.trimmed_strip.
Qed.

(** ** Distinct values *)

Lemma cell_eqb_eq (a b : option string) : option_eqb String.eqb a b = true <-> a = b.
Proof. apply option_eqb_eq, String.eqb_eq. Qed.

Lemma cell_seen_In c seen : existsb (option_eqb String.eqb c) seen = true <-> In c seen.
Proof.
  rewrite existsb_exists. split.
  - intros (x & Hx & He). apply cell_eqb_eq in He. now subst.
  - intros H. exists c. split; [exact H | now apply cell_eqb_eq].
Qed.

Lemma unique_from_In col : forall seen x,
  In x (unique_from seen col) <-> In x col /\ ~ In x seen.
Proof.
  induction col as [|c col IH]; intros seen x; cbn [unique_from].
  - cbn. tauto.
  - destruct (existsb (option_eqb String.eqb c) seen) eqn:Hs.
    + apply cell_seen_In in Hs. rewrite IH. cbn. intuition (subst; tauto).
    + assert (Hn : ~ In c seen) by (rewrite <- cell_seen_In; congruence).
      cbn [In]. rewrite IH. cbn.
      destruct (option_eqb String.eqb c x) eqn:He.
      * apply cell_eqb_eq in He. subst x. tauto.
      * assert (c <> x) by (intros E; apply cell_eqb_eq in E; congruence). tauto.
Qed.

Lemma unique_from_NoDup col : forall seen, NoDup (unique_from seen col).
Proof.
  induction col as [|c col IH]; intros seen; cbn [unique_from]; [constructor|].
  destruct (existsb (option_eqb String.eqb c) seen); [apply IH|].
  constructor; [|apply IH]. rewrite unique_from_In. cbn. tauto.
Qed.

Lemma Forall2_In_r {T U : Type} (R : T -> U -> Prop) l l' y :
  Forall2 R l l' -> In y l' -> exists x, In x l /\ R x y.
Proof.
  induction 1 as [|a b l l' Hab _ IH]; intros Hy; [contradiction|].
  destruct Hy as [<- | Hy]; [exists a; split; [now left | exact Hab]|].
  destruct (IH Hy) as (x & Hx & HR). exists x. split; [now right | exact HR].
Qed.

(** [unique()] lists each value of the column once, and the cleaning never
    makes the category column more varied: it has at most as many distinct
    categories after cleaning as before. *)
Theorem category_variants_never_increase lib rows :
  (forall col : list (option string),
      NoDup (unique col) /\ forall x, In x (unique col) <-> In x col)
  /\ exists out,
       cleaning_pipeline lib rows = Some out
       /\ (List.length (unique (map product_category out))
           <= List.length (unique (map product_category rows)))%nat.
Proof.
  split.
  { intros col. split; [apply unique_from_NoDup|].
    intros x. unfold unique. rewrite unique_from_In. cbn. tauto. }
  destruct (pipeline_rows lib rows) as (out & Hout & Hrows).
  exists out. split; [exact Hout|].
  rewrite <- (length_map strip_title (unique (map product_category rows))).
  apply NoDup_incl_length; [apply unique_from_NoDup|].
  intros x Hx. unfold unique in Hx. apply unique_from_In in Hx. destruct Hx as [Hx _].
  apply in_map_iff in Hx. destruct Hx as (c & <- & Hc).
  destruct (Forall2_In_r _ _ _ _ Hrows Hc) as (r & Hr & t & ->).
  cbn [product_category set_survey_date clean_row].
  apply in_map. unfold unique. apply unique_from_In. split; [|intros []].
  apply in_map. unfold drop_duplicates in Hr. apply drop_from_In in Hr. tauto.
Qed.

(** ** Counts of ratings *)

Lemma get_count_add k k' counts :
  get_count k' (add_count k counts) = get_count k' counts + (if k' =? k then 1 else 0).
Proof.
  induction counts as [|[j n] counts IH]; cbn [add_count get_count].
  - lia.
  - destruct (Z.ltb_spec k j); [cbn [get_count]; lia|].
    destruct (Z.eqb_spec k j) as [-> | Hne]; cbn [get_count].
    + destruct (k' =? j); lia.
    + rewrite IH. lia.
Qed.

Lemma get_count_value_counts k col :
  get_count k (value_counts_sort_index col) = count (fun x => k =? x) col.
Proof.
  unfold value_counts_sort_index, count.
  induction col as [|x col IH]; [reflexivity|].
  cbn [fold_right filter]. rewrite get_count_add, IH.
  destruct (k =? x); cbn [List.length]; lia.
Qed.

Lemma add_count_keys k counts :
  forall j, In j (map fst (add_count k counts)) <-> j = k \/ In j (map fst counts).
Proof.
  induction counts as [|[i n] counts IH]; intros j; cbn [add_count].
  - cbn. intuition congruence.
  - destruct (Z.ltb_spec k i); [cbn; intuition congruence|].
    destruct (Z.eqb_spec k i) as [-> | Hne]; cbn [map fst In].
    + intuition congruence.
    + rewrite IH. cbn. intuition congruence.
Qed.

Lemma add_count_sorted k counts :
  StronglySorted Z.lt (map fst counts) -> StronglySorted Z.lt (map fst (add_count k counts)).
Proof.
  induction counts as [|[i n] counts IH]; intros Hs; cbn [add_count].
  - repeat constructor.
  - cbn [map fst] in Hs. inversion Hs as [|? ? Hs' Hi]; subst.
    destruct (Z.ltb_spec k i).
    + cbn [map fst]. constructor; [exact Hs|].
      constructor; [exact H|]. eapply Forall_impl; [|exact Hi]. cbn. intros; lia.
    + destruct (Z.eqb_spec k i) as [-> | Hne]; cbn [map fst]; [exact Hs|].
      constructor; [now apply IH|].
      apply Forall_forall. intros j Hj. apply add_count_keys in Hj.
      destruct Hj as [-> | Hj]; [lia|]. rewrite Forall_forall in Hi. now apply Hi.
Qed.

Lemma add_count_positive k counts :
  Forall (fun e => 0 < snd e) counts -> Forall (fun e => 0 < snd e) (add_count k counts).
Proof.
  induction 1 as [|[i n] counts Hn Hc IH]; cbn [add_count].
  - repeat constructor.
  - cbn [snd] in Hn. destruct (k <? i); [repeat constructor; assumption|].
    destruct (k =? i); constructor; cbn [snd]; try assumption; lia.
Qed.

Lemma value_counts_sorted col : StronglySorted Z.lt (map fst (value_counts_sort_index col)).
Proof.
  induction col as [|x col IH]; [constructor|]. now apply add_count_sorted.
Qed.

Lemma value_counts_positive col : Forall (fun e => 0 < snd e) (value_counts_sort_index col).
Proof.
  induction col as [|x col IH]; [constructor|]. now apply add_count_positive.
Qed.

Lemma get_count_absent k counts : ~ In k (map fst counts) -> get_count k counts = 0.
Proof.
  induction counts as [|[i n] counts IH]; [reflexivity|]. cbn [map fst In get_count].
  intros H. destruct (Z.eqb_spec k i); [subst; tauto|]. rewrite IH; tauto.
Qed.

Lemma get_count_sorted_In k n counts :
  StronglySorted Z.lt (map fst counts) -> In (k, n) counts -> get_count k counts = n.
Proof.
  induction counts as [|[i m] counts IH]; intros Hs Hin; [contradiction|].
  cbn [map fst] in Hs. inversion Hs as [|? ? Hs' Hi]; subst. cbn [get_count].
  destruct Hin as [[= -> ->] | Hin].
  - rewrite Z.eqb_refl, get_count_absent; [lia|].
    intros Hk. rewrite Forall_forall in Hi. specialize (Hi k Hk). lia.
  - assert (Hk : In k (map fst counts)) by (apply in_map_iff; now exists (k, n)).
    rewrite Forall_forall in Hi. specialize (Hi k Hk).
    destruct (Z.eqb_spec k i); [lia|]. rewrite (IH Hs' Hin). lia.
Qed.

Lemma get_count_positive_In k counts :
  Forall (fun e => 0 < snd e) counts -> 0 < get_count k counts ->
  exists n, In (k, n) counts.
Proof.
  induction 1 as [|[i m] counts Hm Hc IH]; cbn [get_count]; [lia|].
  intros Hpos. destruct (Z.eqb_spec k i) as [-> | Hne].
  - exists m. now left.
  - destruct IH as (n & Hn); [lia|]. exists n. now right.
Qed.

Lemma sum_counts counts :
  StronglySorted Z.lt (map fst counts) ->
  forall col, (forall k, get_count k counts = count (fun x => k =? x) col) ->
  sum (map snd counts) = Z.of_nat (List.length col).
Proof.
  induction counts as [|[i m] counts IH]; intros Hs col Hget.
  - destruct col as [|x col]; [reflexivity|].
    specialize (Hget x). cbn [get_count] in Hget. unfold count in Hget.
    cbn [filter] in Hget. rewrite Z.eqb_refl in Hget. cbn [List.length] in Hget. lia.
  - cbn [map fst] in Hs. inversion Hs as [|? ? Hs' Hi]; subst.
    cbn [map snd sum fold_right]. fold (sum (map snd counts)).
    rewrite (IH Hs' (filter (fun x => negb (i =? x)) col)).
    + pose proof (Hget i) as Hgi. cbn [get_count] in Hgi. rewrite Z.eqb_refl in Hgi.
      rewrite get_count_absent in Hgi
        by (intros Hk; rewrite Forall_forall in Hi; specialize (Hi i Hk); lia).
      unfold count in Hgi.
      assert (Hsplit : forall l : list Z,
                (List.length (filter (fun x => Z.eqb i x) l)
                 + List.length (filter (fun x => negb (Z.eqb i x)) l) = List.length l)%nat).
      { induction l as [|x l IHl]; [reflexivity|]. cbn [filter].
        destruct (i =? x); cbn [negb List.length]; lia. }
      specialize (Hsplit col). lia.
    + intros k. specialize (Hget k). cbn [get_count] in Hget.
      destruct (Z.eq_dec k i) as [Heq | Hne].
      * subst k. rewrite get_count_absent
          by (intros Hk; rewrite Forall_forall in Hi; specialize (Hi i Hk); lia).
        unfold count. rewrite filter_twice.
        rewrite (filter_ext _ (fun _ => false)), filter_false; [reflexivity|].
        intros x. now destruct (i =? x).
      * apply Z.eqb_neq in Hne. rewrite Hne, Z.add_0_l in Hget. apply Z.eqb_neq in Hne.
        rewrite Hget. unfold count. rewrite filter_twice.
        f_equal. f_equal. apply filter_ext. intros x.
        destruct (Z.eqb_spec k x) as [<- | Hx]; [|now rewrite andb_false_r].
        destruct (Z.eqb_spec i k); [congruence | reflexivity].
Qed.

(** The table of rating counts behind the bar chart lists the ratings of
    the cleaned frame in ascending order, each once and each within 1..5,
    with the number of rows that have it; the counts add up to the number
    of rows. *)
Theorem rating_counts_of_cleaned_frame lib rows :
  exists out,
    cleaning_pipeline lib rows = Some out
    /\ StronglySorted Z.lt (map fst (rating_counts out))
    /\ (forall k n, In (k, n) (rating_counts out)
                    <-> n = count (fun c => satisfaction_rating c =? k) out /\ 0 < n)
    /\ Forall (fun e => 1 <= fst e <= 5) (rating_counts out)
    /\ sum (map snd (rating_counts out)) = Z.of_nat (List.length out).
Proof.
  destruct (pipeline_rows lib rows) as (out & Hout & Hrows).
  exists out. split; [exact Hout|]. unfold rating_counts.
  set (col := map satisfaction_rating out).
  assert (Hcount : forall k, count (fun x => k =? x) col
                             = count (fun c => satisfaction_rating c =? k) out).
  { intros k. unfold col. rewrite count_map. unfold count. do 2 f_equal.
    apply filter_ext. intros c. apply Z.eqb_sym. }
  assert (Hiff : forall k n, In (k, n) (value_counts_sort_index col)
                    <-> n = count (fun c => satisfaction_rating c =? k) out /\ 0 < n).
  { intros k n. rewrite <- Hcount, <- get_count_value_counts. split.
    - intros Hin. split.
      + symmetry. apply get_count_sorted_In; [apply value_counts_sorted | exact Hin].
      + pose proof (value_counts_positive col) as Hp. rewrite Forall_forall in Hp.
        apply (Hp (k, n) Hin).
    - intros [-> Hpos].
      destruct (get_count_positive_In k _ (value_counts_positive col) Hpos) as (n & Hn).
      now rewrite (get_count_sorted_In k n _ (value_counts_sorted col) Hn). }
  split; [apply value_counts_sorted|]. split; [exact Hiff|]. split.
  - apply Forall_forall. intros [k n] Hin. cbn [fst]. apply Hiff in Hin.
    destruct Hin as [-> Hpos]. unfold count in Hpos.
    destruct (filter (fun c => satisfaction_rating c =? k) out) as [|c l] eqn:Hf;
      [cbn in Hpos; lia|].
    assert (Hc : In c (filter (fun c => satisfaction_rating c =? k) out))
      by (rewrite Hf; now left).
    apply filter_In in Hc. destruct Hc as [Hc Hk]. apply Z.eqb_eq in Hk. subst k.
    destruct (Forall2_In_r _ _ _ _ Hrows Hc) as (r & _ & t & ->). cbn.
    destruct (Z.ltb_spec (satisfaction_rating r) 1); [lia|].
    destruct (Z.ltb_spec 5 (satisfaction_rating r)); lia.
  - replace (List.length out) with (List.length col) by apply length_map.
    apply sum_counts; [apply value_counts_sorted|].
    intros k. apply get_count_value_counts.
Qed.

(** ** The date column of the cleaned frame *)

Lemma assign_dates_dates {A D E : Type} (rows : list (SurveyRecord A D)) :
  forall col : list E,
  List.length col = List.length rows ->
  map survey_date (assign_dates rows col) = col.
Proof.
  induction rows as [|r rows IH]; intros [|t col] Hlen; try discriminate Hlen.
  - reflexivity.
  - cbn [assign_dates map]. rewrite IH by (now injection Hlen).
    now destruct r.
Qed.

(** Steps 2 to 5 leave the date column as step 1 left it, and step 6 reads
    it as one column. *)
Lemma pipeline_dates lib rows :
  exists out,
    cleaning_pipeline lib rows = Some out
    /\ map survey_date out
       = map coerced (Dates.parse_column lib (map survey_date (drop_duplicates rows))).
Proof.
  unfold cleaning_pipeline. rewrite normalize_dates_total, clean_before_dates_rowwise.
  eexists. split; [reflexivity|].
  rewrite assign_dates_dates by (now rewrite length_map, parse_column_length, !length_map).
  rewrite map_map. reflexivity.
Qed.

Lemma map_eq_Forall2 {T U V : Type} (f : T -> V) (g : U -> V) l :
  forall l', map g l' = map f l -> Forall2 (fun x y => g y = f x) l l'.
Proof.
  induction l as [|x l IH]; intros [|y l'] H; try discriminate H; constructor.
  - now injection H.
  - apply IH. now injection H.
Qed.

Lemma drop_duplicates_head rows r :
  hd_error rows = Some r -> hd_error (drop_duplicates rows) = Some r.
Proof. destruct rows as [|x rows]; [discriminate|]. now intros [= ->]. Qed.

(** With a first date written in format [f], every date of the column is
    read under [f]. *)
Lemma dates_read_under_first_format lib f rows r t :
  hd_error rows = Some r -> survey_date r = Some (Dates.strftime f t) ->
  Dates.is_timestamp t = true -> (Dates.layout f = Dates.DMY -> 12 < day t) ->
  exists out,
    cleaning_pipeline lib rows = Some out
    /\ Forall2 (fun x c => survey_date c
                           = coerced (Dates.parse_with_format lib (Dates.Numeric f)
                                                              (survey_date x)))
               (drop_duplicates rows) out.
Proof.
  intros Hhd Hr Ht Hday. destruct (pipeline_dates lib rows) as (out & Hout & Hdates).
  exists out. split; [exact Hout|].
  apply map_eq_Forall2. rewrite Hdates.
  apply drop_duplicates_head in Hhd.
  destruct (drop_duplicates rows) as [|x kept]; [discriminate|].
  injection Hhd as ->. cbn [map]. rewrite Hr.
  rewrite DateFacts.first_format_is_applied by assumption.
  cbn [map]. rewrite DateFacts.parse_own_format by assumption.
  rewrite !map_map. reflexivity.
Qed.

(** When the first row's date is written in one of the four formats of
    the survey, the cleaned frame keeps exactly the dates written in that
    format: a date in another of the four formats, and an empty or
    missing date, become NaT. (A day-first column has to start with a day
    above 12 to be read as such.) *)
Theorem survey_dates_follow_first_format lib f rows r t :
  hd_error rows = Some r -> survey_date r = Some (Dates.strftime f t) ->
  In f Dates.supported_formats ->
  Dates.is_timestamp t = true -> (Dates.layout f = Dates.DMY -> 12 < day t) ->
  exists out,
    cleaning_pipeline lib rows = Some out
    /\ Forall2 (fun x c =>
         (forall g u, In g Dates.supported_formats -> Dates.is_timestamp u = true ->
                      survey_date x = Some (Dates.strftime g u) ->
                      (g = f -> survey_date c = Some u)
                      /\ (g <> f -> survey_date c = None))
         /\ (Dates.is_null (survey_date x) = true -> survey_date c = None))
       (drop_duplicates rows) out.
Proof.
  intros Hhd Hr Hf Ht Hday.
  destruct (dates_read_under_first_format lib f rows r t Hhd Hr Ht Hday)
    as (out & Hout & Hrows).
  exists out. split; [exact Hout|].
  eapply Forall2_impl; [|exact Hrows]. cbn beta. intros x c Hc. split.
  - intros g u Hg Hu Hx. rewrite Hc, Hx. split.
    + intros ->. now rewrite DateFacts.parse_own_format.
    + intros Hne. rewrite DateFacts.parse_other_format; [reflexivity | | | |]; auto.
  - intros Hnull. rewrite Hc. unfold Dates.parse_with_format.
    destruct (survey_date x) as [s|]; [|reflexivity]. now rewrite Hnull.
Qed.

Lemma survey_dates_follow_first_format_witness :
  exists out,
    cleaning_pipeline numeric_only data = Some out
    /\ Forall2 (fun x c =>
         (forall g u, In g Dates.supported_formats -> Dates.is_timestamp u = true ->
                      survey_date x = Some (Dates.strftime g u) ->
                      (g = Dates.ISO -> survey_date c = Some u)
                      /\ (g <> Dates.ISO -> survey_date c = None))
         /\ (Dates.is_null (survey_date x) = true -> survey_date c = None))
       (drop_duplicates data) out.
Proof.
  eapply (survey_dates_follow_first_format numeric_only Dates.ISO data _ (mkDate 2024 1 15)).
  - reflexivity.
  - reflexivity.
  - left. reflexivity.
  - reflexivity.
  - intros H. discriminate H.
Defined.

(** A date column written throughout in one numeric format comes out
    whole: every cleaned row holds the date written in its raw row, and
    the CSV shows it as YYYY-MM-DD. *)
Theorem dates_in_one_format_are_kept lib f rows r t :
  hd_error rows = Some r -> survey_date r = Some (Dates.strftime f t) ->
  Dates.is_timestamp t = true -> (Dates.layout f = Dates.DMY -> 12 < day t) ->
  Forall (fun x => exists u, Dates.is_timestamp u = true
                             /\ survey_date x = Some (Dates.strftime f u)) rows ->
  exists out,
    cleaning_pipeline lib rows = Some out
    /\ Forall2 (fun x c => exists u,
                  survey_date x = Some (Dates.strftime f u)
                  /\ survey_date c = Some u
                  /\ Dates.to_csv_field (survey_date c) = Dates.strftime Dates.ISO u)
               (drop_duplicates rows) out.
Proof.
  intros Hhd Hr Ht Hday Hall.
  destruct (dates_read_under_first_format lib f rows r t Hhd Hr Ht Hday)
    as (out & Hout & Hrows).
  exists out. split; [exact Hout|].
  assert (Hkept : Forall (fun x => exists u, Dates.is_timestamp u = true
                    /\ survey_date x = Some (Dates.strftime f u)) (drop_duplicates rows)).
  { rewrite Forall_forall in *. intros x Hx. apply Hall.
    unfold drop_duplicates in Hx. apply drop_from_In in Hx. tauto. }
  clear Hall Hhd Hout. induction Hrows as [|x c kept out' Hc _ IH]; [constructor|].
  inversion Hkept as [|? ? (u & Hu & Hx) Hkept']; subst.
  constructor; [|now apply IH].
  exists u. rewrite Hc, Hx, DateFacts.parse_own_format by assumption.
  repeat split; try assumption; reflexivity.
Qed.

(** Six dates written month first: each cleaned row holds the date
    written in its raw row, and the CSV shows it as YYYY-MM-DD. *)
Lemma dates_in_one_format_are_kept_witness :
  map survey_date (us_dated data)
  = [Some "01/15/2024"; Some "01/16/2024"; Some "01/15/2024";
     Some "01/17/2024"; Some "01/17/2024"; Some "01/18/2024"]
  /\ exists out,
    cleaning_pipeline numeric_only (us_dated data) = Some out
    /\ Forall2 (fun x c => exists u,
                  survey_date x = Some (Dates.strftime Dates.US_slash u)
                  /\ survey_date c = Some u
                  /\ Dates.to_csv_field (survey_date c) = Dates.strftime Dates.ISO u)
               (drop_duplicates (us_dated data)) out.
Proof.
  split; [reflexivity|].
  eapply (dates_in_one_format_are_kept numeric_only Dates.US_slash (us_dated data) _
            (mkDate 2024 1 15)).
  - reflexivity.
  - reflexivity.
  - reflexivity.
  - intros H. discriminate H.
  - apply Forall_cons; [exists (mkDate 2024 1 15); split; reflexivity|].
    apply Forall_cons; [exists (mkDate 2024 1 16); split; reflexivity|].
    apply Forall_cons; [exists (mkDate 2024 1 15); split; reflexivity|].
    apply Forall_cons; [exists (mkDate 2024 1 17); split; reflexivity|].
    apply Forall_cons; [exists (mkDate 2024 1 17); split; reflexivity|].
    apply Forall_cons; [exists (mkDate 2024 1 18); split; reflexivity|].
    apply Forall_nil.
Defined.

Lemma day_first_is_read_month_first_witness :
  Dates.to_datetime numeric_only Dates.Coerce [Some "05-01-2024"]
  = Some [Some (mkDate 2024 5 1)].
Proof.
  apply (DateFacts.day_first_is_read_month_first numeric_only (mkDate 2024 1 5)).
  - reflexivity.
  - cbn. lia.
Defined.

(** ** The median in floating point *)

Lemma half_padded (a b : nat) : ((2 * a + b) / 2 = a + b / 2)%nat.
Proof.
  replace (2 * a + b)%nat with (b + a * 2)%nat by lia.
  rewrite Nat.div_add by lia. lia.
Qed.

Lemma odd_padded (a b : nat) : Nat.odd (2 * a + b) = Nat.odd b.
Proof.
  rewrite Nat.odd_add, Nat.odd_mul. reflexivity.
Qed.

Lemma nth_error_padded (lo mid hi : list Qc) i :
  (i < List.length mid)%nat ->
  nth_error (lo ++ mid ++ hi) (List.length lo + i) = nth_error mid i.
Proof.
  intros Hi. rewrite nth_error_app2 by lia.
  replace (List.length lo + i - List.length lo)%nat with i by lia.
  now rewrite nth_error_app1.
Qed.

(** The middle of a list is the middle of what is left when as many
    values are taken from its front as from its back. *)
Lemma middle_with_padded fl (lo mid hi : list Qc) :
  List.length lo = List.length hi -> mid <> [] ->
  middle_with fl (lo ++ mid ++ hi) = middle_with fl mid.
Proof.
  intros Hlen Hmid. unfold middle_with. rewrite !length_app, <- Hlen.
  replace (List.length lo + (List.length mid + List.length lo))%nat
    with (2 * List.length lo + List.length mid)%nat by lia.
  rewrite odd_padded, half_padded.
  assert (Hpos : (0 < List.length mid)%nat) by (destruct mid; [congruence | cbn; lia]).
  pose proof (Nat.div_lt (List.length mid) 2 Hpos ltac:(lia)) as Hhalf.
  destruct (Nat.odd (List.length mid)) eqn:Hodd.
  - now apply nth_error_padded.
  - assert (H1 : (1 <= List.length mid / 2)%nat).
    { destruct mid as [|a [|b mid']]; [congruence | discriminate Hodd |].
      cbn [List.length]. change (S (S (List.length mid'))) with (2 + List.length mid')%nat.
      replace (2 + List.length mid')%nat with (List.length mid' + 1 * 2)%nat by lia.
      rewrite Nat.div_add by lia. lia. }
    replace (List.length lo + List.length mid / 2 - 1)%nat
      with (List.length lo + (List.length mid / 2 - 1))%nat by lia.
    rewrite !nth_error_padded by lia. reflexivity.
Qed.

(** A list that is not empty has one or two values in the middle. *)
Lemma split_middle (s : list Qc) :
  s <> [] ->
  exists lo mid hi,
    s = lo ++ mid ++ hi /\ List.length lo = List.length hi
    /\ ((exists a, mid = [a]) \/ (exists a b, mid = [a; b])).
Proof.
  intros Hne.
  assert (Hpos : (0 < List.length s)%nat) by (destruct s; [congruence | cbn; lia]).
  set (n := List.length s) in *. set (k := ((n - 1) / 2)%nat).
  assert (Hk : (2 * k <= n - 1 <= 2 * k + 1)%nat).
  { pose proof (Nat.div_mod_eq (n - 1) 2) as Hd.
    pose proof (Nat.mod_upper_bound (n - 1) 2 ltac:(lia)) as Hm. fold k in Hd. lia. }
  exists (firstn k s), (firstn (n - 2 * k) (skipn k s)), (skipn (n - 2 * k) (skipn k s)).
  split; [now rewrite !firstn_skipn|]. split.
  - rewrite length_firstn, !length_skipn. fold n. lia.
  - assert (Hmid : List.length (firstn (n - 2 * k) (skipn k s)) = (n - 2 * k)%nat).
    { rewrite length_firstn, length_skipn. fold n. lia. }
    destruct (firstn (n - 2 * k) (skipn k s)) as [|a [|b [|c mid]]]; cbn [List.length] in Hmid.
    + lia.
    + left. now exists a.
    + right. now exists a, b.
    + lia.
Qed.

Lemma sorted_app_inv (l1 l2 : list Qc) :
  StronglySorted Qcle (l1 ++ l2) ->
  StronglySorted Qcle l2.
Proof.
  induction l1 as [|x l1 IH]; [trivial|].
  cbn [app]. intros H. inversion H; subst. now apply IH.
Qed.

(** A value can be put into a sorted list between two neighbours that
    enclose it. *)
Lemma sorted_insert_between (lo hi : list Qc) (a m : Qc) :
  StronglySorted Qcle (lo ++ a :: hi) ->
  (a <= m)%Qc -> Forall (Qcle m) hi ->
  StronglySorted Qcle (lo ++ a :: m :: hi).
Proof.
  intros Hs Ham Hm. induction lo as [|x lo IH]; cbn [app] in *.
  - inversion Hs as [|? ? Hhi Ha]; subst.
    constructor; [now constructor|]. now constructor.
  - inversion Hs as [|? ? Hrest Hx]; subst.
    constructor; [now apply IH|].
    apply Forall_app in Hx. destruct Hx as [Hlo Hx].
    inversion Hx as [|? ? Hxa Hxhi]; subst.
    apply Forall_app. split; [exact Hlo|].
    constructor; [exact Hxa|]. constructor; [|exact Hxhi].
    eapply Qcle_trans; eassumption.
Qed.

Lemma sorted_is_sort_values (l s : list Qc) :
  StronglySorted Qcle s -> Permutation s l -> sort_values l = s.
Proof.
  intros Hs Hp. apply sorted_perm_unique; [apply sort_values_sorted | exact Hs|].
  now rewrite sort_values_perm, Hp.
Qed.

Lemma half_of_double (x : Qc) : ((x + x) / Q2Qc 2 = x)%Qc.
Proof.
  apply Qc_is_canon. unfold Qcdiv, Qcmult, Qcplus, Qcinv. cbn [this Q2Qc].
  rewrite !Qred_correct.
  setoid_replace (/ Qred 2)%Q with (1 # 2)%Q by reflexivity.
  field.
Qed.

Lemma half_monotone (x y : Qc) : (x <= y)%Qc -> (x / Q2Qc 2 <= y / Q2Qc 2)%Qc.
Proof.
  intros H. unfold Qcdiv. apply Qcmult_le_compat_r; [exact H|].
  unfold Qcle. cbn. discriminate.
Qed.

Section Rounded.
Variable fl : Qc -> Qc.
Variable bound : Qc.
Hypothesis rounding : Rounding fl bound.

(** The rounded mean of two representable values lies between them, and
    is representable. *)
Lemma mean2_with_between (a b : Qc) :
  representable fl bound a -> representable fl bound b -> (a <= b)%Qc ->
  (a <= mean2_with fl a b)%Qc /\ (mean2_with fl a b <= b)%Qc
  /\ representable fl bound (mean2_with fl a b).
Proof.
  intros (Ha & Ha1 & Ha2) (Hb & Hb1 & Hb2) Hab.
  assert (Hlo : (a + a <= fl (a + b))%Qc).
  { rewrite <- (fl_double fl bound rounding a Ha1 Ha2 Ha).
    apply (fl_monotone fl bound rounding).
    apply Qcplus_le_compat; [apply Qcle_refl | exact Hab]. }
  assert (Hhi : (fl (a + b) <= b + b)%Qc).
  { rewrite <- (fl_double fl bound rounding b Hb1 Hb2 Hb).
    apply (fl_monotone fl bound rounding).
    apply Qcplus_le_compat; [exact Hab | apply Qcle_refl]. }
  apply half_monotone in Hlo, Hhi. rewrite half_of_double in Hlo, Hhi.
  apply (fl_monotone fl bound rounding) in Hlo, Hhi. rewrite Ha in Hlo. rewrite Hb in Hhi.
  unfold mean2_with. split; [exact Hlo|]. split; [exact Hhi|].
  split; [apply (fl_idempotent fl bound rounding)|].
  split; [apply (Qcle_trans _ a) | apply (Qcle_trans _ b)]; assumption.
Qed.

Lemma mean2_with_same (m : Qc) : representable fl bound m -> mean2_with fl m m = m.
Proof.
  intros (Hm & H1 & H2). unfold mean2_with.
  now rewrite (fl_double fl bound rounding m H1 H2 Hm), half_of_double.
Qed.

(** The median is a middle value, or the rounded mean of the two middle
    values; one more value equal to it leaves it where it is. *)
Lemma median_values_with_median (l : list Qc) (m : Qc) :
  Forall (representable fl bound) l ->
  median_values_with fl l = Some m ->
  representable fl bound m
  /\ (exists a b, In a l /\ In b l /\ (a <= m)%Qc /\ (m <= b)%Qc)
  /\ median_values_with fl (m :: l) = Some m.
Proof.
  unfold median_values_with. intros Hrep Hm.
  assert (Hne : sort_values l <> []) by (intros E; rewrite E in Hm; discriminate Hm).
  destruct (split_middle _ Hne) as (lo & mid & hi & Hs & Hlen & Hmid).
  pose proof (sort_values_sorted l) as Hsorted.
  pose proof (sort_values_perm l) as Hperm.
  rewrite Hs in Hm, Hsorted, Hperm.
  rewrite middle_with_padded in Hm
    by (destruct Hmid as [(a & ->) | (a & b & ->)]; congruence).
  assert (Hin : forall x, In x mid -> In x l).
  { intros x Hx. eapply Permutation_in; [exact Hperm|].
    apply in_or_app. right. apply in_or_app. now left. }
  rewrite Forall_forall in Hrep.
  destruct Hmid as [(a & ->) | (a & b & ->)].
  - cbn in Hm. injection Hm as ->. cbn [app] in *.
    assert (Hm : In m l) by (apply Hin; now left).
    split; [now apply Hrep|]. split.
    { exists m, m. repeat split; try assumption; apply Qcle_refl. }
    rewrite (sorted_is_sort_values (m :: l) (lo ++ [m; m] ++ hi)).
    + rewrite middle_with_padded by congruence.
      cbn. f_equal. apply mean2_with_same. now apply Hrep.
    + cbn [app]. apply sorted_insert_between; [exact Hsorted | apply Qcle_refl|].
      apply sorted_app_inv in Hsorted. now inversion Hsorted.
    + cbn [app]. rewrite <- Hperm. symmetry. apply Permutation_middle.
  - cbn in Hm. injection Hm as <-. cbn [app] in *.
    assert (Ha : In a l) by (apply Hin; now left).
    assert (Hb : In b l) by (apply Hin; right; now left).
    assert (Hab : (a <= b)%Qc).
    { apply sorted_app_inv in Hsorted. inversion Hsorted as [|? ? _ Hall]; subst.
      now inversion Hall. }
    destruct (mean2_with_between a b (Hrep a Ha) (Hrep b Hb) Hab) as (Hlo & Hhi & Hmean).
    split; [exact Hmean|]. split; [now exists a, b|].
    rewrite (sorted_is_sort_values (mean2_with fl a b :: l)
               (lo ++ [a; mean2_with fl a b; b] ++ hi)).
    + rewrite middle_with_padded by congruence. reflexivity.
    + cbn [app]. apply sorted_insert_between; [exact Hsorted | exact Hlo|].
      constructor; [exact Hhi|].
      apply sorted_app_inv in Hsorted. inversion Hsorted as [|? ? Hb' _]; subst.
      inversion Hb' as [|? ? _ Hbh]; subst.
      eapply Forall_impl; [|exact Hbh]. intros z Hz. eapply Qcle_trans; eassumption.
    + cbn [app]. rewrite <- Hperm.
      change (lo ++ a :: mean2_with fl a b :: b :: hi)
        with (lo ++ [a] ++ mean2_with fl a b :: b :: hi).
      change (lo ++ a :: b :: hi) with (lo ++ [a] ++ b :: hi).
      rewrite !app_assoc. symmetry. apply Permutation_middle.
Qed.

Lemma median_values_with_defined (l : list Qc) :
  l <> [] -> exists m, median_values_with fl l = Some m.
Proof.
  intros Hl. unfold median_values_with.
  assert (Hne : sort_values l <> []).
  { intros E. apply (f_equal (@List.length Qc)) in E.
    rewrite sort_values_length in E. destruct l; [congruence | discriminate E]. }
  destruct (split_middle _ Hne) as (lo & mid & hi & -> & Hlen & Hmid).
  rewrite middle_with_padded
    by (try exact Hlen; destruct Hmid as [(a & ->) | (a & b & ->)]; congruence).
  destruct Hmid as [(a & ->) | (a & b & ->)]; eexists; reflexivity.
Qed.

Lemma median_values_with_copies (l : list Qc) (m : Qc) (k : nat) :
  Forall (representable fl bound) l ->
  median_values_with fl l = Some m ->
  median_values_with fl (repeat m k ++ l) = Some m.
Proof.
  intros Hrep Hm.
  assert (H : Forall (representable fl bound) (repeat m k ++ l)
              /\ median_values_with fl (repeat m k ++ l) = Some m).
  { induction k as [|k (IHrep & IHm)]; [now split|].
    destruct (median_values_with_median _ m IHrep IHm) as (Hmrep & _ & Hstep).
    cbn [repeat app]. split; [now constructor | exact Hstep]. }
  apply H.
Qed.

Lemma median_values_with_perm l l' :
  Permutation l l' -> median_values_with fl l = median_values_with fl l'.
Proof. intros Hp. unfold median_values_with. now rewrite (sort_values_of_perm l l'). Qed.

End Rounded.

Lemma dropna_filled (m : Qc) (col : list (option Qc)) :
  exists k, Permutation (dropna (map (fillna (Some m)) col)) (repeat m k ++ dropna col).
Proof.
  induction col as [|c col (k & IH)]; [now exists 0%nat|].
  destruct c as [q|]; cbn [map fillna].
  - exists k. unfold dropna in *. cbn [flat_map app]. rewrite IH. apply Permutation_middle.
  - exists (S k). unfold dropna in *. cbn [flat_map app repeat]. now constructor.
Qed.

Lemma dropna_Forall {T : Type} (P : T -> Prop) (col : list (option T)) :
  Forall (fun c => forall q, c = Some q -> P q) col -> Forall P (dropna col).
Proof.
  unfold dropna. induction 1 as [|c col Hc _ IH]; [constructor|].
  cbn [flat_map]. destruct c as [q|]; [|exact IH].
  constructor; [now apply Hc | exact IH].
Qed.

(** A column filled with its median has the same median. *)
Lemma median_with_filled fl bound (col : list (option Qc)) :
  Rounding fl bound ->
  Forall (fun c => forall q, c = Some q -> representable fl bound q) col ->
  median_with fl (map (fillna (median_with fl col)) col) = median_with fl col.
Proof.
  intros Hfl Hcol. destruct (median_with fl col) as [m|] eqn:Hm.
  - destruct (dropna_filled m col) as (k & Hp). unfold median_with in *.
    rewrite (median_values_with_perm fl _ _ Hp).
    apply (median_values_with_copies fl bound Hfl); [|exact Hm].
    now apply dropna_Forall.
  - rewrite <- Hm at 2. f_equal. rewrite <- (map_id col) at 2. apply map_ext.
    now intros [q|].
Qed.

Lemma dropna_repaired {D : Type} (m : Qc) (rows : list (SurveyRecord Z D)) :
  exists k,
    Permutation
      (dropna (map (fun r => if (age r <? 0) || (120 <? age r) then Some m
                             else Some (of_int (age r))) rows))
      (repeat m k ++ map of_int (valid_ages rows)).
Proof.
  unfold valid_ages. induction rows as [|r rows (k & IH)]; [now exists 0%nat|].
  cbn [map filter]. unfold dropna in *. cbn [flat_map].
  destruct (Z.ltb_spec (age r) 0) as [Hneg | Hneg]; cbn [orb].
  - exists (S k). destruct (Z.leb_spec 0 (age r)); [lia|]. cbn [andb repeat app].
    now constructor.
  - destruct (Z.ltb_spec 120 (age r)) as [Hbig | Hbig].
    + exists (S k). destruct (Z.leb_spec (age r) 120); [lia|].
      rewrite andb_false_r. cbn [repeat app]. now constructor.
    + exists k. destruct (Z.leb_spec 0 (age r)); [|lia].
      destruct (Z.leb_spec (age r) 120); [|lia]. cbn [andb map app].
      rewrite IH. apply Permutation_middle.
Qed.

Lemma repair_ages_rowwise {D : Type} (rows : list (SurveyRecord Z D)) :
  map age (repair_ages rows)
  = map (fun r => if (age r <? 0) || (120 <? age r) then median_age rows
                  else Some (of_int (age r))) rows.
Proof.
  unfold repair_ages, replace_large_ages, replace_negative_ages.
  rewrite !map_map. apply map_ext. intros r. cbn [age set_age].
  destruct (age r <? 0) eqn:Hneg; cbn [orb].
  - now destruct (float_gt (median_age rows) 120).
  - now rewrite float_gt_of_int.
Qed.

(** Exact arithmetic is a rounding, and it is the arithmetic of the ages:
    the mean of two values that are integers or halves of integers up to
    120 is computed exactly. *)
Lemma exact_is_rounding bound : Rounding (fun x => x) bound.
Proof. split; intros; (assumption || reflexivity). Qed.

Lemma median_is_median_with col : median col = median_with (fun x => x) col.
Proof. reflexivity. Qed.

(** *** A rounding on a grid *)

Lemma Qfloor_half (n : Z) : Qfloor (inject_Z n + (1 # 2)) = n.
Proof.
  pose proof (Qfloor_le (inject_Z n + (1 # 2))) as Hle.
  pose proof (Qlt_floor (inject_Z n + (1 # 2))) as Hlt.
  set (k := Qfloor (inject_Z n + (1 # 2))) in *.
  rewrite inject_Z_plus in Hlt. change (inject_Z 1) with 1%Q in Hlt.
  assert (H1 : k < n + 1).
  { rewrite Zlt_Qlt, inject_Z_plus. change (inject_Z 1) with 1%Q. lra. }
  assert (H2 : n < k + 1).
  { rewrite Zlt_Qlt, inject_Z_plus. change (inject_Z 1) with 1%Q. lra. }
  lia.
Qed.

Lemma round_to_cents_grid (n : Z) :
  round_to_cents (Q2Qc (inject_Z n / 100)) = Q2Qc (inject_Z n / 100).
Proof.
  unfold round_to_cents. do 3 f_equal.
  rewrite <- (Qfloor_half n) at 2. apply Qfloor_comp.
  unfold Qcplus, Qcmult. cbn [this Q2Qc]. rewrite !Qred_correct. field.
Qed.

Lemma round_to_cents_rounding bound : Rounding round_to_cents bound.
Proof.
  split.
  - intros x y Hxy. unfold round_to_cents, Qcle. cbn [this Q2Qc]. rewrite !Qred_correct.
    assert (Hz : Qfloor (x * Q2Qc 100 + Q2Qc (1 # 2))%Qc
                 <= Qfloor (y * Q2Qc 100 + Q2Qc (1 # 2))%Qc).
    { apply Qfloor_resp_le. unfold Qcle in Hxy. unfold Qcplus, Qcmult. cbn [this Q2Qc].
      rewrite !Qred_correct. lra. }
    rewrite Zle_Qle in Hz. unfold Qdiv. apply Qmult_le_compat_r; [exact Hz | discriminate].
  - intros x. apply round_to_cents_grid.
  - intros x _ _ Hx.
    assert (Hgrid : exists n, x = Q2Qc (inject_Z n / 100)).
    { exists (Qfloor (x * Q2Qc 100 + Q2Qc (1 # 2))%Qc). rewrite <- Hx at 1. reflexivity. }
    destruct Hgrid as (n & ->).
    assert (Hsum : (Q2Qc (inject_Z n / 100) + Q2Qc (inject_Z n / 100))%Qc
                   = Q2Qc (inject_Z (2 * n) / 100)).
    { apply Qc_is_canon. unfold Qcplus. cbn [this Q2Qc]. rewrite !Qred_correct.
      rewrite inject_Z_mult. change (inject_Z 2) with 2%Q. field. }
    rewrite Hsum. apply round_to_cents_grid.
Qed.

(** The median, computed in floating point from representable values
    within [lo] and [hi], exists and lies within [lo] and [hi], as long as
    no sum can overflow. *)
Theorem median_between fl bound (lo hi : Qc) (col : list (option Qc)) :
  Rounding fl bound ->
  dropna col <> [] ->
  Forall (fun c => forall q, c = Some q ->
            representable fl bound q /\ (lo <= q)%Qc /\ (q <= hi)%Qc) col ->
  exists m, median_with fl col = Some m /\ (lo <= m)%Qc /\ (m <= hi)%Qc.
Proof.
  intros Hfl Hsome Hcol. unfold median_with.
  destruct (median_values_with_defined fl _ Hsome) as (m & Hm).
  exists m. split; [exact Hm|].
  assert (Hall : Forall (fun q => representable fl bound q /\ (lo <= q)%Qc /\ (q <= hi)%Qc)
                        (dropna col)) by (now apply dropna_Forall).
  destruct (median_values_with_median fl bound Hfl (dropna col) m)
    as (_ & (a & b & Ha & Hb & Ham & Hmb) & _);
    [eapply Forall_impl; [|exact Hall]; cbn; tauto | exact Hm |].
  rewrite Forall_forall in Hall.
  split; [apply (Qcle_trans _ a) | apply (Qcle_trans _ b)];
    try assumption; [apply (Hall a Ha) | apply (Hall b Hb)].
Qed.

Lemma survey_amounts_representable :
  Forall (fun c => forall q, c = Some q ->
            representable round_to_cents (of_int 1000) q
            /\ (of_int 25 <= q)%Qc /\ (q <= of_int 450)%Qc)
         (map purchase_amount (tl data)).
Proof.
  repeat (apply Forall_cons || apply Forall_nil); intros q [= <-];
    (split; [split; [apply Qc_is_canon; vm_compute; reflexivity|]|]);
    split; unfold Qcle; apply Qle_bool_iff; vm_compute; reflexivity.
Qed.

(** The amounts of rows 2 to 6 of the survey: 89.50, 299.99, 25.00 and
    450.00, and one missing. The mean 194.745 of the two middle values is
    rounded to 194.75. *)
Lemma median_between_witness :
  median_with round_to_cents (map purchase_amount (tl data)) = Some (Q2Qc (19475 # 100))
  /\ exists m, median_with round_to_cents (map purchase_amount (tl data)) = Some m
               /\ (of_int 25 <= m)%Qc /\ (m <= of_int 450)%Qc.
Proof.
  split; [vm_compute; f_equal; apply Qc_is_canon; reflexivity|].
  apply (median_between round_to_cents (of_int 1000) (of_int 25) (of_int 450)
           (map purchase_amount (tl data))).
  - apply round_to_cents_rounding.
  - vm_compute. discriminate.
  - exact survey_amounts_representable.
Defined.

Lemma valid_ages_representable {D : Type} (rows : list (SurveyRecord Z D)) :
  Forall (representable (fun x => x) (of_int 120)) (map of_int (valid_ages rows)).
Proof.
  unfold valid_ages. rewrite map_map. apply Forall_forall. intros q Hq.
  apply in_map_iff in Hq. destruct Hq as (r & <- & Hr).
  apply filter_In in Hr. destruct Hr as [_ Hr]. apply andb_true_iff in Hr.
  destruct Hr as [H0 H120]. apply Z.leb_le in H0, H120.
  split; [reflexivity|]. split.
  - apply (Qcle_trans _ (of_int 0)); [|now apply (proj1 (of_int_le _ _))].
    unfold Qcle. apply Qle_bool_iff. reflexivity.
  - now apply (proj1 (of_int_le _ _)).
Qed.

(** Filling in with a median does not move that median, in floating
    point as in exact arithmetic, as long as no sum can overflow: the
    purchase amounts have the same median after line 72 as before, and the
    age column has after step 3 the median of the valid ages it was
    repaired with. *)
Theorem imputation_keeps_the_medians fl bound {D : Type} (rows : list (SurveyRecord Z D)) :
  Rounding fl bound ->
  Forall (fun r => forall q, purchase_amount r = Some q -> representable fl bound q) rows ->
  let amounts := map purchase_amount rows in
  median_with fl (map (fillna (median_with fl amounts)) amounts) = median_with fl amounts
  /\ median (map age (repair_ages rows)) = median_age rows.
Proof.
  intros Hfl Hrows amounts. split.
  - apply (median_with_filled fl bound); [exact Hfl|].
    unfold amounts. apply Forall_forall. intros c Hc q ->.
    apply in_map_iff in Hc. destruct Hc as (r & Hq & Hr).
    rewrite Forall_forall in Hrows. now apply (Hrows r Hr).
  - rewrite repair_ages_rowwise.
    destruct (median_age rows) as [m|] eqn:Hm.
    + destruct (dropna_repaired m rows) as (k & Hp).
      rewrite median_is_median_with. unfold median_with.
      rewrite (median_values_with_perm _ _ _ Hp).
      apply (median_values_with_copies (fun x => x) (of_int 120));
        [apply exact_is_rounding | apply valid_ages_representable | exact Hm].
    + unfold median_age in Hm.
      assert (Hnone : valid_ages rows = []).
      { destruct (valid_ages rows) as [|a l] eqn:Hv; [reflexivity|].
        destruct (median_values_defined (map of_int (a :: l))) as (m & Hm');
          [discriminate | congruence]. }
      unfold median. replace (dropna _) with (@nil Qc); [reflexivity|].
      clear Hm. unfold valid_ages in Hnone. unfold dropna.
      induction rows as [|r rows IH]; [reflexivity|].
      inversion Hrows as [|? ? _ Hrows']; subst.
      cbn [map filter flat_map] in *.
      destruct (Z.ltb_spec (age r) 0) as [Hneg | Hneg]; cbn [orb].
      * destruct (Z.leb_spec 0 (age r)); [lia|]. cbn [andb] in Hnone. cbn [app].
        now apply IH.
      * destruct (Z.ltb_spec 120 (age r)) as [Hbig | Hbig].
        -- destruct (Z.leb_spec (age r) 120); [lia|]. rewrite andb_false_r in Hnone.
           cbn [app]. now apply IH.
        -- destruct (Z.leb_spec 0 (age r)); [|lia].
           destruct (Z.leb_spec (age r) 120); [|lia]. discriminate Hnone.
Qed.

(** Rows 2 to 6 of the survey, with amounts rounded on the grid of
    hundredths: the median 194.75 stands in for the missing amount and
    stays the median; the ages 150 and -5 are replaced by the median 30 of
    25, 30 and 35, which stays the median. *)
Lemma imputation_keeps_the_medians_witness :
  let amounts := map purchase_amount (tl data) in
  median_with round_to_cents amounts = Some (Q2Qc (19475 # 100))
  /\ median_with round_to_cents (map (fillna (median_with round_to_cents amounts)) amounts)
     = median_with round_to_cents amounts
  /\ median_age (tl data) = Some (of_int 30)
  /\ median (map age (repair_ages (tl data))) = median_age (tl data).
Proof.
  cbv zeta.
  split; [vm_compute; f_equal; apply Qc_is_canon; reflexivity|].
  split; [|split; [vm_compute; f_equal; apply Qc_is_canon; reflexivity|]];
    apply (imputation_keeps_the_medians round_to_cents (of_int 1000) (tl data)
             (round_to_cents_rounding _));
    (apply Forall_forall; intros r Hr q Hq;
     pose proof survey_amounts_representable as Hall; rewrite Forall_forall in Hall;
     apply (Hall (purchase_amount r)); [now apply in_map | exact Hq]).
Defined.

(** ** Rows that become equal *)

Lemma parse_column_cellwise lib col :
  exists h, Dates.parse_column lib col = map h col.
Proof.
  unfold Dates.parse_column.
  destruct (Dates.first_non_null col) as [s|]; [|eexists; reflexivity].
  destruct (Dates.guess_datetime_format lib s); eexists; reflexivity.
Qed.

Lemma assign_dates_of_rows {A D E : Type} (f : RawRecord -> SurveyRecord A D)
    (g : RawRecord -> E) (rows : list RawRecord) :
  assign_dates (map f rows) (map g rows) = map (fun r => set_survey_date (f r) (g r)) rows.
Proof.
  induction rows as [|r rows IH]; [reflexivity|].
  cbn [map assign_dates]. now rewrite IH.
Qed.

(** Within one run, the cleaned row is a function of the raw row. *)
Lemma pipeline_is_rowwise lib rows :
  exists F : RawRecord -> CleanRecord,
    cleaning_pipeline lib rows = Some (map F (drop_duplicates rows))
    /\ forall r r', normalize_row r = normalize_row r' -> F r = F r'.
Proof.
  unfold cleaning_pipeline. rewrite normalize_dates_total, clean_before_dates_rowwise.
  set (kept := drop_duplicates rows).
  set (f := clean_row (median_amount kept) (median_age kept)).
  destruct (parse_column_cellwise lib (map survey_date (map f kept))) as (h & ->).
  exists (fun r => set_survey_date (f r) (coerced (h (survey_date (f r))))). split.
  - rewrite !map_map. apply f_equal. apply (assign_dates_of_rows f).
  - intros r r' Hn.
    assert (Hf : f r = f r'); [|now rewrite Hf].
    unfold f, clean_row.
    destruct r as [c1 n1 a1 e1 d1 s1 p1 m1 w1 k1], r' as [c2 n2 a2 e2 d2 s2 p2 m2 w2 k2].
    unfold normalize_row in Hn. cbn in *.
    injection Hn as -> Hname -> Hemail -> -> Hcat -> Hrec Hcom.
    rewrite Hcat, Hrec, Hcom. f_equal.
    + destruct n1, n2; cbn in *; congruence.
    + destruct e1, e2; cbn in *; congruence.
Qed.

Lemma NoDup_map_In {T U : Type} (F : T -> U) l a b :
  NoDup (map F l) -> In a l -> In b l -> F a = F b -> a = b.
Proof.
  induction l as [|x l IH]; [contradiction|]. cbn [map].
  intros Hnd Ha Hb Hab. inversion Hnd as [|? ? Hx Hl]; subst.
  destruct Ha as [-> | Ha], Hb as [-> | Hb].
  - reflexivity.
  - exfalso. apply Hx. rewrite Hab. now apply in_map.
  - exfalso. apply Hx. rewrite <- Hab. now apply in_map.
  - now apply IH.
Qed.

(** Duplicates are dropped before the text is normalized, so two rows
    that differ only in what the cleaning removes (letter case, outer
    blanks, Maybe against No) are both kept and come out equal: the
    cleaned frame then holds a duplicated row. *)
Theorem case_variants_survive_deduplication lib rows r1 r2 :
  In r1 rows -> In r2 rows -> r1 <> r2 ->
  normalize_row r1 = normalize_row r2 ->
  exists out, cleaning_pipeline lib rows = Some out /\ ~ NoDup out.
Proof.
  intros H1 H2 Hne Hn. destruct (pipeline_is_rowwise lib rows) as (F & Hout & HF).
  eexists. split; [exact Hout|]. intros Hnd. apply Hne.
  apply (NoDup_map_In F (drop_duplicates rows)); try assumption.
  - unfold drop_duplicates. apply drop_from_In. split; [exact H1 | intros []].
  - unfold drop_duplicates. apply drop_from_In. split; [exact H2 | intros []].
  - now apply HF.
Qed.

Lemma case_variants_survive_deduplication_witness :
  exists out, cleaning_pipeline numeric_only data = Some out /\ ~ NoDup out.
Proof.
  eapply (case_variants_survive_deduplication numeric_only data).
  - left. reflexivity.
  - right. right. left. reflexivity.
  - intros H. discriminate H.
  - reflexivity.
Defined.

(** ** What the summary counts *)

Lemma count_select {T : Type} (p : T -> bool) (rows : list T) : forall mask,
  List.length mask = List.length rows ->
  count p rows = count p (select (map negb mask) rows) + count p (select mask rows).
Proof.
  unfold count. induction rows as [|r rows IH]; intros [|b mask] Hlen; try discriminate Hlen.
  - reflexivity.
  - injection Hlen as Hlen. specialize (IH mask Hlen).
    cbn [map select filter]. destruct b; cbn [negb filter];
      destruct (p r); cbn [List.length]; lia.
Qed.

(** The defect counts of the final summary are taken from the raw frame,
    duplicates included: each is the number of such defects among the rows
    that were cleaned plus the number among the rows dropped as duplicates.
    Without duplicates they are the defects of the rows cleaned. *)
Theorem summary_counts_include_dropped_rows lib rows :
  let kept := drop_duplicates rows in
  let dropped := select (duplicated rows) rows in
  exists run st,
    script lib rows [] = Some (run, st)
    /\ fixed_missing (summary run) = sum (isnull_sum kept) + sum (isnull_sum dropped)
    /\ corrected_ages (summary run) = invalid_ages kept + invalid_ages dropped
    /\ fixed_ratings (summary run) = invalid_ratings kept + invalid_ratings dropped
    /\ (NoDup rows -> dropped = []).
Proof.
  intros kept dropped. destruct (script_run lib rows) as (out & _ & Hrun).
  eexists _, _. split; [exact Hrun|].
  cbn [summary fixed_missing corrected_ages fixed_ratings].
  assert (Hsplit : forall p : RawRecord -> bool,
            count p rows = count p kept + count p dropped).
  { intros p. unfold kept, dropped, drop_duplicates, duplicated.
    rewrite duplicated_from_select. apply count_select, duplicated_from_length. }
  split; [|split; [apply Hsplit | split; [apply Hsplit|]]].
  - unfold isnull_sum, sum. cbn [fold_right].
    unfold RawRecord in *. rewrite !Hsplit. lia.
  - intros Hnd. unfold dropped.
    assert (Hlen : List.length (select (duplicated rows) rows) = 0%nat).
    { pose proof (Hsplit (fun _ => true)) as Hc. unfold count in Hc.
      assert (Hall : forall l : list RawRecord, filter (fun _ => true) l = l).
      { induction l as [|x l IH]; [reflexivity|]. cbn [filter]. now rewrite IH. }
      rewrite !Hall in Hc. unfold kept, dropped in Hc.
      rewrite (drop_duplicates_NoDup rows Hnd) in Hc. lia. }
    now destruct (select (duplicated rows) rows).
Qed.

(** ** ASCII text within Unicode text

    On ASCII text the methods on code points give what [Text] gives,
    whatever the database says about the other code points. *)

Module UnicodeFacts.
Import Unicode.

Ltac each_ascii c H :=
  destruct c as [[] [] [] [] [] [] [] []]; try discriminate H; reflexivity.

Section Ascii.
Variable db : Database.

Lemma char_space c :
  (N_of_ascii c <? 128)%N = true -> is_space db (N_of_ascii c) = Text.is_space c.
Proof. intros H. each_ascii c H. Qed.

Lemma char_lower_at before c after :
  (N_of_ascii c <? 128)%N = true ->
  lower_at db before (N_of_ascii c) after = [N_of_ascii (Text.to_lower c)].
Proof. intros H. each_ascii c H. Qed.

Lemma char_to_lower_ascii c :
  (N_of_ascii c <? 128)%N = true -> (N_of_ascii (Text.to_lower c) <? 128)%N = true.
Proof. intros H. each_ascii c H. Qed.

Lemma char_to_upper_ascii c :
  (N_of_ascii c <? 128)%N = true -> (N_of_ascii (Text.to_upper c) <? 128)%N = true.
Proof. intros H. each_ascii c H. Qed.

Lemma title_step before flag c s :
  (N_of_ascii c <? 128)%N = true ->
  code_points (Text.title_from flag (String c s))
  = (if flag then lower_at db before (N_of_ascii c) (code_points s)
     else to_title_full db (N_of_ascii c))
    ++ code_points (Text.title_from (is_cased db (N_of_ascii c)) s).
Proof. intros H. destruct flag; each_ascii c H. Qed.

Lemma title_step_ascii flag c s :
  (N_of_ascii c <? 128)%N = true ->
  exists d f, Text.title_from flag (String c s) = String d (Text.title_from f s)
              /\ (N_of_ascii d <? 128)%N = true.
Proof.
  intros H. destruct flag;
    (destruct c as [[] [] [] [] [] [] [] []]; try discriminate H;
     eexists _, _; split; reflexivity).
Qed.

Lemma code_points_lower s : forall before,
  ascii_only s = true -> lower_from db before (code_points s) = code_points (Text.lower s).
Proof.
  induction s as [|c s IH]; intros before Hs; [reflexivity|].
  cbn [ascii_only] in Hs. apply andb_true_iff in Hs. destruct Hs as [Hc Hs].
  cbn [code_points lower_from Text.lower]. now rewrite char_lower_at, IH.
Qed.

Lemma code_points_title s : forall before flag,
  ascii_only s = true ->
  title_from db before flag (code_points s) = code_points (Text.title_from flag s).
Proof.
  induction s as [|c s IH]; intros before flag Hs; [reflexivity|].
  cbn [ascii_only] in Hs. apply andb_true_iff in Hs. destruct Hs as [Hc Hs].
  rewrite (title_step before flag c s Hc). cbn [code_points title_from].
  now rewrite IH.
Qed.

Lemma code_points_lstrip s :
  ascii_only s = true -> lstrip db (code_points s) = code_points (Text.lstrip s).
Proof.
  induction s as [|c s IH]; intros Hs; [reflexivity|].
  cbn [ascii_only] in Hs. apply andb_true_iff in Hs. destruct Hs as [Hc Hs].
  cbn [code_points lstrip Text.lstrip]. rewrite char_space by exact Hc.
  destruct (Text.is_space c); [now apply IH | reflexivity].
Qed.

Lemma code_points_rstrip s :
  ascii_only s = true -> rstrip db (code_points s) = code_points (Text.rstrip s).
Proof.
  induction s as [|c s IH]; intros Hs; [reflexivity|].
  cbn [ascii_only] in Hs. apply andb_true_iff in Hs. destruct Hs as [Hc Hs].
  cbn [code_points rstrip Text.rstrip]. rewrite char_space, IH by assumption.
  destruct (Text.rstrip s), (Text.is_space c); reflexivity.
Qed.

End Ascii.

Lemma ascii_only_lstrip s : ascii_only s = true -> ascii_only (Text.lstrip s) = true.
Proof.
  induction s as [|c s IH]; intros Hs; [reflexivity|].
  cbn [Text.lstrip]. destruct (Text.is_space c); [|exact Hs].
  cbn [ascii_only] in Hs. apply andb_true_iff in Hs. now apply IH.
Qed.

Lemma ascii_only_rstrip s : ascii_only s = true -> ascii_only (Text.rstrip s) = true.
Proof.
  induction s as [|c s IH]; intros Hs; [reflexivity|].
  cbn [ascii_only] in Hs. apply andb_true_iff in Hs. destruct Hs as [Hc Hs].
  cbn [Text.rstrip]. destruct (Text.is_space c && Text.is_empty (Text.rstrip s));
    [reflexivity|]. cbn [ascii_only]. now rewrite Hc, IH.
Qed.

Lemma ascii_only_strip s : ascii_only s = true -> ascii_only (Text.strip s) = true.
Proof. intros Hs. now apply ascii_only_rstrip, ascii_only_lstrip. Qed.

Lemma ascii_only_lower s : ascii_only s = true -> ascii_only (Text.lower s) = true.
Proof.
  induction s as [|c s IH]; intros Hs; [reflexivity|].
  cbn [ascii_only] in Hs. apply andb_true_iff in Hs. destruct Hs as [Hc Hs].
  cbn [Text.lower ascii_only]. now rewrite char_to_lower_ascii, IH.
Qed.

Lemma ascii_only_title_from s : forall flag,
  ascii_only s = true -> ascii_only (Text.title_from flag s) = true.
Proof.
  induction s as [|c s IH]; intros flag Hs; [reflexivity|].
  cbn [ascii_only] in Hs. apply andb_true_iff in Hs. destruct Hs as [Hc Hs].
  destruct (title_step_ascii flag c s Hc) as (d & f & -> & Hd).
  cbn [ascii_only]. now rewrite Hd, IH.
Qed.

Lemma code_points_strip db s :
  ascii_only s = true -> strip db (code_points s) = code_points (Text.strip s).
Proof.
  intros Hs. unfold strip, Text.strip.
  now rewrite code_points_lstrip, code_points_rstrip by (try apply ascii_only_lstrip; exact Hs).
Qed.

Lemma code_points_injective s : forall t, code_points s = code_points t -> s = t.
Proof.
  induction s as [|c s IH]; intros [|d t] H; try discriminate H; [reflexivity|].
  cbn [code_points] in H. injection H as Hc Hs.
  f_equal; [|now apply IH].
  rewrite <- (ascii_N_embedding c), <- (ascii_N_embedding d). now rewrite Hc.
Qed.

Lemma text_eqb_eq s : forall t, text_eqb s t = true <-> s = t.
Proof.
  induction s as [|c s IH]; intros [|d t]; cbn [text_eqb];
    try (split; [discriminate | discriminate]); [tauto|].
  rewrite andb_true_iff, N.eqb_eq, IH. split; [intros [-> ->]; reflexivity|].
  intros [= -> ->]. tauto.
Qed.

End UnicodeFacts.

Lemma ascii_cell_strip_title c : ascii_cell c = true -> ascii_cell (strip_title c) = true.
Proof.
  destruct c as [s|]; [|reflexivity]. cbn. intros Hs.
  now apply UnicodeFacts.ascii_only_title_from, UnicodeFacts.ascii_only_strip.
Qed.

Lemma ascii_cell_strip_lower c : ascii_cell c = true -> ascii_cell (strip_lower c) = true.
Proof.
  destruct c as [s|]; [|reflexivity]. cbn. intros Hs.
  now apply UnicodeFacts.ascii_only_lower, UnicodeFacts.ascii_only_strip.
Qed.

Lemma ascii_cell_strip c : ascii_cell c = true -> ascii_cell (str Text.strip c) = true.
Proof.
  destruct c as [s|]; [|reflexivity]. cbn. apply UnicodeFacts.ascii_only_strip.
Qed.

Lemma ascii_cell_maybe_to_no c : ascii_cell c = true -> ascii_cell (maybe_to_no c) = true.
Proof.
  intros Hc. destruct (maybe_to_no_spec c) as [[_ ->] | [_ ->]]; [reflexivity | exact Hc].
Qed.

Lemma ascii_cell_fillna d c :
  ascii_cell d = true -> ascii_cell c = true -> ascii_cell (fillna d c) = true.
Proof. intros Hd Hc. now destruct c. Qed.

(** The three normalisations of step 5 on a cell of ASCII text are
    Python's on its code points. *)
Lemma code_points_strip_title db c :
  ascii_cell c = true ->
  Unicode.strip_title db (code_points_of c) = code_points_of (strip_title c).
Proof.
  destruct c as [s|]; [|reflexivity]. cbn. intros Hs. f_equal.
  rewrite UnicodeFacts.code_points_strip by exact Hs.
  apply UnicodeFacts.code_points_title. now apply UnicodeFacts.ascii_only_strip.
Qed.

Lemma code_points_strip_lower db c :
  ascii_cell c = true ->
  Unicode.strip_lower db (code_points_of c) = code_points_of (strip_lower c).
Proof.
  destruct c as [s|]; [|reflexivity]. cbn. intros Hs. f_equal.
  rewrite UnicodeFacts.code_points_strip by exact Hs.
  apply UnicodeFacts.code_points_lower. now apply UnicodeFacts.ascii_only_strip.
Qed.

Lemma code_points_maybe_to_no c :
  Unicode.maybe_to_no (code_points_of c) = code_points_of (maybe_to_no c).
Proof.
  destruct c as [s|]; [|reflexivity]. unfold maybe_to_no. cbn [code_points_of option_map
    Unicode.maybe_to_no option_eqb].
  destruct (String.eqb_spec s "Maybe") as [-> | Hne]; [reflexivity|].
  destruct (Unicode.text_eqb (Unicode.code_points s) (Unicode.code_points "Maybe")) eqn:He;
    [|reflexivity].
  apply UnicodeFacts.text_eqb_eq, UnicodeFacts.code_points_injective in He. contradiction.
Qed.

Lemma code_points_of_injective a b : code_points_of a = code_points_of b -> a = b.
Proof.
  destruct a as [s|], b as [t|]; cbn; intros H; try discriminate H; [|reflexivity].
  injection H as H. f_equal. now apply UnicodeFacts.code_points_injective.
Qed.

Lemma ascii_row_fields {A D : Type} (r : SurveyRecord A D) :
  ascii_row r = true ->
  ascii_cell (name r) = true /\ ascii_cell (email r) = true
  /\ ascii_cell (product_category r) = true /\ ascii_cell (would_recommend r) = true
  /\ ascii_cell (comments r) = true.
Proof. unfold ascii_row. rewrite !andb_true_iff. tauto. Qed.

(** C7, for ASCII text. Step 5 applied to its own result changes
    nothing. This holds of the methods of Python on the code points of
    the cells: the normalised name, email, category and answer are what
    [strip], [title], [lower] and the mapping of Maybe give, and these
    applied once more give the same values. *)
Theorem text_normalization_idempotent {A D : Type} (db : Unicode.Database)
    (rows : list (SurveyRecord A D)) :
  forallb ascii_row rows = true ->
  let cleaned := normalize_text rows in
  normalize_text cleaned = cleaned
  /\ Forall2 (fun r c =>
        code_points_of (name c) = Unicode.strip_title db (code_points_of (name r))
        /\ code_points_of (email c) = Unicode.strip_lower db (code_points_of (email r))
        /\ code_points_of (product_category c)
           = Unicode.strip_title db (code_points_of (product_category r))
        /\ code_points_of (would_recommend c)
           = Unicode.maybe_to_no
               (Unicode.strip_title db (code_points_of (would_recommend r))))
       rows cleaned
  /\ Forall (fun c =>
        Unicode.strip_title db (code_points_of (name c)) = code_points_of (name c)
        /\ Unicode.strip_lower db (code_points_of (email c)) = code_points_of (email c)
        /\ Unicode.strip_title db (code_points_of (product_category c))
           = code_points_of (product_category c)
        /\ Unicode.maybe_to_no
             (Unicode.strip_title db (code_points_of (would_recommend c)))
           = code_points_of (would_recommend c))
       cleaned.
Proof.
  intros Hrows cleaned. unfold cleaned. rewrite !normalize_text_rowwise.
  rewrite forallb_forall in Hrows.
  split; [rewrite map_map; apply map_ext; intros r; apply normalize_row_idem|].
  split.
  - assert (Hall : Forall (fun r => ascii_row r = true) rows)
      by (apply Forall_forall; exact Hrows).
    clear Hrows. induction Hall as [|r rows' Hr _ IH]; [constructor|].
    cbn [map]. constructor; [|exact IH].
    destruct (ascii_row_fields r Hr) as (Hn & He & Hp & Hw & _).
    cbn [normalize_row name email product_category would_recommend].
    rewrite !code_points_strip_title, code_points_strip_lower, code_points_maybe_to_no
      by assumption.
    repeat split.
  - apply Forall_forall. intros c Hc. apply in_map_iff in Hc. destruct Hc as (r & <- & Hr).
    destruct (ascii_row_fields r (Hrows r Hr)) as (Hn & He & Hp & Hw & _).
    cbn [normalize_row name email product_category would_recommend].
    rewrite !code_points_strip_title, code_points_strip_lower, code_points_maybe_to_no
      by (try apply ascii_cell_maybe_to_no; try apply ascii_cell_strip_title;
          try apply ascii_cell_strip_lower; assumption).
    now rewrite !strip_title_idem, strip_lower_idem, recommend_idem.
Qed.

Lemma text_normalization_idempotent_witness :
  forallb ascii_row data = true
  /\ normalize_text (normalize_text data) = normalize_text data
  /\ Forall (fun c =>
        Unicode.strip_title Unicode.excerpt (code_points_of (name c)) = code_points_of (name c)
        /\ Unicode.strip_lower Unicode.excerpt (code_points_of (email c))
           = code_points_of (email c)
        /\ Unicode.strip_title Unicode.excerpt (code_points_of (product_category c))
           = code_points_of (product_category c)
        /\ Unicode.maybe_to_no
             (Unicode.strip_title Unicode.excerpt (code_points_of (would_recommend c)))
           = code_points_of (would_recommend c))
       (normalize_text data).
Proof.
  split; [reflexivity|].
  pose proof (text_normalization_idempotent Unicode.excerpt data eq_refl) as H.
  cbv zeta in H. split; [apply H | apply H].
Defined.

(** C7 as stated fails beyond ASCII. In the name D, U+0130, L, E, K
    (DILEK with a dotted capital I) the U+0130 is lowered to i followed by
    U+0307, the combining dot above, which is not cased; a second pass
    therefore capitalises the l after it. *)
Lemma title_case_is_not_idempotent_beyond_ascii :
  let raw := Some [68; 304; 76; 69; 75]%N in
  let once := Unicode.strip_title Unicode.excerpt raw in
  once = Some [68; 105; 775; 108; 101; 107]%N
  /\ Unicode.strip_title Unicode.excerpt once = Some [68; 105; 775; 76; 101; 107]%N
  /\ Unicode.strip_title Unicode.excerpt once <> once.
Proof. cbv zeta. split; [reflexivity|]. split; [reflexivity | discriminate]. Qed.

(** On ASCII text, two cells receive the same trimmed, title-cased value
    exactly when they agree up to case and outer blanks, that is when
    they receive the same trimmed, lower-cased value; so it is with
    Python's methods on the code points of the cells. *)
Theorem same_title_iff_same_letters (db : Unicode.Database) (a b : option string) :
  ascii_cell a = true -> ascii_cell b = true ->
  (strip_title a = strip_title b <-> strip_lower a = strip_lower b)
  /\ (Unicode.strip_title db (code_points_of a) = Unicode.strip_title db (code_points_of b)
      <-> Unicode.strip_lower db (code_points_of a)
          = Unicode.strip_lower db (code_points_of b)).
Proof.
  intros Ha Hb. pose proof (same_title_same_lower a b) as Hiff.
  split; [exact Hiff|].
  rewrite !code_points_strip_title, !code_points_strip_lower by assumption.
  split; intros H; apply code_points_of_injective in H; f_equal; now apply Hiff.
Qed.

Lemma same_title_iff_same_letters_witness :
  Unicode.strip_title Unicode.excerpt (code_points_of (Some " jane doe "))
  = Unicode.strip_title Unicode.excerpt (code_points_of (Some "JANE DOE"))
  <-> Unicode.strip_lower Unicode.excerpt (code_points_of (Some " jane doe "))
      = Unicode.strip_lower Unicode.excerpt (code_points_of (Some "JANE DOE")).
Proof.
  apply (same_title_iff_same_letters Unicode.excerpt (Some " jane doe ") (Some "JANE DOE"));
    reflexivity.
Defined.

(** Beyond ASCII the two differ: the sharp s (U+00DF) is title-cased to
    Ss, so a sharp s followed by a, and ssa, receive the same title-cased
    value and different lower-cased values. *)
Example sharp_s_is_titled_as_ss :
  Unicode.title Unicode.excerpt [223; 97]%N = Unicode.title Unicode.excerpt [115; 115; 97]%N
  /\ Unicode.lower Unicode.excerpt [223; 97]%N <> Unicode.lower Unicode.excerpt [115; 115; 97]%N.
Proof. split; [reflexivity | discriminate]. Qed.

(** For ASCII input, the text of the cleaned frame is ASCII, and every
    name, category and answer is trimmed and in title case, every email
    is trimmed and has no upper-case letter, and every comment is
    trimmed. *)
Theorem cleaned_text_is_normalized lib rows :
  forallb ascii_row rows = true ->
  exists out,
    cleaning_pipeline lib rows = Some out
    /\ Forall (fun c =>
         ascii_row c = true
         /\ Shape.cell (fun s => Shape.trimmed s && Shape.titled s) (name c) = true
         /\ Shape.cell (fun s => Shape.trimmed s && Shape.no_upper s) (email c) = true
         /\ Shape.cell (fun s => Shape.trimmed s && Shape.titled s) (product_category c) = true
         /\ Shape.cell (fun s => Shape.trimmed s && Shape.titled s) (would_recommend c) = true
         /\ Shape.cell Shape.trimmed (comments c) = true) out.
Proof.
  intros Hascii. rewrite forallb_forall in Hascii.
  destruct (cleaned_text_shapes lib rows) as (out & Hout & Hshape).
  destruct (pipeline_rows lib rows) as (out' & Hout' & Hrows).
  rewrite Hout in Hout'. injection Hout' as <-.
  exists out. split; [exact Hout|].
  rewrite Forall_forall in *. intros c Hc. split; [|now apply Hshape].
  destruct (Forall2_In_r _ _ _ _ Hrows Hc) as (r & Hr & t & ->).
  assert (Hin : In r rows) by (unfold drop_duplicates in Hr; apply drop_from_In in Hr; tauto).
  destruct (ascii_row_fields r (Hascii r Hin)) as (Hn & He & Hp & Hw & Hk).
  unfold ascii_row.
  cbn [name email product_category would_recommend comments set_survey_date clean_row].
  rewrite ascii_cell_strip_title, ascii_cell_strip_lower, ascii_cell_strip_title,
    ascii_cell_maybe_to_no, ascii_cell_strip;
    try reflexivity; try assumption;
    try (apply ascii_cell_strip_title; assumption);
    apply ascii_cell_fillna; (reflexivity || assumption).
Qed.

Lemma cleaned_text_is_normalized_witness :
  exists out,
    cleaning_pipeline numeric_only data = Some out
    /\ Forall (fun c =>
         ascii_row c = true
         /\ Shape.cell (fun s => Shape.trimmed s && Shape.titled s) (name c) = true
         /\ Shape.cell (fun s => Shape.trimmed s && Shape.no_upper s) (email c) = true
         /\ Shape.cell (fun s => Shape.trimmed s && Shape.titled s) (product_category c) = true
         /\ Shape.cell (fun s => Shape.trimmed s && Shape.titled s) (would_recommend c) = true
         /\ Shape.cell Shape.trimmed (comments c) = true) out.
Proof. apply (cleaned_text_is_normalized numeric_only data). reflexivity. Defined.
